(** * TempestRemap: spectral-element remap kernel and its driver

    A shallow embedding of [src/gecore2.cpp] (the driver: [ParseVariableList]
    and the overlap-mesh orientation check of [main]) and of
    [src/LinearRemapSE0.cpp] ([ForceConsistencyConservation3] and
    [LinearRemapSE4]).

    Numbers: [double] is modelled by the rationals [Q] (exact arithmetic),
    [int] by [Z] or [nat] where the value is a loop counter or a size.
    Arrays ([DataVector], [DataMatrix], raw [double *]) are total functions
    from indices together with their sizes. The corrector is given a second
    time with [double] as binary64 (module [Binary64]), for what depends on
    rounding. *)

From Stdlib Require Import List Arith ZArith QArith Qabs Lia Lqa Bool.
From Stdlib Require Import Ascii String.
From Stdlib Require PrimFloat FloatOps SpecFloat Uint63.
Import ListNotations.

(** ** Loops *)

(** [for (int i = 0; i < n; i++) body(i)] over a state [S]. *)
Fixpoint for_loop {S : Type} (n : nat) (body : nat -> S -> S) (s : S) : S :=
  match n with
  | O => s
  | Datatypes.S n' => body n' (for_loop n' body s)
  end.

(** The exceptions of [LinearRemapSE0.cpp], under the names of the error
    kinds: "Only quadrilateral elements allowed for SE remapping",
    "Inverse Map out of range (dAlpha dBeta)" and
    "Unable to solve SPD Schur system: nInfo". *)
Inductive Exception :=
| UnsupportedElement
| InverseMapOutOfRange (dAlpha dBeta : Q)
| SchurSolveFailed (nInfo : Z).

Inductive Result (A : Type) :=
| Ok (a : A)
| Err (e : Exception).

Arguments Ok {A} a.
Arguments Err {A} e.

Definition bind {A B : Type} (r : Result A) (k : A -> Result B) : Result B :=
  match r with
  | Ok a => k a
  | Err e => Err e
  end.

Notation "x <- r ;; k" := (bind r (fun x => k))
  (at level 61, r at next level, right associativity).

(** [for] with a body that can throw. *)
Fixpoint for_loopM {S : Type} (n : nat) (body : nat -> S -> Result S) (s : S)
  : Result S :=
  match n with
  | O => Ok s
  | Datatypes.S n' => s' <- for_loopM n' body s ;; body n' s'
  end.

(** ** Arithmetic of [double], exact *)

Definition Qltb (x y : Q) : bool := negb (Qle_bool y x).

(** [static_cast<double>(n)] *)
Definition Qnat (n : nat) : Q := inject_Z (Z.of_nat n).

(** Sum of [f 0 .. f (n-1)]. *)
Fixpoint sumQ (n : nat) (f : nat -> Q) : Q :=
  match n with
  | O => 0
  | Datatypes.S n' => sumQ n' f + f n'
  end.

(** ** Arrays *)

Definition upd {A : Type} (f : nat -> A) (k : nat) (v : A) : nat -> A :=
  fun x => if Nat.eqb x k then v else f x.

(** [&(a[off])]: the array seen from offset [off]. *)
Definition ptr (a : nat -> Q) (off : nat) : nat -> Q := fun k => a (off + k)%nat.

(** The array [a] after the memory from [&(a[off])] on has become [seg]. *)
Definition ptr_store (a : nat -> Q) (off : nat) (seg : nat -> Q) : nat -> Q :=
  fun k => if (k <? off)%nat then a k else seg (k - off)%nat.

(** [DataVector<double>]: the class is not in [src/]; a length and the
    elements. *)
Module DataVector.
Record t := mk { GetRows : nat; data : nat -> Q }.
Definition Initialize (n : nat) : t := mk n (fun _ => 0).
Definition get (v : t) (i : nat) : Q := data v i.
Definition set (v : t) (i : nat) (x : Q) : t :=
  mk (GetRows v) (upd (data v) i x).
End DataVector.

(** [DataMatrix<double>]: the class is not in [src/]; [data] is the
    contiguous row-major storage that [&(dC[0][0])] hands to LAPACK. *)
Module DataMatrix.
Record t := mk { GetRows : nat; GetColumns : nat; data : nat -> Q }.
Definition Initialize (r c : nat) : t := mk r c (fun _ => 0).
Definition get (M : t) (i j : nat) : Q := data M (i * GetColumns M + j)%nat.
Definition set (M : t) (i j : nat) (x : Q) : t :=
  mk (GetRows M) (GetColumns M) (upd (data M) (i * GetColumns M + j)%nat x).
End DataMatrix.

(** ** BLAS and LAPACK *)

Module Blas.

Local Open Scope string_scope.

(** Modelled from the spec: [dgemv_] is only declared in [src/]; this is
    the GEMV of the dense linear algebra shim,
    [y := alpha*A*x + beta*y] for [trans = 'n'] and
    [y := alpha*A^T*x + beta*y] otherwise, on an [m] by [n] matrix stored
    by columns with leading dimension [lda]. *)
Definition dgemv (trans : ascii) (m n : nat) (alpha : Q) (a : nat -> Q)
  (lda : nat) (x : nat -> Q) (incx : nat) (beta : Q) (y : nat -> Q)
  (incy : nat) : nat -> Q :=
  if Ascii.eqb trans "n" then
    for_loop m (fun r y' =>
      upd y' (r * incy)%nat
        (alpha * sumQ n (fun c => a (r + c * lda)%nat * x (c * incx)%nat)
         + beta * y (r * incy)%nat)) y
  else
    for_loop n (fun c y' =>
      upd y' (c * incy)%nat
        (alpha * sumQ m (fun r => a (r + c * lda)%nat * x (r * incx)%nat)
         + beta * y (c * incy)%nat)) y.

(** [dposv_] is only declared in [src/]: an implementation is a function
    from [uplo], [n], [nrhs], the matrix, [lda], the right-hand side and
    [ldb] to [info] and the right-hand side overwritten. *)
Definition dposv_t : Type :=
  ascii -> nat -> nat -> (nat -> Q) -> nat -> (nat -> Q) -> nat
  -> Z * (nat -> Q).

(** The entry [(r, c)] of the symmetric matrix whose upper triangle is
    stored by columns in [a]. *)
Definition upper (a : nat -> Q) (lda : nat) (r c : nat) : Q :=
  if (r <=? c)%nat then a (r + c * lda)%nat else a (c + r * lda)%nat.

(** Modelled from the spec: the SPD solve of the dense linear algebra shim,
    in exact arithmetic: with [info = 0] the right-hand side returned solves
    the system. *)
Definition dposv_solves (dposv : dposv_t) : Prop :=
  forall n a lda b ldb x,
    dposv "U"%char n 1%nat a lda b ldb = (0%Z, x) ->
    forall r, (r < n)%nat -> sumQ n (fun c => upper a lda r c * x c) == b r.

(** A solver to run the code with: elimination without pivoting on the
    symmetric matrix, then a check of the residual, which decides [info]. *)
Definition tabulate (n : nat) (f : nat -> Q) : nat -> Q :=
  let l := map f (seq 0 n) in fun k => nth k l 0.

Definition tabulate2 (n : nat) (f : nat -> nat -> Q) : nat -> nat -> Q :=
  let l := map (fun r => map (fun c => Qred (f r c)) (seq 0 n)) (seq 0 n) in
  fun r c => nth c (nth r l []) 0.

Definition eliminate (n k : nat) (st : (nat -> nat -> Q) * (nat -> Q))
  : (nat -> nat -> Q) * (nat -> Q) :=
  let A := fst st in
  let b := snd st in
  let p := A k k in
  (tabulate2 n
     (fun r c => if (r =? k)%nat then A k c / p else A r c - A r k * (A k c / p)),
   tabulate n
     (fun r => Qred (if (r =? k)%nat then b k / p else b r - A r k * (b k / p)))).

Definition dposv_elim : dposv_t :=
  fun uplo n nrhs a lda b ldb =>
    let x := snd (for_loop n (eliminate n) (tabulate2 n (upper a lda), tabulate n b)) in
    if forallb (fun r => Qeq_bool (sumQ n (fun c => upper a lda r c * x c)) (b r))
         (seq 0 n)
    then (0%Z, x)
    else (1%Z, b).

End Blas.

(** ** [ForceConsistencyConservation3] *)

Module Corrector.

(** The arrays that the loops "RHS", "Consistency" and "Conservation" fill,
    with the running index [ix]. *)
Record Constraints := mkConstraints {
  dC : DataMatrix.t;
  dRHS : DataVector.t;
  ix : nat
}.

Section Loops.

Variables vecSourceArea vecTargetArea : DataVector.t.
Variable dCoeff : DataMatrix.t.

Let nRows := DataMatrix.GetRows dCoeff.
Let nCols := DataMatrix.GetColumns dCoeff.
Let nCoeff := (nRows * nCols)%nat.

(** [// RHS] *)
Definition build_RHS (st : Constraints) : Constraints :=
  for_loop nRows (fun i =>
    for_loop nCols (fun j st =>
      mkConstraints (dC st)
        (DataVector.set (dRHS st) (ix st) (DataMatrix.get dCoeff i j))
        (ix st + 1))) st.

(** [// Consistency] *)
Definition build_consistency (st : Constraints) : Constraints :=
  for_loop nRows (fun i st =>
    let dC' :=
      for_loop nCols (fun j dC' =>
        DataMatrix.set dC' (i * nCols + j) (ix st) 1) (dC st) in
    mkConstraints dC'
      (DataVector.set (dRHS st) (nCoeff + ix st) 1)
      (ix st + 1)) st.

(** [// Conservation] *)
Definition build_conservation (st : Constraints) : Constraints :=
  for_loop (nCols - 1) (fun j st =>
    let dC' :=
      for_loop nRows (fun i dC' =>
        DataMatrix.set dC' (i * nCols + j) (ix st)
          (DataVector.get vecTargetArea i)) (dC st) in
    mkConstraints dC'
      (DataVector.set (dRHS st) (nCoeff + ix st) (DataVector.get vecSourceArea j))
      (ix st + 1)) st.

(** [// Calculate CCt] *)
Definition calc_dP : Q :=
  for_loop nRows (fun i dP =>
    dP + DataVector.get vecTargetArea i * DataVector.get vecTargetArea i) 0.

Definition build_CCt (dP : Q) (dCCt : DataMatrix.t) : DataMatrix.t :=
  let dCCt :=
    for_loop nRows (fun i dCCt =>
      let dCCt := DataMatrix.set dCCt i i (Qnat nCols) in
      for_loop (nCols - 1) (fun j dCCt =>
        let dCCt :=
          DataMatrix.set dCCt i (nRows + j) (DataVector.get vecTargetArea i) in
        DataMatrix.set dCCt (nRows + j) i (DataVector.get vecTargetArea i))
        dCCt) dCCt in
  for_loop (nCols - 1) (fun i dCCt =>
    let ix := (nRows + i)%nat in
    DataMatrix.set dCCt ix ix dP) dCCt.

(** [// Store coefficients in array] *)
Definition store_coefficients (dRHS : DataVector.t) (dCoeff0 : DataMatrix.t)
  : DataMatrix.t :=
  fst (for_loop nRows (fun i =>
         for_loop nCols (fun j (st : DataMatrix.t * nat) =>
           (DataMatrix.set (fst st) i j (DataVector.get dRHS (snd st)),
            (snd st + 1)%nat))) (dCoeff0, 0%nat)).

(** [// Force monotonicity], on the coefficients [dCoeff1] that the solve
    has stored. The divisions are exact: what is proved of this branch
    assumes nonnegative source areas of positive total, under which no
    divisor is zero; [Binary64] has the branch with the rounded operations
    and their infinities. *)
Definition dTotalJacobian : Q :=
  for_loop (DataVector.GetRows vecSourceArea) (fun i t =>
    t + DataVector.get vecSourceArea i) 0.

Definition build_dMonoCoeff : DataMatrix.t :=
  for_loop nRows (fun i =>
    for_loop nCols (fun j dMonoCoeff =>
      DataMatrix.set dMonoCoeff i j
        (DataVector.get vecSourceArea j / dTotalJacobian)))
    (DataMatrix.Initialize nRows nCols).

Definition scaling_factor (dMonoCoeff dCoeff1 : DataMatrix.t) : Q :=
  for_loop nRows (fun i =>
    for_loop nCols (fun j dA =>
      if Qltb (DataMatrix.get dCoeff1 i j) 0 then
        let dNewA :=
          - DataMatrix.get dCoeff1 i j
          / Qabs (DataMatrix.get dMonoCoeff i j - DataMatrix.get dCoeff1 i j) in
        if Qltb dA dNewA then dNewA else dA
      else dA)) 0.

Definition blend (dA : Q) (dMonoCoeff dCoeff1 : DataMatrix.t) : DataMatrix.t :=
  for_loop nRows (fun i =>
    for_loop nCols (fun j dCoeff1 =>
      DataMatrix.set dCoeff1 i j
        ((1 - dA) * DataMatrix.get dCoeff1 i j
         + dA * DataMatrix.get dMonoCoeff i j))) dCoeff1.

Definition force_monotonicity (dCoeff1 : DataMatrix.t) : DataMatrix.t :=
  let dMonoCoeff := build_dMonoCoeff in
  let dA := scaling_factor dMonoCoeff dCoeff1 in
  blend dA dMonoCoeff dCoeff1.

End Loops.

Section Solve.

Variable dposv : Blas.dposv_t.

Definition ForceConsistencyConservation3
  (vecSourceArea vecTargetArea : DataVector.t) (dCoeff : DataMatrix.t)
  (fMonotone : bool) : Result DataMatrix.t :=
  let nCoeff := (DataMatrix.GetRows dCoeff * DataMatrix.GetColumns dCoeff)%nat in
  let nCondConservation := DataMatrix.GetColumns dCoeff in
  let nCondConsistency := DataMatrix.GetRows dCoeff in
  let nCond := (nCondConservation + nCondConsistency - 1)%nat in
  let dCCt := DataMatrix.Initialize nCond nCond in
  let dC := DataMatrix.Initialize nCoeff nCond in
  let dRHS := DataVector.Initialize (nCoeff + nCond) in
  let st := build_RHS dCoeff (mkConstraints dC dRHS 0) in
  let st := build_consistency dCoeff (mkConstraints (Corrector.dC st) (Corrector.dRHS st) 0) in
  let st := build_conservation vecSourceArea vecTargetArea dCoeff st in
  let dC := Corrector.dC st in
  let dRHS := DataVector.data (Corrector.dRHS st) in
  let dP := calc_dP vecTargetArea dCoeff in
  let dCCt := build_CCt vecTargetArea dCoeff dP dCCt in
  let m := nCond in
  let n := nCoeff in
  let lda := m in
  let incx := 1%nat in
  let incy := 1%nat in
  let posone := 1 in
  let negone := - (1) in
  let dRHS :=
    ptr_store dRHS nCoeff
      (Blas.dgemv "n" m n posone (DataMatrix.data dC) lda (ptr dRHS 0) incx
         negone (ptr dRHS nCoeff) incy) in
  let nrhs := 1%nat in
  let ldb := nCond in
  let sol :=
    dposv "U"%char m nrhs (DataMatrix.data dCCt) lda (ptr dRHS nCoeff) ldb in
  let nInfo := fst sol in
  let dRHS := ptr_store dRHS nCoeff (snd sol) in
  if negb (nInfo =? 0)%Z then Err (SchurSolveFailed nInfo)
  else
    let dRHS :=
      ptr_store dRHS 0
        (Blas.dgemv "t" m n negone (DataMatrix.data dC) lda (ptr dRHS nCoeff)
           incx posone (ptr dRHS 0) incy) in
    let dCoeff1 :=
      store_coefficients dCoeff
        (DataVector.mk (nCoeff + nCond) dRHS) dCoeff in
    if fMonotone then Ok (force_monotonicity vecSourceArea dCoeff dCoeff1)
    else Ok dCoeff1.

End Solve.

(** The arrays of [ForceConsistencyConservation3] when it calls the
    library: [dC] and [dRHS] after the loops "RHS", "Consistency" and
    "Conservation", and [dCCt] after "Calculate CCt". *)
Definition constraints (vecSourceArea vecTargetArea : DataVector.t)
  (dCoeff : DataMatrix.t) : Constraints :=
  let nCoeff := (DataMatrix.GetRows dCoeff * DataMatrix.GetColumns dCoeff)%nat in
  let nCond :=
    (DataMatrix.GetColumns dCoeff + DataMatrix.GetRows dCoeff - 1)%nat in
  let st :=
    build_RHS dCoeff
      (mkConstraints (DataMatrix.Initialize nCoeff nCond)
         (DataVector.Initialize (nCoeff + nCond)) 0) in
  let st := build_consistency dCoeff (mkConstraints (dC st) (dRHS st) 0) in
  build_conservation vecSourceArea vecTargetArea dCoeff st.

Definition schur_matrix (vecTargetArea : DataVector.t) (dCoeff : DataMatrix.t)
  : DataMatrix.t :=
  let nCond :=
    (DataMatrix.GetColumns dCoeff + DataMatrix.GetRows dCoeff - 1)%nat in
  build_CCt vecTargetArea dCoeff (calc_dP vecTargetArea dCoeff)
    (DataMatrix.Initialize nCond nCond).

End Corrector.

(** ** [ForceConsistencyConservation3] in binary64 *)

(** The corrector again, with [double] as the binary64 numbers of IEEE 754
    and their rounded operations, to settle what exact arithmetic cannot:
    how far below zero the monotone blend can leave an entry. *)
Module Binary64.

Import PrimFloat.
Local Open Scope float_scope.

(** [static_cast<double>(n)] *)
Definition of_nat (n : nat) : float := of_uint63 (Uint63.of_Z (Z.of_nat n)).

(** The rational that a finite binary64 number is; 0 for the others. *)
Definition to_Q (f : float) : Q :=
  match FloatOps.Prim2SF f with
  | SpecFloat.S754_finite s m e =>
      ((if s then - inject_Z (Zpos m) else inject_Z (Zpos m))
       * Qpower (2 # 1) e)%Q
  | _ => 0%Q
  end.

Definition ptr (a : nat -> float) (off : nat) : nat -> float :=
  fun k => a (off + k)%nat.

Definition ptr_store (a : nat -> float) (off : nat) (seg : nat -> float)
  : nat -> float :=
  fun k => if (k <? off)%nat then a k else seg (k - off)%nat.

Module DataVector.
Record t := mk { GetRows : nat; data : nat -> float }.
Definition Initialize (n : nat) : t := mk n (fun _ => 0).
Definition get (v : t) (i : nat) : float := data v i.
Definition set (v : t) (i : nat) (x : float) : t :=
  mk (GetRows v) (upd (data v) i x).
End DataVector.

Module DataMatrix.
Record t := mk { GetRows : nat; GetColumns : nat; data : nat -> float }.
Definition Initialize (r c : nat) : t := mk r c (fun _ => 0).
Definition get (M : t) (i j : nat) : float :=
  data M (i * GetColumns M + j)%nat.
Definition set (M : t) (i j : nat) (x : float) : t :=
  mk (GetRows M) (GetColumns M) (upd (data M) (i * GetColumns M + j)%nat x).
End DataMatrix.

(** [dgemv_] and [dposv_] are only declared in [src/]: an implementation
    of each is a function of its arguments to the array it overwrites,
    with [info] for [dposv_]. *)
Definition dgemv_t : Type :=
  ascii -> nat -> nat -> float -> (nat -> float) -> nat -> (nat -> float)
  -> nat -> float -> (nat -> float) -> nat -> nat -> float.

Definition dposv_t : Type :=
  ascii -> nat -> nat -> (nat -> float) -> nat -> (nat -> float) -> nat
  -> Z * (nat -> float).

Record Constraints := mkConstraints {
  dC : DataMatrix.t;
  dRHS : DataVector.t;
  ix : nat
}.

Section Loops.

Variables vecSourceArea vecTargetArea : DataVector.t.
Variable dCoeff : DataMatrix.t.

Let nRows := DataMatrix.GetRows dCoeff.
Let nCols := DataMatrix.GetColumns dCoeff.
Let nCoeff := (nRows * nCols)%nat.

(** [// RHS] *)
Definition build_RHS (st : Constraints) : Constraints :=
  for_loop nRows (fun i =>
    for_loop nCols (fun j st =>
      mkConstraints (dC st)
        (DataVector.set (dRHS st) (ix st) (DataMatrix.get dCoeff i j))
        (ix st + 1))) st.

(** [// Consistency] *)
Definition build_consistency (st : Constraints) : Constraints :=
  for_loop nRows (fun i st =>
    let dC' :=
      for_loop nCols (fun j dC' =>
        DataMatrix.set dC' (i * nCols + j) (ix st) 1) (dC st) in
    mkConstraints dC'
      (DataVector.set (dRHS st) (nCoeff + ix st) 1)
      (ix st + 1)) st.

(** [// Conservation] *)
Definition build_conservation (st : Constraints) : Constraints :=
  for_loop (nCols - 1) (fun j st =>
    let dC' :=
      for_loop nRows (fun i dC' =>
        DataMatrix.set dC' (i * nCols + j) (ix st)
          (DataVector.get vecTargetArea i)) (dC st) in
    mkConstraints dC'
      (DataVector.set (dRHS st) (nCoeff + ix st) (DataVector.get vecSourceArea j))
      (ix st + 1)) st.

(** [// Calculate CCt] *)
Definition calc_dP : float :=
  for_loop nRows (fun i dP =>
    dP + DataVector.get vecTargetArea i * DataVector.get vecTargetArea i) 0.

Definition build_CCt (dP : float) (dCCt : DataMatrix.t) : DataMatrix.t :=
  let dCCt :=
    for_loop nRows (fun i dCCt =>
      let dCCt := DataMatrix.set dCCt i i (of_nat nCols) in
      for_loop (nCols - 1) (fun j dCCt =>
        let dCCt :=
          DataMatrix.set dCCt i (nRows + j) (DataVector.get vecTargetArea i) in
        DataMatrix.set dCCt (nRows + j) i (DataVector.get vecTargetArea i))
        dCCt) dCCt in
  for_loop (nCols - 1) (fun i dCCt =>
    let ix := (nRows + i)%nat in
    DataMatrix.set dCCt ix ix dP) dCCt.

(** [// Store coefficients in array] *)
Definition store_coefficients (dRHS : DataVector.t) (dCoeff0 : DataMatrix.t)
  : DataMatrix.t :=
  fst (for_loop nRows (fun i =>
         for_loop nCols (fun j (st : DataMatrix.t * nat) =>
           (DataMatrix.set (fst st) i j (DataVector.get dRHS (snd st)),
            (snd st + 1)%nat))) (dCoeff0, 0%nat)).

(** [// Force monotonicity] *)
Definition dTotalJacobian : float :=
  for_loop (DataVector.GetRows vecSourceArea) (fun i t =>
    t + DataVector.get vecSourceArea i) 0.

Definition build_dMonoCoeff : DataMatrix.t :=
  for_loop nRows (fun i =>
    for_loop nCols (fun j dMonoCoeff =>
      DataMatrix.set dMonoCoeff i j
        (DataVector.get vecSourceArea j / dTotalJacobian)))
    (DataMatrix.Initialize nRows nCols).

Definition scaling_factor (dMonoCoeff dCoeff1 : DataMatrix.t) : float :=
  for_loop nRows (fun i =>
    for_loop nCols (fun j dA =>
      if DataMatrix.get dCoeff1 i j <? 0 then
        let dNewA :=
          - DataMatrix.get dCoeff1 i j
          / abs (DataMatrix.get dMonoCoeff i j - DataMatrix.get dCoeff1 i j) in
        if dA <? dNewA then dNewA else dA
      else dA)) 0.

Definition blend (dA : float) (dMonoCoeff dCoeff1 : DataMatrix.t)
  : DataMatrix.t :=
  for_loop nRows (fun i =>
    for_loop nCols (fun j dCoeff1 =>
      DataMatrix.set dCoeff1 i j
        ((1 - dA) * DataMatrix.get dCoeff1 i j
         + dA * DataMatrix.get dMonoCoeff i j))) dCoeff1.

Definition force_monotonicity (dCoeff1 : DataMatrix.t) : DataMatrix.t :=
  let dMonoCoeff := build_dMonoCoeff in
  let dA := scaling_factor dMonoCoeff dCoeff1 in
  blend dA dMonoCoeff dCoeff1.

End Loops.

Section Solve.

Variable dgemv : dgemv_t.
Variable dposv : dposv_t.

Definition ForceConsistencyConservation3
  (vecSourceArea vecTargetArea : DataVector.t) (dCoeff : DataMatrix.t)
  (fMonotone : bool) : Result DataMatrix.t :=
  let nCoeff := (DataMatrix.GetRows dCoeff * DataMatrix.GetColumns dCoeff)%nat in
  let nCondConservation := DataMatrix.GetColumns dCoeff in
  let nCondConsistency := DataMatrix.GetRows dCoeff in
  let nCond := (nCondConservation + nCondConsistency - 1)%nat in
  let dCCt := DataMatrix.Initialize nCond nCond in
  let dC := DataMatrix.Initialize nCoeff nCond in
  let dRHS := DataVector.Initialize (nCoeff + nCond) in
  let st := build_RHS dCoeff (mkConstraints dC dRHS 0) in
  let st :=
    build_consistency dCoeff
      (mkConstraints (Binary64.dC st) (Binary64.dRHS st) 0) in
  let st := build_conservation vecSourceArea vecTargetArea dCoeff st in
  let dC := Binary64.dC st in
  let dRHS := DataVector.data (Binary64.dRHS st) in
  let dP := calc_dP vecTargetArea dCoeff in
  let dCCt := build_CCt vecTargetArea dCoeff dP dCCt in
  let m := nCond in
  let n := nCoeff in
  let lda := m in
  let incx := 1%nat in
  let incy := 1%nat in
  let posone := 1 in
  let negone := - (1) in
  let dRHS :=
    ptr_store dRHS nCoeff
      (dgemv "n"%char m n posone (DataMatrix.data dC) lda (ptr dRHS 0) incx
         negone (ptr dRHS nCoeff) incy) in
  let nrhs := 1%nat in
  let ldb := nCond in
  let sol :=
    dposv "U"%char m nrhs (DataMatrix.data dCCt) lda (ptr dRHS nCoeff) ldb in
  let nInfo := fst sol in
  let dRHS := ptr_store dRHS nCoeff (snd sol) in
  if negb (nInfo =? 0)%Z then Err (SchurSolveFailed nInfo)
  else
    let dRHS :=
      ptr_store dRHS 0
        (dgemv "t"%char m n negone (DataMatrix.data dC) lda (ptr dRHS nCoeff)
           incx posone (ptr dRHS 0) incy) in
    let dCoeff1 :=
      store_coefficients dCoeff
        (DataVector.mk (nCoeff + nCond) dRHS) dCoeff in
    if fMonotone then Ok (force_monotonicity vecSourceArea dCoeff dCoeff1)
    else Ok dCoeff1.

End Solve.

(** *** The library routines, to run the code with *)

Definition tabulate (n : nat) (f : nat -> float) : nat -> float :=
  let l := map f (seq 0 n) in fun k => nth k l 0.

(** The loops of the reference implementation of [dgemv]:
    [y := beta*y], then column by column for ['n'], dot product by dot
    product otherwise. *)
Definition dgemv_ref : dgemv_t :=
  fun trans m n alpha a lda x incx beta y incy =>
    let leny := if Ascii.eqb trans "n" then m else n in
    let y :=
      if beta =? 1 then y
      else
        for_loop leny (fun i y' =>
          upd y' (i * incy)%nat
            (if beta =? 0 then 0 else beta * y (i * incy)%nat)) y in
    if alpha =? 0 then y
    else if Ascii.eqb trans "n" then
      for_loop n (fun j y' =>
        let temp := alpha * x (j * incx)%nat in
        for_loop m (fun i y'' =>
          upd y'' (i * incy)%nat
            (y'' (i * incy)%nat + temp * a (i + j * lda)%nat)) y') y
    else
      for_loop n (fun j y' =>
        let temp :=
          for_loop m (fun i t => t + a (i + j * lda)%nat * x (i * incx)%nat)
            0 in
        upd y' (j * incy)%nat (y' (j * incy)%nat + alpha * temp)) y.

(** [dposv] on the upper triangle: the factorization [A = U^T U] row by
    row, [info = j + 1] when the pivot [j] is not positive, then the two
    triangular solves. *)
Definition cholesky_row (n lda j : nat) (st : Z * (nat -> float))
  : Z * (nat -> float) :=
  let a := snd st in
  if negb (fst st =? 0)%Z then st
  else
    let ajj :=
      a (j + j * lda)%nat
      - for_loop j (fun k t => t + a (k + j * lda)%nat * a (k + j * lda)%nat)
          0 in
    if negb (0 <? ajj) then (Z.of_nat (j + 1), upd a (j + j * lda)%nat ajj)
    else
      let ajj := sqrt ajj in
      (0%Z,
       tabulate (lda * n)
         (fun ix =>
            let r := (ix mod lda)%nat in
            let c := (ix / lda)%nat in
            if ((r =? j) && (c =? j))%nat then ajj
            else if ((r =? j) && (j <? c))%nat then
              (a ix
               - for_loop j (fun k t =>
                   t + a (k + c * lda)%nat * a (k + j * lda)%nat) 0)
              * (1 / ajj)
            else a ix)).

Definition solve_transposed (n lda : nat) (u b : nat -> float) : nat -> float :=
  for_loop n (fun i b' =>
    let temp :=
      for_loop i (fun k t => t - u (k + i * lda)%nat * b' k) (b' i) in
    tabulate n (upd b' i (temp / u (i + i * lda)%nat))) (tabulate n b).

Definition solve_upper (n lda : nat) (u b : nat -> float) : nat -> float :=
  for_loop n (fun step b' =>
    let k := (n - 1 - step)%nat in
    if b' k =? 0 then b'
    else
      let bk := b' k / u (k + k * lda)%nat in
      tabulate n
        (fun i =>
           if (i =? k)%nat then bk
           else if (i <? k)%nat then b' i - bk * u (i + k * lda)%nat
           else b' i)) (tabulate n b).

Definition dposv_ref : dposv_t :=
  fun uplo n nrhs a lda b ldb =>
    let f := for_loop n (cholesky_row n lda) (0%Z, tabulate (lda * n) a) in
    if negb (fst f =? 0)%Z then (fst f, b)
    else (0%Z, solve_upper n lda (snd f) (solve_transposed n lda (snd f) b)).

(** *** An input on which the blend rounds *)

(** Two overlap faces of area 1/2, two nodes of Jacobian weight 1/2, and
    coefficients whose rows sum to 1 and whose columns are conserved. *)
Definition vecSourceArea : DataVector.t :=
  DataVector.mk 2 (fun _ => 0.5).

Definition vecTargetArea : DataVector.t :=
  DataVector.mk 2 (fun _ => 0.5).

Definition dCoeff : DataMatrix.t :=
  DataMatrix.mk 2 2 (fun k => nth k [1002; -1001; -1001; 1002] 0).

(** *** An input on which the scaling factor divides by zero *)

(** One overlap face of area 1 and two nodes, one of them of negative
    Jacobian weight; the coefficients are the donor itself. *)
Definition vecSourceAreaSigned : DataVector.t :=
  DataVector.mk 2 (fun k => nth k [-1; 2] 0).

Definition vecTargetAreaWhole : DataVector.t :=
  DataVector.mk 1 (fun _ => 1).

Definition dCoeffDonor : DataMatrix.t :=
  DataMatrix.mk 1 2 (fun k => nth k [-1; 2] 0).

End Binary64.

(** ** [ForceConsistencyConservation2] *)

Module Corrector2.

Local Open Scope string_scope.

(** [dsysv_] is only declared in [src/]; the caller passes [ipiv] and
    [work] and does not read them afterwards: an implementation is a
    function from [uplo], [n], [nrhs], the matrix, [lda], the right-hand
    side and [ldb] to [info] and the right-hand side overwritten. *)
Definition dsysv_t : Type :=
  ascii -> nat -> nat -> (nat -> Q) -> nat -> (nat -> Q) -> nat
  -> Z * (nat -> Q).

(** The contract of the solve of a symmetric system whose upper triangle
    is stored by columns, in exact arithmetic: with [info = 0] the
    right-hand side returned solves the system. *)
Definition dsysv_solves (dsysv : dsysv_t) : Prop :=
  forall n a lda b ldb x,
    dsysv "U"%char n 1%nat a lda b ldb = (0%Z, x) ->
    forall r, (r < n)%nat ->
      sumQ n (fun c => Blas.upper a lda r c * x c) == b r.

(** The Lagrangian matrix and the right-hand side being filled, with the
    running index [ix]. *)
Record Lagrangian := mkLagrangian {
  dLagrangian : DataMatrix.t;
  dRHS : DataVector.t;
  ix : nat
}.

(** What [ForceConsistencyConservation2] returns or throws:
    "Cannot solve target system: nInfo". *)
Inductive Outcome :=
| Solved (dCoeff : DataMatrix.t)
| CannotSolveTargetSystem (nInfo : Z).

Section Loops.

Variables vecSourceArea vecTargetArea : DataVector.t.
Variable dCoeff : DataMatrix.t.

Let nRows := DataMatrix.GetRows dCoeff.
Let nCols := DataMatrix.GetColumns dCoeff.
Let nCoeff := (nRows * nCols)%nat.
Let nCondConsistency := nRows.

(** [// Build the Lagrangian matrix] *)
Definition build_lagrangian (st : Lagrangian) : Lagrangian :=
  for_loop nRows (fun i =>
    for_loop nCols (fun j st =>
      let ix := ix st in
      let L := DataMatrix.set (dLagrangian st) ix ix 1 in
      let L := DataMatrix.set L (nCoeff + i) ix (- (1)) in
      let L :=
        if negb (j =? nCols - 1)%nat then
          DataMatrix.set L (nCoeff + nCondConsistency + j) ix
            (- DataVector.get vecTargetArea i)
        else L in
      let L := DataMatrix.set L ix (nCoeff + i) (- (1)) in
      let L :=
        if negb (j =? nCols - 1)%nat then
          DataMatrix.set L ix (nCoeff + nCondConsistency + j)
            (- DataVector.get vecTargetArea i)
        else L in
      mkLagrangian L
        (DataVector.set (dRHS st) ix (DataMatrix.get dCoeff i j))
        (ix + 1))) st.

(** [// Consistency and conservation of RHS vector] *)
Definition build_conditions (dRHS : DataVector.t) : DataVector.t :=
  let dRHS :=
    for_loop nRows (fun i dRHS =>
      DataVector.set dRHS (nCoeff + i) (- (1))) dRHS in
  for_loop (nCols - 1) (fun i dRHS =>
    DataVector.set dRHS (nCoeff + nCondConsistency + i)
      (- DataVector.get vecSourceArea i)) dRHS.

End Loops.

Section Solve.

Variable dsysv : dsysv_t.

(** The dump of the matrix to [lagrangian.dat] is left out; [fMonotone]
    is not read. *)
Definition ForceConsistencyConservation2
  (vecSourceArea vecTargetArea : DataVector.t) (dCoeff : DataMatrix.t)
  (fMonotone : bool) : Outcome :=
  let nCoeff := (DataMatrix.GetRows dCoeff * DataMatrix.GetColumns dCoeff)%nat in
  let nCondConservation := DataMatrix.GetColumns dCoeff in
  let nCondConsistency := DataMatrix.GetRows dCoeff in
  let nCond := (nCondConservation + nCondConsistency - 1)%nat in
  let st :=
    build_lagrangian vecTargetArea dCoeff
      (mkLagrangian
         (DataMatrix.Initialize (nCoeff + nCond) (nCoeff + nCond))
         (DataVector.Initialize (nCoeff + nCond)) 0) in
  let dRHS := build_conditions vecSourceArea dCoeff (dRHS st) in
  let n := DataMatrix.GetRows (dLagrangian st) in
  let nRHS := 1%nat in
  let nLDA := n in
  let nLDB := n in
  let sol :=
    dsysv "U"%char n nRHS (DataMatrix.data (dLagrangian st)) nLDA
      (DataVector.data dRHS) nLDB in
  let nInfo := fst sol in
  if negb (nInfo =? 0)%Z then CannotSolveTargetSystem nInfo
  else
    Solved
      (Corrector.store_coefficients dCoeff
         (DataVector.mk (nCoeff + nCond) (snd sol)) dCoeff).

End Solve.

End Corrector2.

(** ** [LinearRemapSE4] *)

Module Remap.

(** *** Meshes and element data (declared outside [src/]) *)

Record Node := mkNode { x : Q; y : Q; z : Q }.

(** A [Face] by the node indices of its edges: [edges.size()] is the
    length, [face[k]] the [k]-th index. *)
Record Face := mkFace { edges : list nat }.

Definition face_node (f : Face) (k : nat) : nat := nth k (edges f) O.

Definition NodeVector : Type := list Node.

Definition node_at (nodes : NodeVector) (k : nat) : Node :=
  nth k nodes (mkNode 0 0 0).

Record Mesh := mkMesh {
  nodes : NodeVector;
  faces : list Face;
  vecFaceArea : nat -> Q;
  vecFirstFaceIx : list Z;
  vecSecondFaceIx : list Z
}.

Definition face_at (m : Mesh) (k : nat) : Face := nth k (faces m) (mkFace []).

(** [DataMatrix3D<T>] with its first dimension. *)
Record DataMatrix3D (T : Type) := mkDataMatrix3D {
  GetRows : nat;
  data3 : nat -> nat -> nat -> T
}.

Arguments GetRows {T} _.
Arguments data3 {T} _ _ _ _.

(** The local coefficients [dRemapCoeff[p][q][j]]. *)
Definition Coeff3 : Type := nat -> nat -> nat -> Q.

Definition upd3 (c : Coeff3) (p q j : nat) (v : Q) : Coeff3 :=
  fun p' q' j' =>
    if ((p' =? p) && (q' =? q) && (j' =? j))%nat then v else c p' q' j'.

(** Modelled from the spec: [SparseMatrix<double>] is not in [src/]; entries
    indexed by (row, column), absent entries 0, [smatMap(r, c) += v]
    additively combined. *)
Definition SparseMatrix : Type := Z -> Z -> Q.

Definition smat_add (m : SparseMatrix) (r c : Z) (v : Q) : SparseMatrix :=
  fun r' c' => if ((r' =? r) && (c' =? c))%Z then m r' c' + v else m r' c'.

(** What [Announce] prints. *)
Inductive Message :=
| AnnounceElement (ixFirst : nat)
| AnnouncePartialElement (ixFirst : nat).

(** The collaborators of [LinearRemapSE4] that are not in [src/]: the
    triangular quadrature rule of order 4, [sqrt], [CalculateFaceArea],
    [ApplyInverseMap], [SampleGLLFiniteElement] and the LAPACK solver. *)
Record Collaborators := mkCollaborators {
  TriQuadraturePoints : nat;
  TriQuadratureG : nat -> nat -> Q;
  TriQuadratureW : nat -> Q;
  sqrt : Q -> Q;
  CalculateFaceArea : Face -> NodeVector -> Q;
  ApplyInverseMap : Face -> NodeVector -> Node -> Q * Q;
  SampleGLLFiniteElement : bool -> nat -> Q -> Q -> nat -> nat -> Q;
  dposv : Blas.dposv_t
}.

(** The state that the loop over the input faces carries. *)
Record State := mkState {
  ixOverlap : nat;
  smatMap : SparseMatrix;
  announced : list Message
}.

Section Kernel.

Variable ext : Collaborators.
Variables meshInput meshOutput meshOverlap : Mesh.
Variable dataGLLNodes : DataMatrix3D Z.
Variable dataGLLJacobian : DataMatrix3D Q.
Variable fMonotone : bool.

Let nP := GetRows dataGLLNodes.
Let nodesOverlap := nodes meshOverlap.
Let nodesFirst := nodes meshInput.

(** [// Determine how many overlap Faces and triangles are present]: the
    scan from [ixOverlapTemp], with at most [fuel] faces left in
    [meshOverlap.faces]. *)
Fixpoint count_overlap_faces (fuel : nat) (ixFirst ixOverlapTemp : nat)
  (nOverlapFaces : nat) : nat :=
  match fuel with
  | O => nOverlapFaces
  | Datatypes.S fuel' =>
      if negb (nth ixOverlapTemp (vecFirstFaceIx meshOverlap) (-1)%Z
               =? Z.of_nat ixFirst)%Z
      then nOverlapFaces
      else count_overlap_faces fuel' ixFirst (ixOverlapTemp + 1)
             (nOverlapFaces + 1)
  end.

(** [// Coordinates of quadrature Node], renormalized. *)
Definition quadrature_node (node0 node1 node2 : Node) (l : nat) : Node :=
  let G := TriQuadratureG ext in
  let qx := G l 0%nat * x node0 + G l 1%nat * x node1 + G l 2%nat * x node2 in
  let qy := G l 0%nat * y node0 + G l 1%nat * y node1 + G l 2%nat * y node2 in
  let qz := G l 0%nat * z node0 + G l 1%nat * z node1 + G l 2%nat * z node2 in
  let dMag := sqrt ext (qx * qx + qy * qy + qz * qz) in
  mkNode (qx / dMag) (qy / dMag) (qz / dMag).

(** [// Check inverse map value] *)
Definition inverse_map_out_of_range (dAlpha dBeta : Q) : bool :=
  Qltb dAlpha 0 || Qltb 1 dAlpha || Qltb dBeta 0 || Qltb 1 dBeta.

(** The body of the loop over the quadrature points [l]. *)
Definition quadrature_point (faceFirst : Face) (ixOverlap j : nat)
  (node0 node1 node2 : Node) (dTriangleArea : Q) (l : nat)
  (dRemapCoeff : Coeff3) : Result Coeff3 :=
  let nodeQuadrature := quadrature_node node0 node1 node2 l in
  let ab := ApplyInverseMap ext faceFirst nodesFirst nodeQuadrature in
  let dAlpha := fst ab in
  let dBeta := snd ab in
  if inverse_map_out_of_range dAlpha dBeta then
    Err (InverseMapOutOfRange dAlpha dBeta)
  else
    let dSampleCoeff := SampleGLLFiniteElement ext fMonotone nP dAlpha dBeta in
    Ok (for_loop nP (fun p =>
          for_loop nP (fun q dRemapCoeff =>
            upd3 dRemapCoeff p q j
              (dRemapCoeff p q j
               + TriQuadratureW ext l * dTriangleArea * dSampleCoeff p q
                 / vecFaceArea meshOverlap (ixOverlap + j)%nat)))
          dRemapCoeff).

(** The triangle [k] of the fan on vertex 0 of [faceOverlap]. *)
Definition fan_triangle (faceOverlap : Face) (k : nat) : Face :=
  mkFace [face_node faceOverlap 0; face_node faceOverlap (k + 1);
          face_node faceOverlap (k + 2)].

(** The value of the inverse map at the quadrature point [l] of the
    triangle [k] of [faceOverlap], and the term that this point contributes
    to [dRemapCoeff[p][q][j]]. *)
Definition inverse_map_at (faceFirst faceOverlap : Face) (k l : nat) : Q * Q :=
  ApplyInverseMap ext faceFirst nodesFirst
    (quadrature_node
       (node_at nodesOverlap (face_node faceOverlap 0))
       (node_at nodesOverlap (face_node faceOverlap (k + 1)))
       (node_at nodesOverlap (face_node faceOverlap (k + 2))) l).

Definition quadrature_term (faceFirst faceOverlap : Face) (ixOverlap j k l : nat)
  (p q : nat) : Q :=
  TriQuadratureW ext l
  * CalculateFaceArea ext (fan_triangle faceOverlap k) nodesOverlap
  * SampleGLLFiniteElement ext fMonotone nP
      (fst (inverse_map_at faceFirst faceOverlap k l))
      (snd (inverse_map_at faceFirst faceOverlap k l)) p q
  / vecFaceArea meshOverlap (ixOverlap + j)%nat.

(** The body of the loop over the sub-triangles [k]. *)
Definition sub_triangle (faceFirst faceOverlap : Face) (ixOverlap j k : nat)
  (dRemapCoeff : Coeff3) : Result Coeff3 :=
  let node0 := node_at nodesOverlap (face_node faceOverlap 0) in
  let node1 := node_at nodesOverlap (face_node faceOverlap (k + 1)) in
  let node2 := node_at nodesOverlap (face_node faceOverlap (k + 2)) in
  let faceTri := fan_triangle faceOverlap k in
  let dTriangleArea := CalculateFaceArea ext faceTri nodesOverlap in
  for_loopM (TriQuadraturePoints ext)
    (quadrature_point faceFirst ixOverlap j node0 node1 node2 dTriangleArea)
    dRemapCoeff.

(** The body of the loop over the overlap faces [j]. *)
Definition overlap_face (faceFirst : Face) (ixOverlap j : nat)
  (dRemapCoeff : Coeff3) : Result Coeff3 :=
  let faceOverlap := face_at meshOverlap (ixOverlap + j) in
  let nOverlapTriangles := (List.length (edges faceOverlap) - 2)%nat in
  for_loopM nOverlapTriangles
    (sub_triangle faceFirst faceOverlap ixOverlap j) dRemapCoeff.

(** [// Find the local remap coefficients] *)
Definition local_coefficients (faceFirst : Face) (ixOverlap nOverlapFaces : nat)
  : Result Coeff3 :=
  for_loopM nOverlapFaces (overlap_face faceFirst ixOverlap)
    (fun _ _ _ => 0).

(** The accumulator when the loops arrive at the quadrature point [l] of
    the triangle [k] of the overlap face [j]: [Ok] when no earlier point of
    the source face has thrown. *)
Definition coefficients_before (faceFirst : Face) (ixOverlap j k l : nat)
  : Result Coeff3 :=
  let faceOverlap := face_at meshOverlap (ixOverlap + j) in
  c1 <- for_loopM j (overlap_face faceFirst ixOverlap) (fun _ _ _ => 0) ;;
  c2 <- for_loopM k (sub_triangle faceFirst faceOverlap ixOverlap j) c1 ;;
  for_loopM l
    (quadrature_point faceFirst ixOverlap j
       (node_at nodesOverlap (face_node faceOverlap 0))
       (node_at nodesOverlap (face_node faceOverlap (k + 1)))
       (node_at nodesOverlap (face_node faceOverlap (k + 2)))
       (CalculateFaceArea ext (fan_triangle faceOverlap k) nodesOverlap)) c2.

(** [vecSourceArea] and [vecTargetArea] of the element, with their
    totals. *)
Definition source_areas (ixFirst : nat) : DataVector.t * Q :=
  for_loop nP (fun p =>
    for_loop nP (fun q (st : DataVector.t * Q) =>
      (DataVector.set (fst st) (p * nP + q) (data3 dataGLLJacobian p q ixFirst),
       snd st + data3 dataGLLJacobian p q ixFirst)))
    (DataVector.Initialize (nP * nP), 0).

Definition target_areas (ixOverlap nOverlapFaces : nat) : DataVector.t * Q :=
  for_loop nOverlapFaces (fun j (st : DataVector.t * Q) =>
    (DataVector.set (fst st) j (vecFaceArea meshOverlap (ixOverlap + j)),
     snd st + vecFaceArea meshOverlap (ixOverlap + j)))
    (DataVector.Initialize nOverlapFaces, 0).

(** [dCoeff[j][p * nP + q] = dRemapCoeff[p][q][j]] and back. *)
Definition flatten (nOverlapFaces : nat) (dRemapCoeff : Coeff3) : DataMatrix.t :=
  for_loop nOverlapFaces (fun j =>
    for_loop nP (fun p =>
      for_loop nP (fun q dCoeff =>
        DataMatrix.set dCoeff j (p * nP + q) (dRemapCoeff p q j))))
    (DataMatrix.Initialize nOverlapFaces (nP * nP)).

Definition unflatten (nOverlapFaces : nat) (dCoeff : DataMatrix.t)
  (dRemapCoeff : Coeff3) : Coeff3 :=
  for_loop nOverlapFaces (fun j =>
    for_loop nP (fun p =>
      for_loop nP (fun q dRemapCoeff =>
        upd3 dRemapCoeff p q j (DataMatrix.get dCoeff j (p * nP + q)))))
    dRemapCoeff.

(** The threshold of the partial-coverage test, [1.0e-10]. *)
Definition coverage_tolerance : Q := 1 # 10000000000.

(** [// Force consistency and conservation]: the coefficients that go to
    the map, and what is announced. *)
Definition force_consistency_conservation (ixFirst ixOverlap nOverlapFaces : nat)
  (dRemapCoeff : Coeff3) : Result (Coeff3 * list Message) :=
  let vecSourceArea := fst (source_areas ixFirst) in
  let vecTargetArea := fst (target_areas ixOverlap nOverlapFaces) in
  let dTargetArea := snd (target_areas ixOverlap nOverlapFaces) in
  if Qltb coverage_tolerance
       (Qabs (dTargetArea - vecFaceArea meshInput ixFirst)) then
    Ok (dRemapCoeff, [AnnouncePartialElement ixFirst])
  else
    dCoeff <- Corrector.ForceConsistencyConservation3 (dposv ext)
                vecSourceArea vecTargetArea
                (flatten nOverlapFaces dRemapCoeff) fMonotone ;;
    Ok (unflatten nOverlapFaces dCoeff dRemapCoeff, []).

(** [// Put these remap coefficients into the SparseMatrix map] *)
Definition put_in_map (ixFirst ixOverlap nOverlapFaces : nat)
  (dRemapCoeff : Coeff3) (smatMap : SparseMatrix) : SparseMatrix :=
  for_loop nOverlapFaces (fun j smatMap =>
    let ixSecondFace :=
      nth (ixOverlap + j) (vecSecondFaceIx meshOverlap) (-1)%Z in
    for_loop nP (fun p =>
      for_loop nP (fun q smatMap =>
        let ixFirstNode := (data3 dataGLLNodes p q ixFirst - 1)%Z in
        smat_add smatMap ixSecondFace ixFirstNode
          (dRemapCoeff p q j
           * vecFaceArea meshOverlap (ixOverlap + j)
           / vecFaceArea meshOutput (Z.to_nat ixSecondFace)))) smatMap)
    smatMap.

(** The number of overlap faces that the scan finds for the input face
    [ixFirst] in the state [st]. *)
Definition overlap_faces_of (ixFirst : nat) (st : State) : nat :=
  count_overlap_faces (List.length (faces meshOverlap) - ixOverlap st)
    ixFirst (ixOverlap st) 0.

(** The total area of the overlap faces whose first face is [e]. *)
Definition overlap_area_of (e : nat) : Q :=
  sumQ (List.length (faces meshOverlap)) (fun i =>
    if (nth i (vecFirstFaceIx meshOverlap) (-1)%Z =? Z.of_nat e)%Z
    then vecFaceArea meshOverlap i else 0).

(** The body of the loop over the input faces. *)
Definition element (ixFirst : nat) (st : State) : Result State :=
  let faceFirst := face_at meshInput ixFirst in
  if negb (List.length (edges faceFirst) =? 4)%nat then Err UnsupportedElement
  else
    let announced1 :=
      if (ixFirst mod 100 =? 0)%nat
      then (announced st ++ [AnnounceElement ixFirst])%list
      else announced st in
    let nOverlapFaces :=
      count_overlap_faces (List.length (faces meshOverlap) - ixOverlap st)
        ixFirst (ixOverlap st) 0 in
    if (nOverlapFaces =? 0)%nat then
      Ok (mkState (ixOverlap st) (smatMap st) announced1)
    else
      dRemapCoeff <- local_coefficients faceFirst (ixOverlap st) nOverlapFaces ;;
      corrected <- force_consistency_conservation ixFirst (ixOverlap st)
                     nOverlapFaces dRemapCoeff ;;
      Ok (mkState (ixOverlap st + nOverlapFaces)
            (put_in_map ixFirst (ixOverlap st) nOverlapFaces (fst corrected)
               (smatMap st))
            (announced1 ++ snd corrected)%list).

(** The loop over the first [n] input faces. *)
Definition elements_upto (n : nat) (smatMap0 : SparseMatrix) : Result State :=
  for_loopM n element (mkState 0 smatMap0 []).

Definition LinearRemapSE4 (smatMap0 : SparseMatrix) : Result State :=
  elements_upto (List.length (faces meshInput)) smatMap0.

End Kernel.

End Remap.

(** ** [LinearRemapSE0] *)

Module Remap0.

Import Remap.

(** The state of the loop over the overlap faces. *)
Record State := mkState {
  ixLastFirstMeshFace : Z;
  dTotalJacobian : Q;
  smatMap : SparseMatrix
}.

Section Kernel.

Variables meshOutput meshOverlap : Mesh.
Variable dataGLLNodes : DataMatrix3D Z.
Variable dataGLLJacobian : DataMatrix3D Q.

Let nP := GetRows dataGLLNodes.

(** [// Calculate total element Jacobian] *)
Definition total_jacobian (ixCurrentFirstMeshFace : Z) : Q :=
  for_loop nP (fun p =>
    for_loop nP (fun q dTotalJacobian =>
      dTotalJacobian
      + data3 dataGLLJacobian p q (Z.to_nat ixCurrentFirstMeshFace))) 0.

(** The body of the loop over the overlap faces. *)
Definition overlap_face (i : nat) (st : State) : State :=
  let ixCurrentFirstMeshFace := nth i (vecFirstFaceIx meshOverlap) (-1)%Z in
  let ixCurrentSecondMeshFace := nth i (vecSecondFaceIx meshOverlap) (-1)%Z in
  let dSecondFaceArea :=
    vecFaceArea meshOutput (Z.to_nat ixCurrentSecondMeshFace) in
  let st :=
    if negb (ixLastFirstMeshFace st =? ixCurrentFirstMeshFace)%Z then
      mkState ixCurrentFirstMeshFace (total_jacobian ixCurrentFirstMeshFace)
        (smatMap st)
    else st in
  mkState (ixLastFirstMeshFace st) (dTotalJacobian st)
    (for_loop nP (fun p =>
       for_loop nP (fun q smatMap =>
         let ixFirstGlobal :=
           (data3 dataGLLNodes p q (Z.to_nat ixCurrentFirstMeshFace) - 1)%Z in
         smat_add smatMap ixCurrentSecondMeshFace ixFirstGlobal
           (data3 dataGLLJacobian p q (Z.to_nat ixCurrentFirstMeshFace)
            / dTotalJacobian st
            * vecFaceArea meshOverlap i
            / dSecondFaceArea)))
       (smatMap st)).

(** [dTotalJacobian] is declared without a value: [dTotalJacobian0] is
    what it holds when the loop starts. *)
Definition LinearRemapSE0 (dTotalJacobian0 : Q) (smatMap0 : SparseMatrix)
  : SparseMatrix :=
  smatMap
    (for_loop (List.length (faces meshOverlap)) overlap_face
       (mkState (-1) dTotalJacobian0 smatMap0)).

End Kernel.

End Remap0.

(** ** Sample data *)

Module Sample.

Definition vector (l : list Q) : DataVector.t :=
  DataVector.mk (List.length l) (fun k => nth k l 0).

Definition matrix (r c : nat) (l : list Q) : DataMatrix.t :=
  DataMatrix.mk r c (fun k => nth k l 0).

(** One element of order [nP = 2] cut in two overlap faces. *)
Definition vecSourceArea : DataVector.t := vector [1#4; 1#4; 1#4; 1#4].
Definition vecTargetArea : DataVector.t := vector [1#2; 1#2].

Definition dCoeff : DataMatrix.t :=
  matrix 2 4 [ 1#3; 1#2; 6#5; -1#5;
               1#10; 0; 1#2; 1#2 ].

(** Row sums 1, and each column conserves its source area. *)
Definition dCoeffFeasible : DataMatrix.t :=
  matrix 2 4 [ 1#2; 0; 1#4; 1#4;
               0; 1#2; 1#4; 1#4 ].

(** Collaborators to run the kernel with: a rule with the centroid as its
    one point, no renormalization, triangles of area 1/2, the bilinear
    basis of order 2, the solver by elimination, and the inverse map
    given. *)
Definition collaborators
  (inverse_map : Remap.Face -> Remap.NodeVector -> Remap.Node -> Q * Q)
  : Remap.Collaborators :=
  Remap.mkCollaborators
    1
    (fun _ _ => 1 # 3)
    (fun _ => 1)
    (fun _ => 1)
    (fun _ _ => 1 # 2)
    inverse_map
    (fun _ _ dAlpha dBeta p q =>
       (if (p =? 0)%nat then 1 - dAlpha else dAlpha)
       * (if (q =? 0)%nat then 1 - dBeta else dBeta))
    Blas.dposv_elim.



(** The inverse map of a unit square of the plane [z = 1] whose first
    vertex is its lower left corner. *)
Definition plane_map (face : Remap.Face) (nodes : Remap.NodeVector)
  (node : Remap.Node) : Q * Q :=
  let corner := Remap.node_at nodes (Remap.face_node face 0) in
  (Remap.x node - Remap.x corner, Remap.y node - Remap.y corner).

(** Two unit squares side by side. *)
Definition plane_nodes : Remap.NodeVector :=
  [Remap.mkNode 0 0 1; Remap.mkNode 1 0 1; Remap.mkNode 1 1 1;
   Remap.mkNode 0 1 1; Remap.mkNode 2 0 1; Remap.mkNode 2 1 1].

Definition square : Remap.Face := Remap.mkFace [0; 1; 2; 3]%nat.
Definition squareEast : Remap.Face := Remap.mkFace [1; 4; 5; 2]%nat.
Definition triangle : Remap.Face := Remap.mkFace [0; 1; 2]%nat.

(** Meshes of one quadrilateral element, of two, of the eastern one alone,
    and of one triangular element. *)
Definition meshSquare : Remap.Mesh :=
  Remap.mkMesh plane_nodes [square] (fun _ => 1) [] [].

Definition meshTwoSquares : Remap.Mesh :=
  Remap.mkMesh plane_nodes [square; squareEast] (fun _ => 1) [] [].

Definition meshEast : Remap.Mesh :=
  Remap.mkMesh plane_nodes [squareEast] (fun _ => 1) [] [].

Definition meshTriangle : Remap.Mesh :=
  Remap.mkMesh plane_nodes [triangle] (fun _ => 1 # 2) [] [].

(** Overlap meshes: of the square with itself (the whole square, and the
    triangle that is half of it), and of the two squares with the eastern
    one. *)
Definition overlapWhole : Remap.Mesh :=
  Remap.mkMesh plane_nodes [square] (fun _ => 1) [0%Z] [0%Z].

Definition overlapHalf : Remap.Mesh :=
  Remap.mkMesh plane_nodes [triangle] (fun _ => 1 # 2) [0%Z] [0%Z].

Definition overlapEast : Remap.Mesh :=
  Remap.mkMesh plane_nodes [squareEast] (fun _ => 1) [1%Z] [0%Z].

Definition dataGLLNodes : Remap.DataMatrix3D Z :=
  Remap.mkDataMatrix3D Z 2 (fun p q _ => Z.of_nat (p * 2 + q + 1)).

Definition dataGLLJacobian : Remap.DataMatrix3D Q :=
  Remap.mkDataMatrix3D Q 2 (fun _ _ _ => 1 # 4).

Definition smatEmpty : Remap.SparseMatrix := fun _ _ => 0.

End Sample.

(** ** The driver, [gecore2.cpp] *)

Module Driver.

Local Open Scope string_scope.

(** *** [ParseVariableList] *)

(** The loop state: [iVarBegin], [iVarCurrent] and the vector being
    filled. *)
Record ParseState := mkParseState {
  iVarBegin : nat;
  iVarCurrent : nat;
  vecVariableStrings : list string
}.

(** [strVariables[iVarCurrent] == c] *)
Definition char_is (strVariables : string) (i : nat) (c : ascii) : bool :=
  match String.get i strVariables with
  | Some c' => Ascii.eqb c' c
  | None => false
  end.

(** The condition of the outer [if]. *)
Definition at_delimiter (strVariables : string) (i : nat) : bool :=
  (String.length strVariables <=? i)%nat
  || char_is strVariables i ","
  || char_is strVariables i " ".

(** One iteration of [for (;;)]: [inr] is [break], [inl] the state with
    which the next iteration starts ([continue] included). *)
Definition ParseVariableList_iter (strVariables : string) (st : ParseState)
  : ParseState + list string :=
  let b := iVarBegin st in
  let c := iVarCurrent st in
  if at_delimiter strVariables c then
    if (c =? b)%nat then
      if (String.length strVariables <=? c)%nat then
        inr (vecVariableStrings st)
      else
        inl st
    else
      inl (mkParseState (c + 1) (c + 1)
             (vecVariableStrings st ++ [String.substring b (c - b) strVariables]))
  else
    inl (mkParseState b (c + 1) (vecVariableStrings st)).

(** The loop, run for at most [fuel] iterations; [None] when the loop has
    not reached its [break] by then. *)
Fixpoint ParseVariableList_loop (fuel : nat) (strVariables : string)
  (st : ParseState) : option (list string) :=
  match fuel with
  | O => None
  | Datatypes.S fuel' =>
      match ParseVariableList_iter strVariables st with
      | inr v => Some v
      | inl st' => ParseVariableList_loop fuel' strVariables st'
      end
  end.

Definition ParseVariableList (fuel : nat) (strVariables : string)
  : option (list string) :=
  ParseVariableList_loop fuel strVariables (mkParseState 0 0 []).

(** *** The orientation check of the overlap mesh in [main] *)

Local Open Scope Z_scope.

Definition INT_MAX : Z := 2 ^ 31 - 1.

(** Comparing an [int] with a [size_t] converts the [int] to 64 bits
    unsigned. *)
Definition size_t_of_int (i : Z) : Z := i mod 2 ^ 64.

(** The part of [Mesh] the check reads and writes: the number of faces and
    the two provenance arrays. *)
Record OverlapIx := mkOverlapIx {
  vecFirstFaceIx : list Z;
  vecSecondFaceIx : list Z
}.

(** Modelled from the spec: [Mesh::ExchangeFirstAndSecondMesh] is not in
    [src/]; the spec says that the driver swaps the two provenance
    arrays. *)
Definition ExchangeFirstAndSecondMesh (m : OverlapIx) : OverlapIx :=
  mkOverlapIx (vecSecondFaceIx m) (vecFirstFaceIx m).

(** The loop computing [ixFirstFaceMax]. *)
Definition ixFirstFaceMax (first : list Z) : Z :=
  fold_left (fun m x => if x + 1 >? m then x + 1 else m) first (-1).

Inductive OverlapCheck :=
| PrimaryCorrespondence (m : OverlapIx)
| ReverseCorrespondence (m : OverlapIx)
| InvalidOverlapMesh (ix : Z).

Definition verify_overlap_order (nInputFaces nOutputFaces : nat)
  (meshOverlap : OverlapIx) : OverlapCheck :=
  let ix := ixFirstFaceMax (vecFirstFaceIx meshOverlap) in
  if size_t_of_int ix =? Z.of_nat nInputFaces then
    PrimaryCorrespondence meshOverlap
  else if size_t_of_int ix =? Z.of_nat nOutputFaces then
    ReverseCorrespondence (ExchangeFirstAndSecondMesh meshOverlap)
  else
    InvalidOverlapMesh ix.

End Driver.

(** ** The checks of the command line in [main] *)

Module CommandLine.

Import Driver.
Local Open Scope string_scope.

(** The exceptions of the checks of the command line in [main]:
    "in_data specified without out_data", "out_data specified without
    in_data" and "No variables specified". *)
Inductive ArgumentError :=
| InDataWithoutOutData
| OutDataWithoutInData
| NoVariablesSpecified.

(** [// Check command line parameters] and [// Parse variable list]: the
    error thrown or the variables, and [None] when [ParseVariableList] has
    not returned within [fuel] iterations. *)
Definition check_command_line (fuel : nat)
  (strInputData strOutputData strVariables : string)
  : option (ArgumentError + list string) :=
  if negb (strInputData =? "") && (strOutputData =? "") then
    Some (inl InDataWithoutOutData)
  else if (strInputData =? "") && negb (strOutputData =? "") then
    Some (inl OutDataWithoutInData)
  else
    match ParseVariableList fuel strVariables with
    | None => None
    | Some vecVariableStrings =>
        if negb (strInputData =? "")
           && (List.length vecVariableStrings =? 0)%nat
        then Some (inl NoVariablesSpecified)
        else Some (inr vecVariableStrings)
    end.

End CommandLine.

(** * Verification *)

(** ** Finite sums and loops *)

Module SumFacts.

Lemma sumQ_ext (n : nat) (f g : nat -> Q) :
  (forall k, (k < n)%nat -> f k == g k) -> sumQ n f == sumQ n g.
Proof.
  induction n as [|n IH]; intro H; simpl.
  - reflexivity.
  - rewrite IH, (H n) by (intros; try apply H; lia). reflexivity.
Qed.

Lemma sumQ_zero (n : nat) (f : nat -> Q) :
  (forall k, (k < n)%nat -> f k == 0) -> sumQ n f == 0.
Proof.
  induction n as [|n IH]; intro H; simpl.
  - reflexivity.
  - rewrite IH, (H n) by (intros; try apply H; lia). ring.
Qed.

Lemma sumQ_plus (n : nat) (f g : nat -> Q) :
  sumQ n (fun k => f k + g k) == sumQ n f + sumQ n g.
Proof.
  induction n as [|n IH]; simpl.
  - ring.
  - rewrite IH. ring.
Qed.

Lemma sumQ_minus (n : nat) (f g : nat -> Q) :
  sumQ n (fun k => f k - g k) == sumQ n f - sumQ n g.
Proof.
  induction n as [|n IH]; simpl.
  - ring.
  - rewrite IH. ring.
Qed.

Lemma sumQ_scal (n : nat) (c : Q) (f : nat -> Q) :
  sumQ n (fun k => c * f k) == c * sumQ n f.
Proof.
  induction n as [|n IH]; simpl.
  - ring.
  - rewrite IH. ring.
Qed.

Lemma sumQ_const (n : nat) (c : Q) :
  sumQ n (fun _ => c) == Qnat n * c.
Proof.
  induction n as [|n IH].
  - simpl. unfold Qnat. simpl. ring.
  - simpl sumQ. rewrite IH. unfold Qnat.
    rewrite Nat2Z.inj_succ. unfold Z.succ. rewrite inject_Z_plus. ring.
Qed.

Lemma sumQ_single (n : nat) (f : nat -> Q) (k0 : nat) :
  (k0 < n)%nat ->
  (forall k, (k < n)%nat -> k <> k0 -> f k == 0) ->
  sumQ n f == f k0.
Proof.
  induction n as [|n IH]; intros Hlt H.
  - lia.
  - simpl. destruct (Nat.eq_dec k0 n) as [-> | Hne].
    + rewrite sumQ_zero by (intros; apply H; lia). ring.
    + rewrite IH by (try lia; intros; apply H; lia).
      rewrite (H n) by lia. ring.
Qed.

Lemma sumQ_app (a b : nat) (f : nat -> Q) :
  sumQ (a + b) f == sumQ a f + sumQ b (fun k => f (a + k)%nat).
Proof.
  induction b as [|b IH].
  - rewrite Nat.add_0_r. simpl. ring.
  - rewrite Nat.add_succ_r. simpl. rewrite IH. ring.
Qed.

Lemma sumQ_flat (R N : nat) (f : nat -> Q) :
  sumQ (R * N) f == sumQ R (fun i => sumQ N (fun j => f (i * N + j)%nat)).
Proof.
  induction R as [|R IH].
  - reflexivity.
  - replace (Datatypes.S R * N)%nat with (R * N + N)%nat by lia.
    rewrite sumQ_app, IH. simpl. reflexivity.
Qed.

Lemma sumQ_swap (R N : nat) (f : nat -> nat -> Q) :
  sumQ R (fun i => sumQ N (fun j => f i j))
  == sumQ N (fun j => sumQ R (fun i => f i j)).
Proof.
  induction R as [|R IH].
  - simpl. symmetry. apply sumQ_zero. reflexivity.
  - simpl. rewrite IH. symmetry. apply sumQ_plus.
Qed.

Lemma sumQ_nonneg (n : nat) (f : nat -> Q) :
  (forall k, (k < n)%nat -> 0 <= f k) -> 0 <= sumQ n f.
Proof.
  induction n as [|n IH]; intro H; simpl.
  - apply Qle_refl.
  - assert (0 <= sumQ n f) by (apply IH; intros; apply H; lia).
    assert (0 <= f n) by (apply H; lia). lra.
Qed.

Lemma sumQ_nonneg_zero (n : nat) (f : nat -> Q) :
  (forall k, (k < n)%nat -> 0 <= f k) ->
  sumQ n f == 0 ->
  forall k, (k < n)%nat -> f k == 0.
Proof.
  induction n as [|n IH]; intros Hpos Hsum k Hk.
  - lia.
  - simpl in Hsum.
    assert (H1 : 0 <= sumQ n f) by (apply sumQ_nonneg; intros; apply Hpos; lia).
    assert (H2 : 0 <= f n) by (apply Hpos; lia).
    destruct (Nat.eq_dec k n) as [-> | Hne].
    + lra.
    + apply IH; [intros; apply Hpos; lia | lra | lia].
Qed.

(** A loop that adds a term at each iteration is a sum. *)
Lemma for_loop_sum (n : nat) (f : nat -> Q) :
  for_loop n (fun i acc => acc + f i) 0 = sumQ n f.
Proof.
  induction n as [|n IH]; simpl.
  - reflexivity.
  - rewrite IH. reflexivity.
Qed.

Lemma Qltb_lt (x y : Q) : Qltb x y = true <-> x < y.
Proof.
  unfold Qltb. rewrite negb_true_iff. split.
  - intro H. apply Qnot_le_lt. intro Hle. apply Qle_bool_iff in Hle. congruence.
  - intro H. destruct (Qle_bool y x) eqn:E; [|reflexivity].
    apply Qle_bool_iff in E. apply Qlt_not_le in H. contradiction.
Qed.

Lemma Qltb_ge (x y : Q) : Qltb x y = false <-> y <= x.
Proof.
  unfold Qltb. rewrite negb_false_iff. apply Qle_bool_iff.
Qed.

(** Linearity of a double sum. *)
Lemma sumQ2_lin (nR nC : nat) (A B D : nat -> nat -> Q) :
  sumQ nR (fun i => sumQ nC (fun j => A i j + B i j - 2 * D i j))
  == sumQ nR (fun i => sumQ nC (fun j => A i j))
     + sumQ nR (fun i => sumQ nC (fun j => B i j))
     - 2 * sumQ nR (fun i => sumQ nC (fun j => D i j)).
Proof.
  assert (H1 : forall n (f g h : nat -> Q),
            sumQ n (fun j => f j + g j - 2 * h j)
            == sumQ n f + sumQ n g - 2 * sumQ n h).
  { intros n f g h. induction n as [|n IH]; cbn [sumQ]; [ring | rewrite IH; ring]. }
  induction nR as [|nR IH]; cbn [sumQ].
  - ring.
  - rewrite IH.
    rewrite (H1 nC (fun j => A nR j) (fun j => B nR j) (fun j => D nR j)).
    ring.
Qed.

End SumFacts.

(** ** Arrays, BLAS *)

Module ArrayFacts.

Ltac nat_cases :=
  repeat match goal with
  | |- context [Nat.eqb ?a ?b] => destruct (Nat.eqb_spec a b)
  | |- context [Nat.ltb ?a ?b] => destruct (Nat.ltb_spec a b)
  | |- context [Nat.leb ?a ?b] => destruct (Nat.leb_spec a b)
  end; simpl; try subst; try reflexivity; try lia.

(** Induction on the number of iterations of a loop. *)
Lemma for_loop_ind {S : Type} (P : nat -> S -> Prop) (body : nat -> S -> S)
  (s0 : S) (n : nat) :
  P 0%nat s0 ->
  (forall i s, (i < n)%nat -> P i s -> P (Datatypes.S i) (body i s)) ->
  P n (for_loop n body s0).
Proof.
  intros H0 Hstep. induction n as [|n IH]; simpl.
  - exact H0.
  - apply Hstep; [lia|]. apply IH. intros i s Hi. apply Hstep. lia.
Qed.

Lemma upd_same {A : Type} (f : nat -> A) (k : nat) (v : A) : upd f k v k = v.
Proof. unfold upd. rewrite Nat.eqb_refl. reflexivity. Qed.

Lemma upd_other {A : Type} (f : nat -> A) (k k' : nat) (v : A) :
  k' <> k -> upd f k v k' = f k'.
Proof.
  intro H. unfold upd. destruct (Nat.eqb_spec k' k); [contradiction | reflexivity].
Qed.

(** Row-major indices of two cells coincide only for the same cell. *)
Lemma flat_index_inj (N i j i' j' : nat) :
  (j < N)%nat -> (j' < N)%nat -> (i * N + j = i' * N + j')%nat ->
  i = i' /\ j = j'.
Proof.
  intros Hj Hj' H.
  assert (i = i').
  { destruct (Nat.lt_trichotomy i i') as [Hlt | [Heq | Hgt]]; [exfalso | exact Heq | exfalso].
    - assert ((i + 1) * N <= i' * N)%nat by (apply Nat.mul_le_mono_r; lia). lia.
    - assert ((i' + 1) * N <= i * N)%nat by (apply Nat.mul_le_mono_r; lia). lia. }
  subst i'. split; [reflexivity | lia].
Qed.

Lemma get_set (M : DataMatrix.t) (r c0 k c : nat) (v : Q) :
  (c < DataMatrix.GetColumns M)%nat -> (c0 < DataMatrix.GetColumns M)%nat ->
  DataMatrix.get (DataMatrix.set M r c0 v) k c
  = if ((k =? r) && (c =? c0))%nat then v else DataMatrix.get M k c.
Proof.
  intros Hc Hc0. unfold DataMatrix.get, DataMatrix.set. simpl.
  destruct (Nat.eqb_spec k r) as [-> | Hk]; simpl.
  - destruct (Nat.eqb_spec c c0) as [-> | Hcc].
    + apply upd_same.
    + apply upd_other. lia.
  - apply upd_other. intro H.
    destruct (flat_index_inj _ _ _ _ _ Hc Hc0 H). contradiction.
Qed.

Lemma get_set_same (M : DataMatrix.t) (r c : nat) (v : Q) :
  DataMatrix.get (DataMatrix.set M r c v) r c = v.
Proof. unfold DataMatrix.get, DataMatrix.set. simpl. apply upd_same. Qed.

(** [dgemv] with unit strides, entry by entry. *)
Lemma dgemv_n (m n : nat) (alpha beta : Q) (a x y : nat -> Q) (lda r : nat) :
  Blas.dgemv "n" m n alpha a lda x 1 beta y 1 r
  == if (r <? m)%nat
     then alpha * sumQ n (fun c => a (r + c * lda)%nat * x c) + beta * y r
     else y r.
Proof.
  unfold Blas.dgemv. simpl (Ascii.eqb _ _). cbv iota.
  induction m as [|m IH].
  - simpl. reflexivity.
  - simpl for_loop. unfold upd at 1. rewrite Nat.mul_1_r.
    destruct (Nat.eqb_spec r m) as [-> | Hne].
    + destruct (Nat.ltb_spec m (Datatypes.S m)); [|lia].
      apply Qplus_comp; [|reflexivity]. apply Qmult_comp; [reflexivity|].
      apply SumFacts.sumQ_ext. intros k _. rewrite Nat.mul_1_r. reflexivity.
    + rewrite IH.
      destruct (Nat.ltb_spec r m); destruct (Nat.ltb_spec r (Datatypes.S m));
        try lia; reflexivity.
Qed.

Lemma dgemv_t (m n : nat) (alpha beta : Q) (a x y : nat -> Q) (lda c : nat) :
  Blas.dgemv "t" m n alpha a lda x 1 beta y 1 c
  == if (c <? n)%nat
     then alpha * sumQ m (fun r => a (r + c * lda)%nat * x r) + beta * y c
     else y c.
Proof.
  unfold Blas.dgemv. simpl (Ascii.eqb _ _). cbv iota.
  induction n as [|n IH].
  - simpl. reflexivity.
  - simpl for_loop. unfold upd at 1. rewrite Nat.mul_1_r.
    destruct (Nat.eqb_spec c n) as [-> | Hne].
    + destruct (Nat.ltb_spec n (Datatypes.S n)); [|lia].
      apply Qplus_comp; [|reflexivity]. apply Qmult_comp; [reflexivity|].
      apply SumFacts.sumQ_ext. intros k _. rewrite Nat.mul_1_r. reflexivity.
    + rewrite IH.
      destruct (Nat.ltb_spec c n); destruct (Nat.ltb_spec c (Datatypes.S n));
        try lia; reflexivity.
Qed.

(** The solver that checks its residual solves the system whenever it
    reports [info = 0]. *)
Lemma dposv_elim_solves : Blas.dposv_solves Blas.dposv_elim.
Proof.
  intros n a lda b ldb x H r Hr. unfold Blas.dposv_elim in H.
  match type of H with (if ?t then _ else _) = _ => destruct t eqn:Hchk end;
    [|discriminate].
  inversion H; subst x; clear H.
  rewrite forallb_forall in Hchk.
  apply Qeq_bool_iff. apply Hchk. apply in_seq. lia.
Qed.

End ArrayFacts.

(** ** The corrector *)

Module CorrectorFacts.

Import Corrector ArrayFacts SumFacts.

Section Loops.

Variables vecSourceArea vecTargetArea : DataVector.t.
Variable dCoeff : DataMatrix.t.

Local Abbreviation R := (DataMatrix.GetRows dCoeff).
Local Abbreviation N := (DataMatrix.GetColumns dCoeff).

(** The loop "RHS" copies the coefficients, row after row, to the head of
    [dRHS]. *)
Lemma build_RHS_spec (st0 : Constraints) :
  ix st0 = 0%nat ->
  ix (build_RHS dCoeff st0) = (R * N)%nat /\
  dC (build_RHS dCoeff st0) = dC st0 /\
  forall k,
    DataVector.data (dRHS (build_RHS dCoeff st0)) k
    = if (k <? R * N)%nat then DataMatrix.data dCoeff k
      else DataVector.data (dRHS st0) k.
Proof.
  intro H0. unfold build_RHS.
  apply (for_loop_ind (fun n st =>
    ix st = (n * N)%nat /\ dC st = dC st0 /\
    forall k, DataVector.data (dRHS st) k
              = if (k <? n * N)%nat then DataMatrix.data dCoeff k
                else DataVector.data (dRHS st0) k)).
  - simpl. split; [exact H0|]. split; [reflexivity|]. intro k. reflexivity.
  - intros i s Hi (H1 & H2 & H3).
    assert (Hrow :
      let s' := for_loop N (fun j st =>
        mkConstraints (dC st)
          (DataVector.set (dRHS st) (ix st) (DataMatrix.get dCoeff i j))
          (ix st + 1)) s in
      ix s' = (i * N + N)%nat /\ dC s' = dC st0 /\
      forall k, DataVector.data (dRHS s') k
                = if (k <? i * N + N)%nat then DataMatrix.data dCoeff k
                  else DataVector.data (dRHS st0) k).
    { apply (for_loop_ind (fun j st =>
        ix st = (i * N + j)%nat /\ dC st = dC st0 /\
        forall k, DataVector.data (dRHS st) k
                  = if (k <? i * N + j)%nat then DataMatrix.data dCoeff k
                    else DataVector.data (dRHS st0) k)).
      - rewrite Nat.add_0_r. auto.
      - intros j s1 Hj (G1 & G2 & G3). simpl. split; [lia|]. split; [exact G2|].
        intro k. unfold upd. rewrite G3, G1. unfold DataMatrix.get.
        nat_cases. }
    replace (Datatypes.S i * N)%nat with (i * N + N)%nat by lia.
    exact Hrow.
Qed.

(** The loop "Consistency": column [i] of [dC] gets a 1 in the rows of the
    coefficients of row [i], and the right-hand side a 1. *)
Lemma build_consistency_spec (st0 : Constraints) :
  ix st0 = 0%nat ->
  (R <= DataMatrix.GetColumns (dC st0))%nat ->
  let st := build_consistency dCoeff st0 in
  ix st = R /\
  DataMatrix.GetColumns (dC st) = DataMatrix.GetColumns (dC st0) /\
  (forall k c, (c < DataMatrix.GetColumns (dC st0))%nat ->
     DataMatrix.get (dC st) k c
     = if ((c <? R) && (c * N <=? k) && (k <? c * N + N))%nat then 1
       else DataMatrix.get (dC st0) k c) /\
  (forall k,
     DataVector.data (dRHS st) k
     = if ((R * N <=? k) && (k <? R * N + R))%nat then 1
       else DataVector.data (dRHS st0) k).
Proof.
  intros H0 Hcols. unfold build_consistency.
  apply (for_loop_ind (fun n st =>
    ix st = n /\
    DataMatrix.GetColumns (dC st) = DataMatrix.GetColumns (dC st0) /\
    (forall k c, (c < DataMatrix.GetColumns (dC st0))%nat ->
       DataMatrix.get (dC st) k c
       = if ((c <? n) && (c * N <=? k) && (k <? c * N + N))%nat then 1
         else DataMatrix.get (dC st0) k c) /\
    (forall k,
       DataVector.data (dRHS st) k
       = if ((R * N <=? k) && (k <? R * N + n))%nat then 1
         else DataVector.data (dRHS st0) k))).
  - split; [exact H0|]. split; [reflexivity|]. split; intros; nat_cases.
  - intros i s Hi (H1 & H2 & H3 & H4).
    assert (Hrow :
      let M := for_loop N (fun j dC' =>
        DataMatrix.set dC' (i * N + j) (ix s) 1) (dC s) in
      DataMatrix.GetColumns M = DataMatrix.GetColumns (dC st0) /\
      forall k c, (c < DataMatrix.GetColumns (dC st0))%nat ->
        DataMatrix.get M k c
        = if ((c =? i) && (i * N <=? k) && (k <? i * N + N))%nat then 1
          else DataMatrix.get (dC s) k c).
    { apply (for_loop_ind (fun j M =>
        DataMatrix.GetColumns M = DataMatrix.GetColumns (dC st0) /\
        forall k c, (c < DataMatrix.GetColumns (dC st0))%nat ->
          DataMatrix.get M k c
          = if ((c =? i) && (i * N <=? k) && (k <? i * N + j))%nat then 1
            else DataMatrix.get (dC s) k c)).
      - split; [exact H2|]. intros. nat_cases.
      - intros j M Hj (G1 & G2). split; [exact G1|].
        intros k c Hc. rewrite get_set by lia. rewrite G2 by exact Hc.
        rewrite H1. nat_cases. }
    destruct Hrow as (G1 & G2). simpl.
    split; [|split; [|split]].
    + lia.
    + exact G1.
    + intros k c Hc. rewrite G2 by exact Hc. rewrite H3 by exact Hc.
      nat_cases.
    + intro k. unfold upd. rewrite H4, H1. nat_cases.
Qed.

(** The loop "Conservation": column [R + j] of [dC] gets the target area of
    row [i] in the row of the coefficient [(i, j)], and the right-hand side
    the source area [j]. *)
Lemma build_conservation_spec (st0 : Constraints) :
  ix st0 = R ->
  (R + (N - 1) <= DataMatrix.GetColumns (dC st0))%nat ->
  let st := build_conservation vecSourceArea vecTargetArea dCoeff st0 in
  ix st = (R + (N - 1))%nat /\
  DataMatrix.GetColumns (dC st) = DataMatrix.GetColumns (dC st0) /\
  (forall i j c, (j < N)%nat -> (c < DataMatrix.GetColumns (dC st0))%nat ->
     DataMatrix.get (dC st) (i * N + j) c
     = if ((R <=? c) && (c <? R + (N - 1)) && (j =? c - R) && (i <? R))%nat
       then DataVector.get vecTargetArea i
       else DataMatrix.get (dC st0) (i * N + j) c) /\
  (forall k,
     DataVector.data (dRHS st) k
     = if ((R * N + R <=? k) && (k <? R * N + R + (N - 1)))%nat
       then DataVector.get vecSourceArea (k - (R * N + R))
       else DataVector.data (dRHS st0) k).
Proof.
  intros H0 Hcols. unfold build_conservation.
  apply (for_loop_ind (fun n st =>
    ix st = (R + n)%nat /\
    DataMatrix.GetColumns (dC st) = DataMatrix.GetColumns (dC st0) /\
    (forall i j c, (j < N)%nat -> (c < DataMatrix.GetColumns (dC st0))%nat ->
       DataMatrix.get (dC st) (i * N + j) c
       = if ((R <=? c) && (c <? R + n) && (j =? c - R) && (i <? R))%nat
         then DataVector.get vecTargetArea i
         else DataMatrix.get (dC st0) (i * N + j) c) /\
    (forall k,
       DataVector.data (dRHS st) k
       = if ((R * N + R <=? k) && (k <? R * N + R + n))%nat
         then DataVector.get vecSourceArea (k - (R * N + R))
         else DataVector.data (dRHS st0) k))).
  - split; [lia|]. split; [reflexivity|]. split; intros; nat_cases.
  - intros j0 s Hj0 (H1 & H2 & H3 & H4).
    assert (Hcol :
      let M := for_loop R (fun i dC' =>
        DataMatrix.set dC' (i * N + j0) (ix s)
          (DataVector.get vecTargetArea i)) (dC s) in
      DataMatrix.GetColumns M = DataMatrix.GetColumns (dC st0) /\
      forall i j c, (j < N)%nat -> (c < DataMatrix.GetColumns (dC st0))%nat ->
        DataMatrix.get M (i * N + j) c
        = if ((c =? R + j0) && (j =? j0) && (i <? R))%nat
          then DataVector.get vecTargetArea i
          else DataMatrix.get (dC s) (i * N + j) c).
    { apply (for_loop_ind (fun m M =>
        DataMatrix.GetColumns M = DataMatrix.GetColumns (dC st0) /\
        forall i j c, (j < N)%nat -> (c < DataMatrix.GetColumns (dC st0))%nat ->
          DataMatrix.get M (i * N + j) c
          = if ((c =? R + j0) && (j =? j0) && (i <? m))%nat
            then DataVector.get vecTargetArea i
            else DataMatrix.get (dC s) (i * N + j) c)).
      - split; [exact H2|]. intros. nat_cases.
      - intros m M Hm (G1 & G2). split; [exact G1|].
        intros i j c Hj Hc. rewrite get_set by lia.
        rewrite G2 by assumption. rewrite H1.
        destruct (Nat.eqb_spec (i * N + j) (m * N + j0)) as [e | ne].
        + apply flat_index_inj in e as [-> ->]; [|lia|lia]. nat_cases.
        + assert (i <> m \/ j <> j0) by
            (destruct (Nat.eq_dec i m); [right; intro; subst; apply ne; reflexivity | left; assumption]).
          nat_cases. }
    destruct Hcol as (G1 & G2). simpl.
    split; [|split; [|split]].
    + lia.
    + exact G1.
    + intros i j c Hj Hc. rewrite G2 by assumption. rewrite H3 by assumption.
      nat_cases.
    + intro k. unfold upd. rewrite H4, H1. nat_cases.
      f_equal. lia.
Qed.

Lemma calc_dP_sum :
  calc_dP vecTargetArea dCoeff
  = sumQ R (fun i => DataVector.get vecTargetArea i * DataVector.get vecTargetArea i).
Proof. unfold calc_dP. apply for_loop_sum. Qed.

(** The Schur matrix: [N] on the diagonal of the consistency block, the
    target areas in the off-diagonal blocks, [dP] on the diagonal of the
    conservation block. *)
Lemma build_CCt_spec (dP : Q) (dCCt0 : DataMatrix.t) :
  (R + (N - 1) <= DataMatrix.GetColumns dCCt0)%nat ->
  DataMatrix.GetColumns (build_CCt vecTargetArea dCoeff dP dCCt0)
  = DataMatrix.GetColumns dCCt0 /\
  forall r c, (c < DataMatrix.GetColumns dCCt0)%nat ->
    (r < DataMatrix.GetColumns dCCt0)%nat ->
    DataMatrix.get (build_CCt vecTargetArea dCoeff dP dCCt0) r c
    = if (r <? R)%nat then
        if (c <? R)%nat then
          if (c =? r)%nat then Qnat N else DataMatrix.get dCCt0 r c
        else if (c <? R + (N - 1))%nat then DataVector.get vecTargetArea r
        else DataMatrix.get dCCt0 r c
      else if (r <? R + (N - 1))%nat then
        if (c <? R)%nat then DataVector.get vecTargetArea c
        else if (c =? r)%nat then dP else DataMatrix.get dCCt0 r c
      else DataMatrix.get dCCt0 r c.
Proof.
  intros Hcols.
  assert (Hfirst :
    let M := for_loop R (fun i dCCt =>
      let dCCt := DataMatrix.set dCCt i i (Qnat N) in
      for_loop (N - 1) (fun j dCCt =>
        let dCCt :=
          DataMatrix.set dCCt i (R + j) (DataVector.get vecTargetArea i) in
        DataMatrix.set dCCt (R + j) i (DataVector.get vecTargetArea i))
        dCCt) dCCt0 in
    DataMatrix.GetColumns M = DataMatrix.GetColumns dCCt0 /\
    forall r c, (c < DataMatrix.GetColumns dCCt0)%nat ->
      DataMatrix.get M r c
      = if ((r <? R) && (c =? r))%nat then Qnat N
        else if ((r <? R) && (R <=? c) && (c <? R + (N - 1)))%nat
          then DataVector.get vecTargetArea r
        else if ((c <? R) && (R <=? r) && (r <? R + (N - 1)))%nat
          then DataVector.get vecTargetArea c
        else DataMatrix.get dCCt0 r c).
  { apply (for_loop_ind (fun n M =>
      DataMatrix.GetColumns M = DataMatrix.GetColumns dCCt0 /\
      forall r c, (c < DataMatrix.GetColumns dCCt0)%nat ->
        DataMatrix.get M r c
        = if ((r <? n) && (c =? r))%nat then Qnat N
          else if ((r <? n) && (R <=? c) && (c <? R + (N - 1)))%nat
            then DataVector.get vecTargetArea r
          else if ((c <? n) && (R <=? r) && (r <? R + (N - 1)))%nat
            then DataVector.get vecTargetArea c
          else DataMatrix.get dCCt0 r c)).
    - split; [reflexivity|]. intros. nat_cases.
    - intros i M Hi (H1 & H2). cbv zeta.
      assert (Hrow :
        let M' := for_loop (N - 1) (fun j dCCt =>
          let dCCt :=
            DataMatrix.set dCCt i (R + j) (DataVector.get vecTargetArea i) in
          DataMatrix.set dCCt (R + j) i (DataVector.get vecTargetArea i))
          (DataMatrix.set M i i (Qnat N)) in
        DataMatrix.GetColumns M' = DataMatrix.GetColumns dCCt0 /\
        forall r c, (c < DataMatrix.GetColumns dCCt0)%nat ->
          DataMatrix.get M' r c
          = if ((r =? i) && (R <=? c) && (c <? R + (N - 1)))%nat
              then DataVector.get vecTargetArea i
            else if ((c =? i) && (R <=? r) && (r <? R + (N - 1)))%nat
              then DataVector.get vecTargetArea i
            else DataMatrix.get (DataMatrix.set M i i (Qnat N)) r c).
      { apply (for_loop_ind (fun m M' =>
          DataMatrix.GetColumns M' = DataMatrix.GetColumns dCCt0 /\
          forall r c, (c < DataMatrix.GetColumns dCCt0)%nat ->
            DataMatrix.get M' r c
            = if ((r =? i) && (R <=? c) && (c <? R + m))%nat
                then DataVector.get vecTargetArea i
              else if ((c =? i) && (R <=? r) && (r <? R + m))%nat
                then DataVector.get vecTargetArea i
              else DataMatrix.get (DataMatrix.set M i i (Qnat N)) r c)).
        - split; [exact H1|]. intros. nat_cases.
        - intros j M' Hj (G1 & G2). cbv zeta. split; [exact G1|].
          intros r c Hc.
          rewrite get_set by (simpl; lia).
          rewrite get_set by lia.
          rewrite G2 by exact Hc. nat_cases. }
      destruct Hrow as (G1 & G2). cbv zeta. split; [exact G1|].
      intros r c Hc. rewrite G2 by exact Hc.
      rewrite get_set by lia. rewrite H2 by exact Hc. nat_cases. }
  destruct Hfirst as (F1 & F2).
  unfold build_CCt.
  assert (Hsecond :
    let M2 := for_loop (N - 1) (fun i dCCt =>
      let ix := (R + i)%nat in DataMatrix.set dCCt ix ix dP)
      (for_loop R (fun i dCCt =>
        let dCCt := DataMatrix.set dCCt i i (Qnat N) in
        for_loop (N - 1) (fun j dCCt =>
          let dCCt :=
            DataMatrix.set dCCt i (R + j) (DataVector.get vecTargetArea i) in
          DataMatrix.set dCCt (R + j) i (DataVector.get vecTargetArea i))
          dCCt) dCCt0) in
    DataMatrix.GetColumns M2 = DataMatrix.GetColumns dCCt0 /\
    forall r c, (c < DataMatrix.GetColumns dCCt0)%nat ->
      DataMatrix.get M2 r c
      = if ((c =? r) && (R <=? r) && (r <? R + (N - 1)))%nat then dP
        else DataMatrix.get
               (for_loop R (fun i dCCt =>
                 let dCCt := DataMatrix.set dCCt i i (Qnat N) in
                 for_loop (N - 1) (fun j dCCt =>
                   let dCCt :=
                     DataMatrix.set dCCt i (R + j) (DataVector.get vecTargetArea i) in
                   DataMatrix.set dCCt (R + j) i (DataVector.get vecTargetArea i))
                   dCCt) dCCt0) r c).
  { apply (for_loop_ind (fun n M2 =>
      DataMatrix.GetColumns M2 = DataMatrix.GetColumns dCCt0 /\
      forall r c, (c < DataMatrix.GetColumns dCCt0)%nat ->
        DataMatrix.get M2 r c
        = if ((c =? r) && (R <=? r) && (r <? R + n))%nat then dP
          else DataMatrix.get _ r c)).
    - split; [exact F1|]. intros. nat_cases.
    - intros i M2 Hi (G1 & G2). cbv zeta. split; [exact G1|].
      intros r' c' Hc'. rewrite get_set by lia. rewrite G2 by exact Hc'.
      nat_cases. }
  destruct Hsecond as (S1 & S2). cbv zeta in S1, S2 |- *.
  split; [exact S1|].
  intros r c Hc Hr.
  rewrite S2 by exact Hc. rewrite F2 by exact Hc. nat_cases.
Qed.

(** The loop "Store coefficients" reads [dRHS] row after row. *)
Lemma store_coefficients_spec (dRHS : DataVector.t) :
  let M := store_coefficients dCoeff dRHS dCoeff in
  DataMatrix.GetRows M = R /\
  DataMatrix.GetColumns M = N /\
  forall i j, (i < R)%nat -> (j < N)%nat ->
    DataMatrix.get M i j = DataVector.data dRHS (i * N + j).
Proof.
  unfold store_coefficients.
  assert (H :
    let st := for_loop R (fun i =>
      for_loop N (fun j (st : DataMatrix.t * nat) =>
        (DataMatrix.set (fst st) i j (DataVector.get dRHS (snd st)),
         (snd st + 1)%nat))) (dCoeff, 0%nat) in
    snd st = (R * N)%nat /\
    DataMatrix.GetRows (fst st) = R /\
    DataMatrix.GetColumns (fst st) = N /\
    forall i j, (j < N)%nat ->
      DataMatrix.get (fst st) i j
      = if (i <? R)%nat then DataVector.data dRHS (i * N + j)
        else DataMatrix.get dCoeff i j).
  { apply (for_loop_ind (fun n st =>
      snd st = (n * N)%nat /\
      DataMatrix.GetRows (fst st) = R /\
      DataMatrix.GetColumns (fst st) = N /\
      forall i j, (j < N)%nat ->
        DataMatrix.get (fst st) i j
        = if (i <? n)%nat then DataVector.data dRHS (i * N + j)
          else DataMatrix.get dCoeff i j)).
    - simpl. auto.
    - intros i0 st Hi0 (H1 & H2 & H3 & H4).
      assert (Hrow :
        let st' := for_loop N (fun j (st : DataMatrix.t * nat) =>
          (DataMatrix.set (fst st) i0 j (DataVector.get dRHS (snd st)),
           (snd st + 1)%nat)) st in
        snd st' = (i0 * N + N)%nat /\
        DataMatrix.GetRows (fst st') = R /\
        DataMatrix.GetColumns (fst st') = N /\
        forall i j, (j < N)%nat ->
          DataMatrix.get (fst st') i j
          = if ((i =? i0) && (j <? N))%nat then DataVector.data dRHS (i * N + j)
            else DataMatrix.get (fst st) i j).
      { apply (for_loop_ind (fun m st' =>
          snd st' = (i0 * N + m)%nat /\
          DataMatrix.GetRows (fst st') = R /\
          DataMatrix.GetColumns (fst st') = N /\
          forall i j, (j < N)%nat ->
            DataMatrix.get (fst st') i j
            = if ((i =? i0) && (j <? m))%nat then DataVector.data dRHS (i * N + j)
              else DataMatrix.get (fst st) i j)).
        - rewrite Nat.add_0_r. split; [exact H1|]. split; [exact H2|].
          split; [exact H3|]. intros. nat_cases.
        - intros j0 st' Hj0 (G1 & G2 & G3 & G4). cbn [fst snd].
          split; [lia|]. split; [exact G2|]. split; [exact G3|].
          intros i j Hj. rewrite get_set by lia. rewrite G4 by exact Hj.
          rewrite G1. unfold DataVector.get. nat_cases. }
      destruct Hrow as (G1 & G2 & G3 & G4).
      split; [simpl in G1 |- *; lia|]. split; [exact G2|]. split; [exact G3|].
      intros i j Hj. rewrite G4 by exact Hj. rewrite H4 by exact Hj. nat_cases. }
  destruct H as (_ & H2 & H3 & H4). cbv zeta.
  split; [exact H2|]. split; [exact H3|].
  intros i j Hi Hj. rewrite H4 by exact Hj.
  destruct (Nat.ltb_spec i R); [reflexivity | lia].
Qed.

(** A flat index [i * N + j] lies in the block of row [c] exactly when
    [c = i]. *)
Lemma row_of_flat (n c i j : nat) :
  (j < n)%nat ->
  ((c * n <=? i * n + j) && (i * n + j <? c * n + n))%nat = (c =? i)%nat.
Proof.
  intro Hj.
  destruct (Nat.eqb_spec c i) as [-> | Hne].
  - destruct (Nat.leb_spec (i * n) (i * n + j)); [|lia].
    destruct (Nat.ltb_spec (i * n + j) (i * n + n)); [reflexivity | lia].
  - destruct (Nat.leb_spec (c * n) (i * n + j)) as [H1 | H1]; [|reflexivity].
    destruct (Nat.ltb_spec (i * n + j) (c * n + n)) as [H2 | H2]; [|reflexivity].
    exfalso. apply Hne.
    destruct (Nat.lt_trichotomy c i) as [Hlt | [Heq | Hgt]]; [exfalso | exact Heq | exfalso].
    + assert ((c + 1) * n <= i * n)%nat by (apply Nat.mul_le_mono_r; lia). lia.
    + assert ((i + 1) * n <= c * n)%nat by (apply Nat.mul_le_mono_r; lia). lia.
Qed.

(** *** The arrays handed to BLAS and LAPACK *)

Hypothesis N_pos : (1 <= N)%nat.

Local Abbreviation nCoeff := (R * N)%nat.
Local Abbreviation nCond := (N + R - 1)%nat.
Local Abbreviation st1 :=
  (build_RHS dCoeff
     (mkConstraints (DataMatrix.Initialize nCoeff nCond)
        (DataVector.Initialize (nCoeff + nCond)) 0)).
Local Abbreviation st2 :=
  (build_consistency dCoeff (mkConstraints (dC st1) (dRHS st1) 0)).
Local Abbreviation st3 :=
  (build_conservation vecSourceArea vecTargetArea dCoeff st2).
Local Abbreviation a := (DataVector.get vecTargetArea).

Lemma constraints_spec :
  (forall i j c, (i < R)%nat -> (j < N)%nat -> (c < nCond)%nat ->
     DataMatrix.data (dC st3) (c + (i * N + j) * nCond)
     = if (c <? R)%nat then (if (c =? i)%nat then 1 else 0)
       else (if (j =? c - R)%nat then a i else 0)) /\
  (forall k, (k < nCoeff)%nat ->
     DataVector.data (dRHS st3) k = DataMatrix.data dCoeff k) /\
  (forall c, (c < R)%nat -> DataVector.data (dRHS st3) (nCoeff + c) = 1) /\
  (forall j, (j < N - 1)%nat ->
     DataVector.data (dRHS st3) (nCoeff + (R + j))
     = DataVector.get vecSourceArea j).
Proof.
  destruct (build_RHS_spec
              (mkConstraints (DataMatrix.Initialize nCoeff nCond)
                 (DataVector.Initialize (nCoeff + nCond)) 0) eq_refl)
    as (A1 & A2 & A3).
  assert (Hc1 : DataMatrix.GetColumns (dC st1) = nCond)
    by (rewrite A2; reflexivity).
  destruct (build_consistency_spec (mkConstraints (dC st1) (dRHS st1) 0) eq_refl)
    as (B1 & B2 & B3 & B4).
  { cbn [dC]. rewrite Hc1. lia. }
  cbn [dC dRHS] in B2, B3, B4.
  destruct (build_conservation_spec st2 B1) as (C1 & C2 & C3 & C4).
  { rewrite B2, Hc1. lia. }
  rewrite B2, Hc1 in C2, C3. rewrite Hc1 in B3.
  split; [|split; [|split]].
  - intros i j c Hi Hj Hc.
    replace (c + (i * N + j) * nCond)%nat
      with ((i * N + j) * DataMatrix.GetColumns (dC st3) + c)%nat
      by (rewrite C2; lia).
    change (DataMatrix.data (dC st3)
              ((i * N + j) * DataMatrix.GetColumns (dC st3) + c))
      with (DataMatrix.get (dC st3) (i * N + j) c).
    rewrite C3 by assumption. rewrite B3 by assumption.
    assert (E : ((c <? R) && (c * N <=? i * N + j)
                 && (i * N + j <? c * N + N))%nat
                = ((c <? R) && (c =? i))%nat)
      by (rewrite <- andb_assoc, row_of_flat by exact Hj; reflexivity).
    rewrite E.
    rewrite A2. unfold DataMatrix.get at 1. cbn [DataMatrix.data DataMatrix.Initialize].
    nat_cases.
  - intros k Hk. rewrite C4, B4, A3. nat_cases.
  - intros c Hc. rewrite C4, B4. nat_cases.
  - intros j Hj. rewrite C4. nat_cases. f_equal. lia.
Qed.

Local Abbreviation dCCt :=
  (build_CCt vecTargetArea dCoeff (calc_dP vecTargetArea dCoeff)
     (DataMatrix.Initialize nCond nCond)).

(** The symmetric matrix that [dposv] reads in the upper triangle of
    [dCCt]. *)
Lemma schur_upper (r c : nat) :
  (r < nCond)%nat -> (c < nCond)%nat ->
  Blas.upper (DataMatrix.data dCCt) nCond r c
  = if (r <? R)%nat then
      if (c <? R)%nat then (if (c =? r)%nat then Qnat N else 0) else a r
    else
      if (c <? R)%nat then a c
      else if (c =? r)%nat then calc_dP vecTargetArea dCoeff else 0.
Proof.
  intros Hr Hc.
  destruct (build_CCt_spec (calc_dP vecTargetArea dCoeff)
              (DataMatrix.Initialize nCond nCond)) as (H1 & H2).
  { cbn [DataMatrix.GetColumns DataMatrix.Initialize]. lia. }
  cbn [DataMatrix.GetColumns DataMatrix.Initialize] in H1, H2.
  assert (E : forall r' c', (r' < nCond)%nat -> (c' < nCond)%nat ->
            DataMatrix.data dCCt (c' + r' * nCond)
            = DataMatrix.get dCCt r' c').
  { intros r' c' _ _. unfold DataMatrix.get. rewrite H1. f_equal. lia. }
  unfold Blas.upper.
  destruct (Nat.leb_spec r c).
  - rewrite E, H2 by assumption.
    unfold DataMatrix.get at 1 2 3. cbn [DataMatrix.data DataMatrix.Initialize].
    nat_cases.
  - rewrite E, H2 by assumption.
    unfold DataMatrix.get at 1 2 3. cbn [DataMatrix.data DataMatrix.Initialize].
    nat_cases.
Qed.

(** [C^T x], column by column of the constraint matrix. *)
Lemma constraint_column_sum (x : nat -> Q) (c : nat) :
  (c < nCond)%nat ->
  sumQ nCoeff (fun k => DataMatrix.data (dC st3) (c + k * nCond) * x k)
  == if (c <? R)%nat then sumQ N (fun j => x (c * N + j)%nat)
     else sumQ R (fun i => a i * x (i * N + (c - R))%nat).
Proof.
  intro Hc. destruct constraints_spec as (HdC & _).
  rewrite sumQ_flat.
  destruct (Nat.ltb_spec c R) as [HcR | HcR].
  - transitivity (sumQ R (fun i =>
      if (c =? i)%nat then sumQ N (fun j => x (i * N + j)%nat) else 0)).
    + apply sumQ_ext. intros i Hi.
      destruct (Nat.eqb_spec c i) as [-> | Hne].
      * apply sumQ_ext. intros j Hj. rewrite HdC by assumption.
        destruct (Nat.ltb_spec i R); [|lia]. rewrite Nat.eqb_refl. ring.
      * apply sumQ_zero. intros j Hj. rewrite HdC by assumption.
        destruct (Nat.ltb_spec c R); [|lia].
        destruct (Nat.eqb_spec c i); [contradiction|]. ring.
    + rewrite (sumQ_single _ _ c HcR).
      * rewrite Nat.eqb_refl. reflexivity.
      * intros k _ Hk. destruct (Nat.eqb_spec c k); [congruence | reflexivity].
  - apply sumQ_ext. intros i Hi.
    etransitivity.
    { apply (sumQ_single _ _ (c - R)%nat); [lia|].
      intros j Hj Hne. rewrite HdC by assumption.
      destruct (Nat.ltb_spec c R); [lia|].
      destruct (Nat.eqb_spec j (c - R)); [contradiction | ring]. }
    cbv beta. rewrite HdC by (try assumption; lia).
    destruct (Nat.ltb_spec c R); [lia|]. rewrite Nat.eqb_refl. reflexivity.
Qed.

(** [C z], row by row of the constraint matrix. *)
Lemma constraint_row_sum (z : nat -> Q) (i j : nat) :
  (i < R)%nat -> (j < N)%nat ->
  sumQ nCond (fun c => DataMatrix.data (dC st3) (c + (i * N + j) * nCond) * z c)
  == z i + (if (j <? N - 1)%nat then a i * z (R + j)%nat else 0).
Proof.
  intros Hi Hj. destruct constraints_spec as (HdC & _).
  replace nCond with (R + (N - 1))%nat at 1 by lia.
  rewrite sumQ_app. apply Qplus_comp.
  - rewrite (sumQ_single _ _ i Hi).
    + rewrite HdC by (try assumption; lia).
      destruct (Nat.ltb_spec i R); [|lia]. rewrite Nat.eqb_refl. ring.
    + intros c Hc Hne. rewrite HdC by (try assumption; lia).
      destruct (Nat.ltb_spec c R); [|lia].
      destruct (Nat.eqb_spec c i); [contradiction | ring].
  - destruct (Nat.ltb_spec j (N - 1)) as [Hj1 | Hj1].
    + rewrite (sumQ_single _ _ j Hj1).
      * rewrite HdC by (try assumption; lia).
        destruct (Nat.ltb_spec (R + j) R); [lia|].
        replace (R + j - R)%nat with j by lia. rewrite Nat.eqb_refl. reflexivity.
      * intros c Hc Hne. rewrite HdC by (try assumption; lia).
        destruct (Nat.ltb_spec (R + c) R); [lia|].
        replace (R + c - R)%nat with c by lia.
        destruct (Nat.eqb_spec j c); [congruence | ring].
    + apply sumQ_zero. intros c Hc. rewrite HdC by (try assumption; lia).
      destruct (Nat.ltb_spec (R + c) R); [lia|].
      replace (R + c - R)%nat with c by lia.
      destruct (Nat.eqb_spec j c); [lia | ring].
Qed.

(** [M z], row by row of the Schur matrix. *)
Lemma schur_row_sum (z : nat -> Q) (r : nat) :
  (r < nCond)%nat ->
  sumQ nCond (fun c => Blas.upper (DataMatrix.data dCCt) nCond r c * z c)
  == if (r <? R)%nat
     then Qnat N * z r + a r * sumQ (N - 1) (fun j => z (R + j)%nat)
     else sumQ R (fun i => a i * z i) + calc_dP vecTargetArea dCoeff * z r.
Proof.
  intro Hr.
  replace nCond with (R + (N - 1))%nat at 1 by lia.
  rewrite sumQ_app.
  destruct (Nat.ltb_spec r R) as [HrR | HrR].
  - apply Qplus_comp.
    + rewrite (sumQ_single _ _ r HrR).
      * rewrite schur_upper by lia.
        destruct (Nat.ltb_spec r R); [|lia]. rewrite Nat.eqb_refl. reflexivity.
      * intros c Hc Hne. rewrite schur_upper by lia.
        destruct (Nat.ltb_spec r R); [|lia]. destruct (Nat.ltb_spec c R); [|lia].
        destruct (Nat.eqb_spec c r); [contradiction | ring].
    + rewrite <- sumQ_scal. apply sumQ_ext. intros j Hj.
      rewrite schur_upper by lia.
      destruct (Nat.ltb_spec r R); [|lia].
      destruct (Nat.ltb_spec (R + j) R); [lia | reflexivity].
  - apply Qplus_comp.
    + apply sumQ_ext. intros c Hc. rewrite schur_upper by lia.
      destruct (Nat.ltb_spec r R); [lia|].
      destruct (Nat.ltb_spec c R); [reflexivity | lia].
    + etransitivity.
      { apply (sumQ_single _ _ (r - R)%nat); [lia|].
        intros j Hj Hne. rewrite schur_upper by lia.
        destruct (Nat.ltb_spec r R); [lia|].
        destruct (Nat.ltb_spec (R + j) R); [lia|].
        destruct (Nat.eqb_spec (R + j) r); [lia | ring]. }
      cbv beta. rewrite schur_upper by lia.
      destruct (Nat.ltb_spec r R); [lia|].
      destruct (Nat.ltb_spec (R + (r - R)) R); [lia|].
      replace (R + (r - R))%nat with r by lia. rewrite Nat.eqb_refl. reflexivity.
Qed.

(** *** The solve *)

Variable dposv : Blas.dposv_t.
Hypothesis dposv_ok : Blas.dposv_solves dposv.

Local Abbreviation sa := (DataVector.get vecSourceArea).
Local Abbreviation dP := (calc_dP vecTargetArea dCoeff).

(** What the two [dgemv] calls and the solve compute: the stored
    coefficients are the raw ones minus [C z], where [z] solves the Schur
    system [M z = C^T c - r]. *)
Lemma corrector_solution (dCoeff1 : DataMatrix.t) :
  ForceConsistencyConservation3 dposv vecSourceArea vecTargetArea dCoeff
    false = Ok dCoeff1 ->
  DataMatrix.GetRows dCoeff1 = R /\
  DataMatrix.GetColumns dCoeff1 = N /\
  exists z : nat -> Q,
    (forall i, (i < R)%nat ->
       Qnat N * z i + a i * sumQ (N - 1) (fun j => z (R + j)%nat)
       == sumQ N (fun j => DataMatrix.get dCoeff i j) - 1) /\
    (forall j, (j < N - 1)%nat ->
       sumQ R (fun i => a i * z i) + dP * z (R + j)%nat
       == sumQ R (fun i => a i * DataMatrix.get dCoeff i j) - sa j) /\
    (forall i j, (i < R)%nat -> (j < N)%nat ->
       DataMatrix.get dCoeff1 i j
       == DataMatrix.get dCoeff i j
          - (z i + (if (j <? N - 1)%nat then a i * z (R + j)%nat else 0))).
Proof.
  unfold ForceConsistencyConservation3. cbv zeta.
  match goal with
  | |- context [dposv ?u ?m ?nrhs ?A ?lda ?b ?ldb] =>
      set (bvec := b); set (sol := dposv u m nrhs A lda bvec ldb)
  end.
  destruct (Z.eqb_spec (fst sol) 0) as [Hinfo | Hinfo]; simpl negb; cbv iota;
    [|discriminate].
  intro H. injection H as <-.
  assert (Hs : sol = (0%Z, snd sol))
    by (rewrite <- Hinfo; apply surjective_pairing).
  pose proof (dposv_ok _ _ _ _ _ _ Hs) as Hz.
  destruct constraints_spec as (_ & Hrhs1 & Hrhs2 & Hrhs3).
  assert (Hb : forall r, (r < nCond)%nat ->
            bvec r
            == sumQ nCoeff (fun k =>
                 DataMatrix.data (dC st3) (r + k * nCond)
                 * DataVector.data (dRHS st3) k)
               - DataVector.data (dRHS st3) (nCoeff + r)).
  { intros r Hr. unfold bvec, ptr, ptr_store.
    destruct (Nat.ltb_spec (nCoeff + r) nCoeff); [lia|].
    replace (nCoeff + r - nCoeff)%nat with r by lia.
    rewrite dgemv_n. destruct (Nat.ltb_spec r nCond); [|lia].
    unfold ptr. cbn [Nat.add]. ring. }
  match goal with
  | |- context [store_coefficients dCoeff ?v dCoeff] =>
      destruct (store_coefficients_spec v) as (S1 & S2 & S3)
  end.
  split; [exact S1|]. split; [exact S2|].
  exists (snd sol).
  split; [|split].
  - intros i Hi.
    assert (Hi' : (i < nCond)%nat) by lia.
    pose proof (Hz i Hi') as Hzi.
    rewrite schur_row_sum in Hzi by exact Hi'.
    destruct (Nat.ltb_spec i R); [|lia].
    rewrite Hzi, Hb by exact Hi'.
    rewrite constraint_column_sum by exact Hi'.
    destruct (Nat.ltb_spec i R); [|lia].
    rewrite Hrhs2 by exact Hi.
    apply Qplus_comp; [|reflexivity].
    apply sumQ_ext. intros j Hj. rewrite Hrhs1; [reflexivity|].
    apply (Nat.lt_le_trans _ (i * N + N)); [lia|].
    replace (i * N + N)%nat with ((i + 1) * N)%nat by lia.
    apply Nat.mul_le_mono_r. lia.
  - intros j Hj.
    assert (Hj' : (R + j < nCond)%nat) by lia.
    pose proof (Hz (R + j)%nat Hj') as Hzj.
    rewrite schur_row_sum in Hzj by exact Hj'.
    destruct (Nat.ltb_spec (R + j) R); [lia|].
    rewrite Hzj, Hb by exact Hj'.
    rewrite constraint_column_sum by exact Hj'.
    destruct (Nat.ltb_spec (R + j) R); [lia|].
    rewrite Hrhs3 by exact Hj.
    replace (R + j - R)%nat with j by lia.
    apply Qplus_comp; [|reflexivity].
    apply sumQ_ext. intros i Hi. rewrite Hrhs1; [reflexivity|].
    apply (Nat.lt_le_trans _ (i * N + N)); [lia|].
    replace (i * N + N)%nat with ((i + 1) * N)%nat by lia.
    apply Nat.mul_le_mono_r. lia.
  - intros i j Hi Hj. rewrite S3 by assumption.
    cbn [DataVector.data].
    assert (Hk : (i * N + j < nCoeff)%nat).
    { apply (Nat.lt_le_trans _ (i * N + N)); [lia|].
      replace (i * N + N)%nat with ((i + 1) * N)%nat by lia.
      apply Nat.mul_le_mono_r. lia. }
    unfold ptr_store at 1. cbn [Nat.ltb Nat.leb]. rewrite Nat.sub_0_r.
    rewrite dgemv_t. destruct (Nat.ltb_spec (i * N + j) nCoeff); [|lia].
    rewrite <- (constraint_row_sum (snd sol) i j Hi Hj).
    assert (E1 : sumQ nCond (fun r =>
                   DataMatrix.data (dC st3) (r + (i * N + j) * nCond)
                   * ptr (ptr_store (ptr_store (DataVector.data (dRHS st3)) nCoeff
                       (Blas.dgemv "n" nCond nCoeff 1 (DataMatrix.data (dC st3)) nCond
                          (ptr (DataVector.data (dRHS st3)) 0) 1 (- (1))
                          (ptr (DataVector.data (dRHS st3)) nCoeff) 1)) nCoeff (snd sol))
                       nCoeff r)
                 == sumQ nCond (fun c =>
                   DataMatrix.data (dC st3) (c + (i * N + j) * nCond) * snd sol c)).
    { apply sumQ_ext. intros r Hr. unfold ptr at 1. unfold ptr_store at 1.
      destruct (Nat.ltb_spec (nCoeff + r) nCoeff); [lia|].
      replace (nCoeff + r - nCoeff)%nat with r by lia. reflexivity. }
    fold sol in E1. rewrite E1.
    unfold ptr at 1. unfold ptr_store at 1 2. cbn [Nat.add].
    destruct (Nat.ltb_spec (i * N + j) nCoeff); [|lia].
    rewrite Hrhs1 by exact Hk. unfold DataMatrix.get. ring.
Qed.

(** A sum whose last term is switched off. *)
Lemma sumQ_all_but_last (f : nat -> Q) :
  sumQ N (fun j => if (j <? N - 1)%nat then f j else 0) == sumQ (N - 1) f.
Proof.
  replace N with (Datatypes.S (N - 1)) at 1 by lia. simpl.
  destruct (Nat.ltb_spec (N - 1) (N - 1)); [lia|].
  rewrite (sumQ_ext (N - 1) _ f).
  - ring.
  - intros k Hk. destruct (Nat.ltb_spec k (N - 1)); [reflexivity | lia].
Qed.

Lemma sumQ_split_last (f : nat -> Q) :
  sumQ N f == sumQ (N - 1) f + f (N - 1)%nat.
Proof.
  replace N with (Datatypes.S (N - 1)) at 1 by lia. reflexivity.
Qed.

Lemma Qnat_pos : 0 < Qnat N.
Proof.
  unfold Qnat. change 0 with (inject_Z 0). rewrite <- Zlt_Qlt. lia.
Qed.

(** The consistency equations hold for the stored coefficients. *)
Lemma corrector_row_sums (dCoeff' : DataMatrix.t) :
  ForceConsistencyConservation3 dposv vecSourceArea vecTargetArea dCoeff
    false = Ok dCoeff' ->
  forall i, (i < R)%nat ->
    sumQ N (fun j => DataMatrix.get dCoeff' i j) == 1.
Proof.
  intro H. destruct (corrector_solution _ H) as (_ & _ & z & E1 & _ & E3).
  intros i Hi.
  rewrite (sumQ_ext N _ (fun j =>
    DataMatrix.get dCoeff i j
    - (z i + (if (j <? N - 1)%nat then a i * z (R + j)%nat else 0))))
    by (intros j Hj; apply E3; assumption).
  rewrite sumQ_minus, sumQ_plus, sumQ_const.
  rewrite (sumQ_all_but_last (fun j => a i * z (R + j)%nat)).
  rewrite sumQ_scal. specialize (E1 i Hi).
  change (sumQ N (fun j => DataMatrix.get dCoeff i j))
    with (sumQ N (DataMatrix.get dCoeff i)) in E1.
  lra.
Qed.

(** C1: with [monotone = false], a coefficient matrix with at least one
    column ([nCols = nP * nP >= 1]) that the corrector returns has kept its
    size and has every row summing to 1. *)
Theorem corrector_consistency (dCoeff' : DataMatrix.t) :
  ForceConsistencyConservation3 dposv vecSourceArea vecTargetArea dCoeff
    false = Ok dCoeff' ->
  DataMatrix.GetRows dCoeff' = R /\
  DataMatrix.GetColumns dCoeff' = N /\
  forall i, (i < R)%nat ->
    sumQ N (fun j => DataMatrix.get dCoeff' i j) == 1.
Proof.
  intro H. destruct (corrector_solution _ H) as (S1 & S2 & z & E1 & _ & E3).
  split; [exact S1|]. split; [exact S2|].
  intros i Hi.
  rewrite (sumQ_ext N _ (fun j =>
    DataMatrix.get dCoeff i j
    - (z i + (if (j <? N - 1)%nat then a i * z (R + j)%nat else 0))))
    by (intros j Hj; apply E3; assumption).
  rewrite sumQ_minus, sumQ_plus, sumQ_const.
  rewrite (sumQ_all_but_last (fun j => a i * z (R + j)%nat)).
  rewrite sumQ_scal. specialize (E1 i Hi).
  change (sumQ N (fun j => DataMatrix.get dCoeff i j))
    with (sumQ N (DataMatrix.get dCoeff i)) in E1.
  lra.
Qed.

(** The conservation equations that were kept: the first [N - 1] columns. *)
Lemma corrector_conservation_kept (dCoeff' : DataMatrix.t) :
  ForceConsistencyConservation3 dposv vecSourceArea vecTargetArea dCoeff
    false = Ok dCoeff' ->
  forall j, (j < N - 1)%nat ->
    sumQ R (fun i => a i * DataMatrix.get dCoeff' i j) == sa j.
Proof.
  intro H. destruct (corrector_solution _ H) as (S1 & S2 & z & _ & E2 & E3).
  intros j Hj.
  rewrite (sumQ_ext R _ (fun i =>
    a i * DataMatrix.get dCoeff i j
    - (a i * z i + a i * a i * z (R + j)%nat))).
  - rewrite sumQ_minus, sumQ_plus.
    rewrite (sumQ_ext R (fun i => a i * a i * z (R + j)%nat)
               (fun i => z (R + j)%nat * (a i * a i)))
      by (intros; ring).
    rewrite sumQ_scal. rewrite <- calc_dP_sum.
    specialize (E2 j Hj). lra.
  - intros i Hi. rewrite (E3 i j Hi) by lia.
    destruct (Nat.ltb_spec j (N - 1)); [ring | lia].
Qed.

(** C2: when the target areas and the source areas have the same total,
    a matrix that the corrector returns ([monotone = false]) satisfies the
    conservation equation of every column, the dropped last one
    included. *)
Theorem corrector_conservation (dCoeff' : DataMatrix.t) :
  sumQ R a == sumQ N sa ->
  ForceConsistencyConservation3 dposv vecSourceArea vecTargetArea dCoeff
    false = Ok dCoeff' ->
  forall j, (j < N)%nat ->
    sumQ R (fun i => a i * DataMatrix.get dCoeff' i j) == sa j.
Proof.
  intros Harea H j Hj.
  destruct (Nat.lt_ge_cases j (N - 1)) as [Hlt | Hge].
  - apply (corrector_conservation_kept _ H). exact Hlt.
  - assert (j = N - 1)%nat by lia. subst j.
    pose proof (corrector_row_sums _ H) as Hrow.
    pose proof (corrector_conservation_kept _ H) as Hcol.
    assert (Hall : sumQ R (fun i =>
                     a i * sumQ N (fun j => DataMatrix.get dCoeff' i j))
                   == sumQ R a).
    { apply sumQ_ext. intros i Hi. rewrite (Hrow i Hi). ring. }
    assert (Hsplit : sumQ R (fun i =>
                       a i * sumQ N (fun j => DataMatrix.get dCoeff' i j))
                     == sumQ (N - 1) (fun j =>
                          sumQ R (fun i => a i * DataMatrix.get dCoeff' i j))
                        + sumQ R (fun i =>
                            a i * DataMatrix.get dCoeff' i (N - 1))).
    { rewrite (sumQ_swap (N - 1) R). rewrite <- sumQ_plus.
      apply sumQ_ext. intros i Hi.
      rewrite (sumQ_split_last (fun j => DataMatrix.get dCoeff' i j)).
      rewrite sumQ_scal.
      change (fun j => DataMatrix.get dCoeff' i j)
        with (DataMatrix.get dCoeff' i).
      ring. }
    assert (Hkept : sumQ (N - 1) (fun j =>
                      sumQ R (fun i => a i * DataMatrix.get dCoeff' i j))
                    == sumQ (N - 1) sa)
      by (apply sumQ_ext; exact Hcol).
    pose proof (sumQ_split_last sa) as Hsrc.
    lra.
Qed.

Lemma Qnat_pred : Qnat N == Qnat (N - 1) + 1.
Proof.
  unfold Qnat. replace (Z.of_nat N) with (Z.of_nat (N - 1) + 1)%Z by lia.
  rewrite inject_Z_plus. reflexivity.
Qed.

(** A solution of the homogeneous Schur system [M z = 0] is annihilated by
    the constraint matrix: [C z = 0]. *)
Lemma schur_kernel (z : nat -> Q) :
  (forall i, (i < R)%nat ->
     Qnat N * z i + a i * sumQ (N - 1) (fun j => z (R + j)%nat) == 0) ->
  (forall j, (j < N - 1)%nat ->
     sumQ R (fun i => a i * z i) + dP * z (R + j)%nat == 0) ->
  forall i j, (i < R)%nat -> (j < N)%nat ->
    z i + (if (j <? N - 1)%nat then a i * z (R + j)%nat else 0) == 0.
Proof.
  intros E1 E2.
  set (S := sumQ (N - 1) (fun j => z (R + j)%nat)) in *.
  set (T := sumQ R (fun i => a i * z i)) in *.
  assert (H1 : Qnat N * T + dP * S == 0).
  { rewrite calc_dP_sum. unfold T.
    rewrite <- (sumQ_scal R (Qnat N)).
    rewrite (Qmult_comm _ S), <- (sumQ_scal R S), <- sumQ_plus.
    apply sumQ_zero. intros i Hi. specialize (E1 i Hi). cbv beta.
    setoid_replace (Qnat N * (a i * z i) + S * (a i * a i))
      with (a i * (Qnat N * z i + a i * S)) by ring.
    rewrite E1. ring. }
  assert (H2 : Qnat (N - 1) * T + dP * S == 0).
  { unfold S. rewrite <- (sumQ_scal (N - 1) dP).
    rewrite <- (sumQ_const (N - 1) T), <- sumQ_plus.
    apply sumQ_zero. intros j Hj. apply E2. exact Hj. }
  pose proof Qnat_pred as Hpred. pose proof Qnat_pos as Hpos.
  assert (HT : T == 0) by nra.
  assert (Hz : forall j, (j < N - 1)%nat -> dP * z (R + j)%nat == 0).
  { intros j Hj. specialize (E2 j Hj). lra. }
  assert (Hzi : forall i, (i < R)%nat -> a i * S == 0 -> z i == 0).
  { intros i Hi HaS. specialize (E1 i Hi).
    assert (Hm : Qnat N * z i == 0) by lra.
    apply Qmult_integral in Hm. destruct Hm as [Hm | Hm]; [lra | exact Hm]. }
  intros i j Hi Hj.
  destruct (Qeq_dec dP 0) as [HP | HP].
  - assert (Ha : forall i', (i' < R)%nat -> a i' == 0).
    { intros i' Hi'. rewrite calc_dP_sum in HP.
      assert (Hsq : a i' * a i' == 0).
      { apply (sumQ_nonneg_zero R (fun i => a i * a i)); [|exact HP|exact Hi'].
        intros k _. nra. }
      apply Qmult_integral in Hsq. tauto. }
    rewrite (Hzi i Hi) by (rewrite (Ha i Hi); ring).
    destruct (j <? N - 1)%nat; [rewrite (Ha i Hi)|]; ring.
  - assert (Hzj : forall j', (j' < N - 1)%nat -> z (R + j')%nat == 0).
    { intros j' Hj'. specialize (Hz j' Hj').
      apply Qmult_integral in Hz. tauto. }
    assert (HS : S == 0) by (apply sumQ_zero; exact Hzj).
    rewrite (Hzi i Hi) by (rewrite HS; ring).
    destruct (Nat.ltb_spec j (N - 1)) as [Hlt | Hge].
    + rewrite (Hzj j Hlt). ring.
    + ring.
Qed.

(** C3: on a matrix that already has row sums 1 and conserves every
    column, the corrector ([monotone = false]) returns the same
    coefficients. *)
Theorem corrector_identity_on_feasible (dCoeff' : DataMatrix.t) :
  (forall i, (i < R)%nat -> sumQ N (DataMatrix.get dCoeff i) == 1) ->
  (forall j, (j < N)%nat ->
     sumQ R (fun i => a i * DataMatrix.get dCoeff i j) == sa j) ->
  ForceConsistencyConservation3 dposv vecSourceArea vecTargetArea dCoeff
    false = Ok dCoeff' ->
  DataMatrix.GetRows dCoeff' = R /\
  DataMatrix.GetColumns dCoeff' = N /\
  forall i j, (i < R)%nat -> (j < N)%nat ->
    DataMatrix.get dCoeff' i j == DataMatrix.get dCoeff i j.
Proof.
  intros Hrow Hcol H.
  destruct (corrector_solution _ H) as (S1 & S2 & z & E1 & E2 & E3).
  split; [exact S1|]. split; [exact S2|].
  intros i j Hi Hj. rewrite (E3 i j Hi Hj).
  rewrite (schur_kernel z); [ring | | | exact Hi | exact Hj].
  - intros i' Hi'. rewrite (E1 i' Hi').
    change (sumQ N (fun j => DataMatrix.get dCoeff i' j))
      with (sumQ N (DataMatrix.get dCoeff i')).
    rewrite (Hrow i' Hi'). ring.
  - intros j' Hj'. rewrite (E2 j' Hj'). rewrite Hcol by lia. ring.
Qed.

End Loops.

(** *** Monotone blend *)

Section Monotone.

Variables vecSourceArea vecTargetArea : DataVector.t.
Variable dCoeff : DataMatrix.t.
Variable dposv : Blas.dposv_t.

Local Abbreviation R := (DataMatrix.GetRows dCoeff).
Local Abbreviation N := (DataMatrix.GetColumns dCoeff).
Local Abbreviation sa := (DataVector.get vecSourceArea).

Lemma corrector_stages (fMonotone : bool) (dCoeff' : DataMatrix.t) :
  ForceConsistencyConservation3 dposv vecSourceArea vecTargetArea dCoeff
    fMonotone = Ok dCoeff' ->
  exists dCoeff1,
    ForceConsistencyConservation3 dposv vecSourceArea vecTargetArea dCoeff
      false = Ok dCoeff1 /\
    dCoeff' = if fMonotone
              then force_monotonicity vecSourceArea dCoeff dCoeff1
              else dCoeff1.
Proof.
  unfold ForceConsistencyConservation3. cbv zeta.
  match goal with
  | |- context [negb ?t] => destruct t
  end; simpl negb; cbv iota; [|discriminate].
  destruct fMonotone; intro H; injection H as <-; eexists; split; reflexivity.
Qed.

(** Two nested loops that rewrite each cell from its own value. *)
Lemma pointwise_loops (nR nC : nat) (g : nat -> nat -> Q -> Q)
  (M : DataMatrix.t) :
  DataMatrix.GetColumns M = nC ->
  let M' := for_loop nR (fun i =>
              for_loop nC (fun j M' =>
                DataMatrix.set M' i j (g i j (DataMatrix.get M' i j)))) M in
  DataMatrix.GetRows M' = DataMatrix.GetRows M /\
  DataMatrix.GetColumns M' = nC /\
  forall i j, (j < nC)%nat ->
    DataMatrix.get M' i j
    = if (i <? nR)%nat then g i j (DataMatrix.get M i j)
      else DataMatrix.get M i j.
Proof.
  intro Hc.
  apply (for_loop_ind (fun n M' =>
    DataMatrix.GetRows M' = DataMatrix.GetRows M /\
    DataMatrix.GetColumns M' = nC /\
    forall i j, (j < nC)%nat ->
      DataMatrix.get M' i j
      = if (i <? n)%nat then g i j (DataMatrix.get M i j)
        else DataMatrix.get M i j)).
  - split; [reflexivity|]. split; [exact Hc|]. intros. nat_cases.
  - intros i0 M0 Hi0 (H1 & H2 & H3).
    assert (Hrow :
      let M1 := for_loop nC (fun j M' =>
                  DataMatrix.set M' i0 j (g i0 j (DataMatrix.get M' i0 j))) M0 in
      DataMatrix.GetRows M1 = DataMatrix.GetRows M /\
      DataMatrix.GetColumns M1 = nC /\
      forall i j, (j < nC)%nat ->
        DataMatrix.get M1 i j
        = if ((i =? i0) && (j <? nC))%nat then g i j (DataMatrix.get M0 i j)
          else DataMatrix.get M0 i j).
    { apply (for_loop_ind (fun m M1 =>
        DataMatrix.GetRows M1 = DataMatrix.GetRows M /\
        DataMatrix.GetColumns M1 = nC /\
        forall i j, (j < nC)%nat ->
          DataMatrix.get M1 i j
          = if ((i =? i0) && (j <? m))%nat then g i j (DataMatrix.get M0 i j)
            else DataMatrix.get M0 i j)).
      - split; [exact H1|]. split; [exact H2|]. intros. nat_cases.
      - intros j0 M1 Hj0 (G1 & G2 & G3).
        split; [exact G1|]. split; [exact G2|].
        intros i j Hj. rewrite get_set by lia.
        rewrite !G3 by lia. nat_cases. }
    destruct Hrow as (G1 & G2 & G3).
    split; [exact G1|]. split; [exact G2|].
    intros i j Hj. rewrite G3 by exact Hj. rewrite H3 by exact Hj.
    nat_cases.
Qed.

Lemma dTotalJacobian_sum :
  dTotalJacobian vecSourceArea
  = sumQ (DataVector.GetRows vecSourceArea) sa.
Proof. unfold dTotalJacobian. apply for_loop_sum. Qed.

Lemma build_dMonoCoeff_spec (i j : nat) :
  (i < R)%nat -> (j < N)%nat ->
  DataMatrix.get (build_dMonoCoeff vecSourceArea dCoeff) i j
  = sa j / dTotalJacobian vecSourceArea.
Proof.
  intros Hi Hj.
  destruct (pointwise_loops R N
              (fun _ j _ => sa j / dTotalJacobian vecSourceArea)
              (DataMatrix.Initialize R N) eq_refl) as (_ & _ & H).
  unfold build_dMonoCoeff. cbv beta in H. rewrite (H i j Hj).
  destruct (Nat.ltb_spec i R); [reflexivity | lia].
Qed.

Lemma blend_spec (dA : Q) (dMonoCoeff dCoeff1 : DataMatrix.t) :
  DataMatrix.GetColumns dCoeff1 = N ->
  DataMatrix.GetRows (blend dCoeff dA dMonoCoeff dCoeff1)
  = DataMatrix.GetRows dCoeff1 /\
  DataMatrix.GetColumns (blend dCoeff dA dMonoCoeff dCoeff1) = N /\
  forall i j, (i < R)%nat -> (j < N)%nat ->
    DataMatrix.get (blend dCoeff dA dMonoCoeff dCoeff1) i j
    = (1 - dA) * DataMatrix.get dCoeff1 i j
      + dA * DataMatrix.get dMonoCoeff i j.
Proof.
  intro Hc.
  destruct (pointwise_loops R N
              (fun i j c => (1 - dA) * c + dA * DataMatrix.get dMonoCoeff i j)
              dCoeff1 Hc) as (H1 & H2 & H3).
  unfold blend. cbv beta in H3.
  split; [exact H1|]. split; [exact H2|].
  intros i j Hi Hj. rewrite (H3 i j Hj).
  destruct (Nat.ltb_spec i R); [reflexivity | lia].
Qed.

(** The scaling factor is the largest of the ratios of the negative
    coefficients, and 0 when there is none. *)
Lemma scaling_factor_spec (dMonoCoeff dCoeff1 : DataMatrix.t) :
  let ratio := fun i j =>
    - DataMatrix.get dCoeff1 i j
    / Qabs (DataMatrix.get dMonoCoeff i j - DataMatrix.get dCoeff1 i j) in
  let dA := scaling_factor dCoeff dMonoCoeff dCoeff1 in
  (forall i j, (i < R)%nat -> (j < N)%nat ->
     DataMatrix.get dCoeff1 i j < 0 -> ratio i j <= dA) /\
  (dA = 0 \/
   exists i j, (i < R)%nat /\ (j < N)%nat /\
     DataMatrix.get dCoeff1 i j < 0 /\ dA = ratio i j /\ 0 < dA).
Proof.
  intros ratio dA. unfold dA, scaling_factor.
  apply (for_loop_ind (fun n dA =>
    (forall i j, (i < n)%nat -> (j < N)%nat ->
       DataMatrix.get dCoeff1 i j < 0 -> ratio i j <= dA) /\
    (dA = 0 \/
     exists i j, (i < R)%nat /\ (j < N)%nat /\
       DataMatrix.get dCoeff1 i j < 0 /\ dA = ratio i j /\ 0 < dA))).
  - split; [intros; lia | left; reflexivity].
  - intros i0 dA0 Hi0 (H1 & H2).
    assert (Hrow :
      let dA1 := for_loop N (fun j dA =>
        if Qltb (DataMatrix.get dCoeff1 i0 j) 0 then
          let dNewA := ratio i0 j in
          if Qltb dA dNewA then dNewA else dA
        else dA) dA0 in
      (forall i j, (i < i0 \/ (i = i0 /\ j < N))%nat -> (j < N)%nat ->
         DataMatrix.get dCoeff1 i j < 0 -> ratio i j <= dA1) /\
      (dA1 = 0 \/
       exists i j, (i < R)%nat /\ (j < N)%nat /\
         DataMatrix.get dCoeff1 i j < 0 /\ dA1 = ratio i j /\ 0 < dA1)).
    { apply (for_loop_ind (fun m dA =>
        (forall i j, (i < i0 \/ (i = i0 /\ j < m))%nat -> (j < N)%nat ->
           DataMatrix.get dCoeff1 i j < 0 -> ratio i j <= dA) /\
        (dA = 0 \/
         exists i j, (i < R)%nat /\ (j < N)%nat /\
           DataMatrix.get dCoeff1 i j < 0 /\ dA = ratio i j /\ 0 < dA))).
      - split; [|exact H2].
        intros i j [Hi | [_ Hj]] HjN Hneg; [apply H1; assumption | lia].
      - intros j0 dA1 Hj0 (G1 & G2).
        assert (Hpos : 0 <= dA1).
        { destruct G2 as [-> | (i & j & _ & _ & _ & _ & Hp)];
            [apply Qle_refl | apply Qlt_le_weak; exact Hp]. }
        destruct (Qltb (DataMatrix.get dCoeff1 i0 j0) 0) eqn:Eneg.
        + cbv zeta.
          destruct (Qltb dA1 (ratio i0 j0)) eqn:Enew.
          * apply Qltb_lt in Enew. apply Qltb_lt in Eneg. split.
            -- intros i j Hij HjN Hneg.
               destruct (Nat.eq_dec i i0) as [-> | Hne].
               ++ destruct (Nat.eq_dec j j0) as [-> | Hne'].
                  ** apply Qle_refl.
                  ** apply Qle_trans with dA1;
                       [apply G1; try assumption; lia | apply Qlt_le_weak; exact Enew].
               ++ apply Qle_trans with dA1;
                    [apply G1; try assumption; lia | apply Qlt_le_weak; exact Enew].
            -- right. exists i0, j0.
               split; [lia|]. split; [exact Hj0|]. split; [exact Eneg|].
               split; [reflexivity|].
               apply Qle_lt_trans with dA1; assumption.
          * apply Qltb_ge in Enew. split; [|exact G2].
            intros i j Hij HjN Hneg.
            destruct (Nat.eq_dec i i0) as [-> | Hne].
            -- destruct (Nat.eq_dec j j0) as [-> | Hne'].
               ++ exact Enew.
               ++ apply G1; try assumption; lia.
            -- apply G1; try assumption; lia.
        + apply Qltb_ge in Eneg. split; [|exact G2].
          intros i j Hij HjN Hneg.
          destruct (Nat.eq_dec i i0) as [-> | Hne].
          * destruct (Nat.eq_dec j j0) as [-> | Hne'].
            -- exfalso. apply Qlt_not_le in Hneg. contradiction.
            -- apply G1; try assumption; lia.
          * apply G1; try assumption; lia. }
    destruct Hrow as (G1 & G2). split; [|exact G2].
    intros i j Hi HjN Hneg. apply G1; try assumption. lia.
Qed.

Lemma corrector_dims (dCoeff1 : DataMatrix.t) :
  ForceConsistencyConservation3 dposv vecSourceArea vecTargetArea dCoeff
    false = Ok dCoeff1 ->
  DataMatrix.GetRows dCoeff1 = R /\ DataMatrix.GetColumns dCoeff1 = N.
Proof.
  unfold ForceConsistencyConservation3. cbv zeta.
  match goal with
  | |- context [negb ?t] => destruct t
  end; simpl negb; cbv iota; [|discriminate].
  intro H. injection H as <-.
  match goal with
  | |- context [store_coefficients dCoeff ?v dCoeff] =>
      destruct (store_coefficients_spec dCoeff v) as (S1 & S2 & _)
  end.
  split; assumption.
Qed.

(** C4: with [monotone = true], nonnegative source areas of positive total
    and a matrix [dCoeff'] returned by the corrector: [dCoeff'] is the
    blend [(1 - lambda) * C + lambda * D] of the corrected matrix [C] with
    the donor [D[i][j] = a_src[j] / sum a_src], where [lambda] is the
    largest of the ratios [-C[i][j] / |D[i][j] - C[i][j]|] over the negative
    entries of [C] (0 when there is none), [lambda] lies in [0, 1], and every
    entry of [dCoeff'] is nonnegative. *)
Theorem corrector_monotone (dCoeff' : DataMatrix.t) :
  DataVector.GetRows vecSourceArea = N ->
  (forall k, (k < N)%nat -> 0 <= sa k) ->
  0 < sumQ N sa ->
  ForceConsistencyConservation3 dposv vecSourceArea vecTargetArea dCoeff
    true = Ok dCoeff' ->
  exists (dCoeff1 : DataMatrix.t) (lambda : Q),
    ForceConsistencyConservation3 dposv vecSourceArea vecTargetArea dCoeff
      false = Ok dCoeff1 /\
    (forall i j, (i < R)%nat -> (j < N)%nat ->
       DataMatrix.get dCoeff1 i j < 0 ->
       - DataMatrix.get dCoeff1 i j
       / Qabs (sa j / sumQ N sa - DataMatrix.get dCoeff1 i j) <= lambda) /\
    (lambda = 0 \/
     exists i j, (i < R)%nat /\ (j < N)%nat /\
       DataMatrix.get dCoeff1 i j < 0 /\
       lambda = - DataMatrix.get dCoeff1 i j
                / Qabs (sa j / sumQ N sa - DataMatrix.get dCoeff1 i j)) /\
    0 <= lambda /\ lambda <= 1 /\
    forall i j, (i < R)%nat -> (j < N)%nat ->
      DataMatrix.get dCoeff' i j
      = (1 - lambda) * DataMatrix.get dCoeff1 i j
        + lambda * (sa j / sumQ N sa) /\
      0 <= DataMatrix.get dCoeff' i j.
Proof.
  intros Hlen Hsrc Htot H.
  destruct (corrector_stages true _ H) as (dCoeff1 & H1 & ->).
  destruct (corrector_dims _ H1) as (D1 & D2).
  exists dCoeff1,
    (scaling_factor dCoeff (build_dMonoCoeff vecSourceArea dCoeff) dCoeff1).
  split; [exact H1|].
  assert (Htotal : dTotalJacobian vecSourceArea = sumQ N sa)
    by (rewrite dTotalJacobian_sum, Hlen; reflexivity).
  assert (Hdonor : forall i j, (i < R)%nat -> (j < N)%nat ->
            DataMatrix.get (build_dMonoCoeff vecSourceArea dCoeff) i j
            = sa j / sumQ N sa)
    by (intros i j Hi Hj; rewrite build_dMonoCoeff_spec, Htotal by assumption;
        reflexivity).
  assert (Hdpos : forall j, (j < N)%nat -> 0 <= sa j / sumQ N sa).
  { intros j Hj. apply Qle_shift_div_l; [exact Htot|].
    specialize (Hsrc j Hj). lra. }
  destruct (scaling_factor_spec (build_dMonoCoeff vecSourceArea dCoeff) dCoeff1)
    as (Hmax & Hatt).
  set (lambda := scaling_factor dCoeff (build_dMonoCoeff vecSourceArea dCoeff)
                   dCoeff1) in *.
  assert (Hratio : forall i j, (i < R)%nat -> (j < N)%nat ->
            DataMatrix.get dCoeff1 i j < 0 ->
            0 < sa j / sumQ N sa - DataMatrix.get dCoeff1 i j /\
            - DataMatrix.get dCoeff1 i j
            / Qabs (sa j / sumQ N sa - DataMatrix.get dCoeff1 i j)
            == - DataMatrix.get dCoeff1 i j
               / (sa j / sumQ N sa - DataMatrix.get dCoeff1 i j)).
  { intros i j Hi Hj Hneg. specialize (Hdpos j Hj).
    split; [lra|]. rewrite Qabs_pos by lra. reflexivity. }
  assert (Hlow : 0 <= lambda).
  { destruct Hatt as [-> | (i & j & _ & _ & _ & _ & Hp)];
      [apply Qle_refl | apply Qlt_le_weak; exact Hp]. }
  assert (Hup : lambda <= 1).
  { destruct Hatt as [-> | (i & j & Hi & Hj & Hneg & -> & _)]; [lra|].
    rewrite (Hdonor i j Hi Hj).
    destruct (Hratio i j Hi Hj Hneg) as (Hden & ->).
    apply Qle_shift_div_r; [exact Hden|].
    specialize (Hdpos j Hj). lra. }
  split.
  { intros i j Hi Hj Hneg. rewrite <- (Hdonor i j Hi Hj).
    apply Hmax; assumption. }
  split.
  { destruct Hatt as [-> | (i & j & Hi & Hj & Hneg & Heq & _)];
      [left; reflexivity | right].
    exists i, j. rewrite <- (Hdonor i j Hi Hj). auto. }
  split; [exact Hlow|]. split; [exact Hup|].
  intros i j Hi Hj.
  destruct (blend_spec lambda (build_dMonoCoeff vecSourceArea dCoeff)
              dCoeff1 D2) as (_ & _ & Hb).
  unfold force_monotonicity. fold lambda.
  rewrite (Hb i j Hi Hj), (Hdonor i j Hi Hj).
  split; [reflexivity|].
  pose proof (Hdpos j Hj) as Hd.
  destruct (Qlt_le_dec (DataMatrix.get dCoeff1 i j) 0) as [Hneg | Hnn].
  - destruct (Hratio i j Hi Hj Hneg) as (Hden & Heq).
    pose proof (Hmax i j Hi Hj Hneg) as Hle.
    rewrite (Hdonor i j Hi Hj), Heq in Hle.
    set (c := DataMatrix.get dCoeff1 i j) in *.
    set (d := sa j / sumQ N sa) in *.
    assert (Hmul : - c <= lambda * (d - c)).
    { setoid_replace (- c) with (- c / (d - c) * (d - c)) by (field; lra).
      apply Qmult_le_compat_r; [exact Hle | lra]. }
    lra.
  - nra.
Qed.

End Monotone.

(** *** The correction as a projection *)

Section Projection.

Variables vecSourceArea vecTargetArea : DataVector.t.
Variable dCoeff : DataMatrix.t.
Hypothesis N_pos : (1 <= DataMatrix.GetColumns dCoeff)%nat.

Local Abbreviation R := (DataMatrix.GetRows dCoeff).
Local Abbreviation N := (DataMatrix.GetColumns dCoeff).
Local Abbreviation nCoeff := (R * N)%nat.
Local Abbreviation nCond := (N + R - 1)%nat.
Local Abbreviation a := (DataVector.get vecTargetArea).
Local Abbreviation sa := (DataVector.get vecSourceArea).
Local Abbreviation dP := (calc_dP vecTargetArea dCoeff).

(** [schur_matrix] is the matrix that the solver receives. *)
Lemma schur_matrix_is_passed (dposv : Blas.dposv_t) (fMonotone : bool) :
  ForceConsistencyConservation3 dposv vecSourceArea vecTargetArea dCoeff
    fMonotone
  = ForceConsistencyConservation3
      (fun uplo m nrhs _ lda b ldb =>
         dposv uplo m nrhs
           (DataMatrix.data (schur_matrix vecTargetArea dCoeff)) lda b ldb)
      vecSourceArea vecTargetArea dCoeff fMonotone.
Proof. reflexivity. Qed.

(** The Schur matrix that [dposv] receives is symmetric. *)
Theorem schur_matrix_symmetric (r c : nat) :
  (r < nCond)%nat -> (c < nCond)%nat ->
  DataMatrix.get (schur_matrix vecTargetArea dCoeff) r c
  = DataMatrix.get (schur_matrix vecTargetArea dCoeff) c r.
Proof.
  intros Hr Hc. unfold schur_matrix. cbv zeta.
  destruct (build_CCt_spec vecTargetArea dCoeff dP
              (DataMatrix.Initialize nCond nCond)) as (_ & H).
  { cbn [DataMatrix.GetColumns DataMatrix.Initialize]. lia. }
  cbn [DataMatrix.GetColumns DataMatrix.Initialize] in H.
  rewrite (H r c Hc Hr), (H c r Hr Hc).
  unfold DataMatrix.get. cbn [DataMatrix.data DataMatrix.Initialize].
  nat_cases.
Qed.

Lemma constraint_entry (i j c : nat) :
  (i < R)%nat -> (j < N)%nat -> (c < nCond)%nat ->
  DataMatrix.get (dC (constraints vecSourceArea vecTargetArea dCoeff))
    (i * N + j) c
  = if (c <? R)%nat then (if (c =? i)%nat then 1 else 0)
    else (if (j =? c - R)%nat then a i else 0).
Proof.
  intros Hi Hj Hc.
  destruct (constraints_spec vecSourceArea vecTargetArea dCoeff N_pos)
    as (H & _).
  rewrite <- (H i j c Hi Hj Hc).
  unfold DataMatrix.get.
  assert (Hcols : DataMatrix.GetColumns
                    (dC (constraints vecSourceArea vecTargetArea dCoeff))
                  = nCond).
  { unfold constraints. cbv zeta.
    destruct (build_RHS_spec dCoeff
                (mkConstraints (DataMatrix.Initialize nCoeff nCond)
                   (DataVector.Initialize (nCoeff + nCond)) 0) eq_refl)
      as (_ & A2 & _).
    set (st1 := build_RHS dCoeff _) in *.
    assert (Hc1 : DataMatrix.GetColumns (dC st1) = nCond)
      by (rewrite A2; reflexivity).
    destruct (build_consistency_spec dCoeff
                (mkConstraints (dC st1) (dRHS st1) 0) eq_refl)
      as (B1 & B2 & _).
    { cbn [dC]. rewrite Hc1. lia. }
    cbn [dC] in B2.
    set (st2 := build_consistency dCoeff _) in *.
    destruct (build_conservation_spec vecSourceArea vecTargetArea dCoeff
                st2 B1) as (_ & C2 & _).
    { rewrite B2, Hc1. lia. }
    rewrite C2, B2, Hc1. reflexivity. }
  rewrite Hcols. unfold constraints. cbv zeta. f_equal. lia.
Qed.

(** The Schur matrix is the product of the constraint matrix with itself:
    [dCCt[r][c]] is the sum over the coefficients [k] of
    [dC[k][r] * dC[k][c]]. *)
Theorem schur_matrix_is_gram (r c : nat) :
  (r < nCond)%nat -> (c < nCond)%nat ->
  sumQ nCoeff (fun k =>
    DataMatrix.get (dC (constraints vecSourceArea vecTargetArea dCoeff)) k r
    * DataMatrix.get (dC (constraints vecSourceArea vecTargetArea dCoeff)) k c)
  == DataMatrix.get (schur_matrix vecTargetArea dCoeff) r c.
Proof.
  intros Hr Hc.
  assert (HM : DataMatrix.get (schur_matrix vecTargetArea dCoeff) r c
               = if (r <? R)%nat then
                   if (c <? R)%nat then (if (c =? r)%nat then Qnat N else 0)
                   else a r
                 else
                   if (c <? R)%nat then a c
                   else if (c =? r)%nat then dP else 0).
  { unfold schur_matrix. cbv zeta.
    destruct (build_CCt_spec vecTargetArea dCoeff dP
                (DataMatrix.Initialize nCond nCond)) as (_ & H).
    { cbn [DataMatrix.GetColumns DataMatrix.Initialize]. lia. }
    cbn [DataMatrix.GetColumns DataMatrix.Initialize] in H.
    rewrite (H r c Hc Hr).
    unfold DataMatrix.get. cbn [DataMatrix.data DataMatrix.Initialize].
    nat_cases. }
  rewrite HM. clear HM. rewrite sumQ_flat.
  rewrite (sumQ_ext R _ (fun i => sumQ N (fun j =>
    (if (r <? R)%nat then (if (r =? i)%nat then 1 else 0)
     else (if (j =? r - R)%nat then a i else 0))
    * (if (c <? R)%nat then (if (c =? i)%nat then 1 else 0)
       else (if (j =? c - R)%nat then a i else 0))))).
  2:{ intros i Hi. apply sumQ_ext. intros j Hj.
      rewrite !constraint_entry by assumption. reflexivity. }
  destruct (Nat.ltb_spec r R) as [HrR | HrR];
    destruct (Nat.ltb_spec c R) as [HcR | HcR].
  - destruct (Nat.eqb_spec c r) as [-> | Hne].
    + rewrite (sumQ_single _ _ r HrR).
      * rewrite Nat.eqb_refl.
        rewrite (sumQ_ext N _ (fun _ => 1)) by (intros; ring).
        rewrite sumQ_const. ring.
      * intros i _ Hi. apply sumQ_zero. intros j _.
        destruct (Nat.eqb_spec r i); [congruence | ring].
    + apply sumQ_zero. intros i _. apply sumQ_zero. intros j _.
      destruct (Nat.eqb_spec r i); destruct (Nat.eqb_spec c i);
        try ring. congruence.
  - rewrite (sumQ_single _ _ r HrR).
    + rewrite Nat.eqb_refl.
      etransitivity.
      { apply (sumQ_single _ _ (c - R)%nat); [lia|].
        intros j _ Hj. destruct (Nat.eqb_spec j (c - R)); [contradiction | ring]. }
      cbv beta. rewrite Nat.eqb_refl. ring.
    + intros i _ Hi. apply sumQ_zero. intros j _.
      destruct (Nat.eqb_spec r i); [congruence | ring].
  - rewrite (sumQ_single _ _ c HcR).
    + rewrite Nat.eqb_refl.
      etransitivity.
      { apply (sumQ_single _ _ (r - R)%nat); [lia|].
        intros j _ Hj. destruct (Nat.eqb_spec j (r - R)); [contradiction | ring]. }
      cbv beta. rewrite Nat.eqb_refl. ring.
    + intros i _ Hi. apply sumQ_zero. intros j _.
      destruct (Nat.eqb_spec c i); [congruence | ring].
  - destruct (Nat.eqb_spec c r) as [-> | Hne].
    + rewrite calc_dP_sum. apply sumQ_ext. intros i Hi.
      etransitivity.
      { apply (sumQ_single _ _ (r - R)%nat); [lia|].
        intros j _ Hj. destruct (Nat.eqb_spec j (r - R)); [contradiction | ring]. }
      cbv beta. rewrite Nat.eqb_refl. reflexivity.
    + apply sumQ_zero. intros i _. apply sumQ_zero. intros j _.
      destruct (Nat.eqb_spec j (r - R)); destruct (Nat.eqb_spec j (c - R));
        try ring. exfalso. lia.
Qed.

(** [x] is the matrix [dCoeff] minus the correction [C z]. *)
Local Abbreviation corrected_by z x :=
  (forall i j, lt i R -> lt j N ->
     x i j == DataMatrix.get dCoeff i j
              - (z i + (if Nat.ltb j (N - 1) then a i * z (Nat.add R j) else 0))).

Lemma correction_row_sum (z : nat -> Q) (x : nat -> nat -> Q) :
  corrected_by z x ->
  forall i, (i < R)%nat ->
    sumQ N (x i)
    == sumQ N (DataMatrix.get dCoeff i)
       - (Qnat N * z i + a i * sumQ (N - 1) (fun j => z (R + j)%nat)).
Proof.
  intros E3 i Hi.
  rewrite (sumQ_ext N (x i) (fun j =>
    DataMatrix.get dCoeff i j
    - (z i + (if (j <? N - 1)%nat then a i * z (R + j)%nat else 0))))
    by (intros j Hj; apply E3; assumption).
  rewrite sumQ_minus, sumQ_plus, sumQ_const.
  rewrite (sumQ_all_but_last dCoeff N_pos (fun j => a i * z (R + j)%nat)).
  rewrite sumQ_scal.
  change (sumQ N (fun j => DataMatrix.get dCoeff i j))
    with (sumQ N (DataMatrix.get dCoeff i)).
  ring.
Qed.

Lemma correction_col_sum (z : nat -> Q) (x : nat -> nat -> Q) :
  corrected_by z x ->
  forall j, (j < N - 1)%nat ->
    sumQ R (fun i => a i * x i j)
    == sumQ R (fun i => a i * DataMatrix.get dCoeff i j)
       - (sumQ R (fun i => a i * z i) + dP * z (R + j)%nat).
Proof.
  intros E3 j Hj.
  rewrite (sumQ_ext R _ (fun i =>
    a i * DataMatrix.get dCoeff i j
    - (a i * z i + a i * a i * z (R + j)%nat))).
  - rewrite sumQ_minus, sumQ_plus.
    rewrite (sumQ_ext R (fun i => a i * a i * z (R + j)%nat)
               (fun i => z (R + j)%nat * (a i * a i)))
      by (intros; ring).
    rewrite sumQ_scal. rewrite <- calc_dP_sum. ring.
  - intros i Hi. rewrite (E3 i j Hi) by lia.
    destruct (Nat.ltb_spec j (N - 1)); [ring | lia].
Qed.

(** Two corrections of [dCoeff] that both satisfy the constraints are the
    same. *)
Lemma correction_unique (z1 z2 : nat -> Q) (x1 x2 : nat -> nat -> Q) :
  corrected_by z1 x1 -> corrected_by z2 x2 ->
  (forall i, (i < R)%nat -> sumQ N (x1 i) == 1) ->
  (forall i, (i < R)%nat -> sumQ N (x2 i) == 1) ->
  (forall j, (j < N - 1)%nat -> sumQ R (fun i => a i * x1 i j) == sa j) ->
  (forall j, (j < N - 1)%nat -> sumQ R (fun i => a i * x2 i j) == sa j) ->
  forall i j, (i < R)%nat -> (j < N)%nat -> x1 i j == x2 i j.
Proof.
  intros E1 E2 Hr1 Hr2 Hc1 Hc2 i j Hi Hj.
  pose proof (schur_kernel vecTargetArea dCoeff N_pos (fun k => z1 k - z2 k))
    as K.
  cbv beta in K.
  rewrite (E1 i j Hi Hj), (E2 i j Hi Hj).
  assert (K' : z1 i - z2 i
               + (if (j <? N - 1)%nat
                  then a i * (z1 (R + j)%nat - z2 (R + j)%nat) else 0) == 0).
  { apply K; try assumption.
    - intros i' Hi'.
      rewrite (sumQ_minus (N - 1) (fun j => z1 (R + j)%nat)
                 (fun j => z2 (R + j)%nat)).
      pose proof (correction_row_sum z1 x1 E1 i' Hi') as A1.
      pose proof (correction_row_sum z2 x2 E2 i' Hi') as A2.
      rewrite (Hr1 i' Hi') in A1. rewrite (Hr2 i' Hi') in A2. lra.
    - intros j' Hj'.
      pose proof (correction_col_sum z1 x1 E1 j' Hj') as A1.
      pose proof (correction_col_sum z2 x2 E2 j' Hj') as A2.
      rewrite (Hc1 j' Hj') in A1. rewrite (Hc2 j' Hj') in A2.
      rewrite (sumQ_ext R (fun i0 => a i0 * (z1 i0 - z2 i0))
                 (fun i0 => a i0 * z1 i0 - a i0 * z2 i0)) by (intros; ring).
      rewrite sumQ_minus. lra. }
  destruct (j <? N - 1)%nat; lra.
Qed.


(** The last conservation equation follows from the others when the two
    meshes have the same total area. *)
Lemma conservation_last_column (x : nat -> nat -> Q) :
  sumQ R a == sumQ N sa ->
  (forall i, (i < R)%nat -> sumQ N (x i) == 1) ->
  (forall j, (j < N - 1)%nat -> sumQ R (fun i => a i * x i j) == sa j) ->
  forall j, (j < N)%nat -> sumQ R (fun i => a i * x i j) == sa j.
Proof.
  intros Harea Hrow Hcol j Hj.
  destruct (Nat.lt_ge_cases j (N - 1)) as [Hlt | Hge]; [apply Hcol; exact Hlt|].
  assert (j = N - 1)%nat by lia. subst j.
  assert (Hall : sumQ R (fun i => a i * sumQ N (fun j => x i j))
                 == sumQ R a).
  { apply sumQ_ext. intros i Hi.
    change (sumQ N (fun j => x i j)) with (sumQ N (x i)).
    rewrite (Hrow i Hi). ring. }
  assert (Hsplit : sumQ R (fun i => a i * sumQ N (fun j => x i j))
                   == sumQ (N - 1) (fun j => sumQ R (fun i => a i * x i j))
                      + sumQ R (fun i => a i * x i (N - 1)%nat)).
  { rewrite (sumQ_swap (N - 1) R). rewrite <- sumQ_plus.
    apply sumQ_ext. intros i Hi.
    rewrite (sumQ_split_last dCoeff N_pos (fun j => x i j)).
    rewrite sumQ_scal.
    change (fun j => x i j) with (x i).
    ring. }
  assert (Hkept : sumQ (N - 1) (fun j => sumQ R (fun i => a i * x i j))
                  == sumQ (N - 1) sa)
    by (apply sumQ_ext; exact Hcol).
  pose proof (sumQ_split_last dCoeff N_pos sa) as Hsrc.
  lra.
Qed.

(** Whatever solver is used, the corrected coefficients are the same: the
    result of [ForceConsistencyConservation3] does not depend on which
    solution of the Schur system [dposv] returns. *)
Theorem corrector_solver_independent (dposv1 dposv2 : Blas.dposv_t)
  (dCoeff1 dCoeff2 : DataMatrix.t) :
  Blas.dposv_solves dposv1 -> Blas.dposv_solves dposv2 ->
  ForceConsistencyConservation3 dposv1 vecSourceArea vecTargetArea dCoeff
    false = Ok dCoeff1 ->
  ForceConsistencyConservation3 dposv2 vecSourceArea vecTargetArea dCoeff
    false = Ok dCoeff2 ->
  forall i j, (i < R)%nat -> (j < N)%nat ->
    DataMatrix.get dCoeff1 i j == DataMatrix.get dCoeff2 i j.
Proof.
  intros ok1 ok2 H1 H2.
  destruct (corrector_solution vecSourceArea vecTargetArea dCoeff N_pos
              dposv1 ok1 _ H1) as (_ & _ & z1 & _ & _ & E1).
  destruct (corrector_solution vecSourceArea vecTargetArea dCoeff N_pos
              dposv2 ok2 _ H2) as (_ & _ & z2 & _ & _ & E2).
  apply (correction_unique z1 z2 (DataMatrix.get dCoeff1)
           (DataMatrix.get dCoeff2) E1 E2).
  - exact (corrector_row_sums vecSourceArea vecTargetArea dCoeff N_pos
             dposv1 ok1 _ H1).
  - exact (corrector_row_sums vecSourceArea vecTargetArea dCoeff N_pos
             dposv2 ok2 _ H2).
  - exact (corrector_conservation_kept vecSourceArea vecTargetArea dCoeff
             N_pos dposv1 ok1 _ H1).
  - exact (corrector_conservation_kept vecSourceArea vecTargetArea dCoeff
             N_pos dposv2 ok2 _ H2).
Qed.

(** Among the matrices with rows summing to 1 that conserve the first
    [N - 1] columns, the one that the corrector returns is nearest to the
    uncorrected matrix: the sum of the squares of its changes is the
    least. *)
Theorem corrector_least_change (dposv : Blas.dposv_t) (dCoeff' : DataMatrix.t)
  (X : nat -> nat -> Q) :
  Blas.dposv_solves dposv ->
  ForceConsistencyConservation3 dposv vecSourceArea vecTargetArea dCoeff
    false = Ok dCoeff' ->
  (forall i, (i < R)%nat -> sumQ N (X i) == 1) ->
  (forall j, (j < N - 1)%nat -> sumQ R (fun i => a i * X i j) == sa j) ->
  sumQ R (fun i => sumQ N (fun j =>
    (DataMatrix.get dCoeff' i j - DataMatrix.get dCoeff i j)
    * (DataMatrix.get dCoeff' i j - DataMatrix.get dCoeff i j)))
  <= sumQ R (fun i => sumQ N (fun j =>
       (X i j - DataMatrix.get dCoeff i j)
       * (X i j - DataMatrix.get dCoeff i j))).
Proof.
  intros ok H HrowX HcolX.
  destruct (corrector_solution vecSourceArea vecTargetArea dCoeff N_pos
              dposv ok _ H) as (_ & _ & z & _ & _ & E3).
  assert (Hrow : forall i, (i < R)%nat -> sumQ N (DataMatrix.get dCoeff' i) == 1)
    by exact (corrector_row_sums vecSourceArea vecTargetArea dCoeff N_pos
                dposv ok _ H).
  pose proof (corrector_conservation_kept vecSourceArea vecTargetArea dCoeff
                N_pos dposv ok _ H) as Hcol.
  set (x := DataMatrix.get dCoeff') in *.
  set (c := DataMatrix.get dCoeff) in *.
  clearbody x c.
  assert (Horth : sumQ R (fun i => sumQ N (fun j =>
                    (X i j - x i j)
                    * (z i + (if (j <? N - 1)%nat
                              then a i * z (R + j)%nat else 0)))) == 0).
  { transitivity (sumQ R (fun i => sumQ (N - 1) (fun j =>
                    z (R + j)%nat * (a i * (X i j - x i j))))).
    - apply sumQ_ext. intros i Hi.
      rewrite (sumQ_ext N _ (fun j =>
        z i * (X i j - x i j)
        + (if (j <? N - 1)%nat
           then z (R + j)%nat * (a i * (X i j - x i j)) else 0)))
        by (intros j Hj; destruct (j <? N - 1)%nat; ring).
      rewrite (sumQ_plus N (fun j => z i * (X i j - x i j))).
      rewrite (sumQ_scal N (z i) (fun j => X i j - x i j)).
      rewrite (sumQ_all_but_last dCoeff N_pos
                 (fun j => z (R + j)%nat * (a i * (X i j - x i j)))).
      assert (Hz : sumQ N (fun j => X i j - x i j) == 0).
      { transitivity (sumQ N (X i) - sumQ N (x i)); [apply sumQ_minus|].
        rewrite (HrowX i Hi), (Hrow i Hi). ring. }
      rewrite Hz. ring.
    - rewrite (sumQ_swap R (N - 1)).
      apply sumQ_zero. intros j Hj.
      rewrite (sumQ_scal R (z (R + j)%nat) (fun i => a i * (X i j - x i j))).
      assert (Hz : sumQ R (fun i => a i * (X i j - x i j)) == 0).
      { rewrite (sumQ_ext R _ (fun i => a i * X i j - a i * x i j))
          by (intros; ring).
        rewrite (sumQ_minus R (fun i => a i * X i j) (fun i => a i * x i j)).
        rewrite (HcolX j Hj), (Hcol j Hj). ring. }
      rewrite Hz. ring. }
  assert (Hpyth :
    sumQ R (fun i => sumQ N (fun j => (X i j - c i j) * (X i j - c i j)))
    == sumQ R (fun i => sumQ N (fun j => (X i j - x i j) * (X i j - x i j)))
       + sumQ R (fun i => sumQ N (fun j => (x i j - c i j) * (x i j - c i j)))).
  { transitivity (sumQ R (fun i => sumQ N (fun j =>
      (X i j - x i j) * (X i j - x i j) + (x i j - c i j) * (x i j - c i j)
      - 2 * ((X i j - x i j)
             * (z i + (if (j <? N - 1)%nat
                       then a i * z (R + j)%nat else 0)))))).
    - apply sumQ_ext. intros i Hi. apply sumQ_ext. intros j Hj.
      pose proof (E3 i j Hi Hj) as E.
      set (w := z i + (if (j <? N - 1)%nat then a i * z (R + j)%nat else 0))
        in *.
      clearbody w.
      rewrite E. ring.
    - etransitivity.
      { apply (sumQ2_lin R N
                 (fun i j => (X i j - x i j) * (X i j - x i j))
                 (fun i j => (x i j - c i j) * (x i j - c i j))
                 (fun i j => (X i j - x i j)
                   * (z i + (if (j <? N - 1)%nat
                             then a i * z (R + j)%nat else 0)))). }
      cbv beta. rewrite Horth. ring. }
  rewrite Hpyth.
  assert (Hsq : 0 <= sumQ R (fun i => sumQ N (fun j =>
                  (X i j - x i j) * (X i j - x i j)))).
  { apply sumQ_nonneg. intros i _. apply sumQ_nonneg. intros j _.
    generalize (X i j - x i j). intro d. nra. }
  lra.
Qed.

(** A matrix with rows summing to 1 that conserves the first [N - 1]
    columns is returned unchanged. *)
Lemma corrector_fixed_point (dposv : Blas.dposv_t) (dCoeff' : DataMatrix.t) :
  Blas.dposv_solves dposv ->
  (forall i, (i < R)%nat -> sumQ N (DataMatrix.get dCoeff i) == 1) ->
  (forall j, (j < N - 1)%nat ->
     sumQ R (fun i => a i * DataMatrix.get dCoeff i j) == sa j) ->
  ForceConsistencyConservation3 dposv vecSourceArea vecTargetArea dCoeff
    false = Ok dCoeff' ->
  forall i j, (i < R)%nat -> (j < N)%nat ->
    DataMatrix.get dCoeff' i j == DataMatrix.get dCoeff i j.
Proof.
  intros ok Hrow Hcol H.
  destruct (corrector_solution vecSourceArea vecTargetArea dCoeff N_pos
              dposv ok _ H) as (_ & _ & z & E1 & E2 & E3).
  intros i j Hi Hj. rewrite (E3 i j Hi Hj).
  rewrite (schur_kernel vecTargetArea dCoeff N_pos z);
    [ring | | | exact Hi | exact Hj].
  - intros i' Hi'. rewrite (E1 i' Hi').
    change (sumQ N (fun j => DataMatrix.get dCoeff i' j))
      with (sumQ N (DataMatrix.get dCoeff i')).
    rewrite (Hrow i' Hi'). ring.
  - intros j' Hj'. rewrite (E2 j' Hj'). rewrite (Hcol j' Hj'). ring.
Qed.

(** With nonnegative source areas of positive total, the divisors of the
    monotone branch are positive: the total that the donor is divided by,
    and [|D[i][j] - C[i][j]|] at every negative entry [C[i][j]], the donor
    [D[i][j]] being nonnegative. No division of the branch is by zero. *)
Lemma monotone_divisors_positive (dCoeff1 : DataMatrix.t) :
  DataVector.GetRows vecSourceArea = N ->
  (forall k, (k < N)%nat -> 0 <= sa k) ->
  0 < sumQ N sa ->
  0 < dTotalJacobian vecSourceArea /\
  forall i j, (i < R)%nat -> (j < N)%nat ->
    DataMatrix.get dCoeff1 i j < 0 ->
    0 < Qabs (DataMatrix.get (build_dMonoCoeff vecSourceArea dCoeff) i j
              - DataMatrix.get dCoeff1 i j).
Proof.
  intros Hlen Hsrc Htot.
  assert (Htotal : dTotalJacobian vecSourceArea = sumQ N sa)
    by (rewrite dTotalJacobian_sum, Hlen; reflexivity).
  split; [rewrite Htotal; exact Htot|].
  intros i j Hi Hj Hneg.
  rewrite (build_dMonoCoeff_spec vecSourceArea dCoeff i j Hi Hj), Htotal.
  assert (Hd : 0 <= sa j / sumQ N sa).
  { apply Qle_shift_div_l; [exact Htot|]. specialize (Hsrc j Hj). lra. }
  rewrite Qabs_pos by lra. lra.
Qed.

(** With [monotone = true] and nonnegative source areas of positive total
    (so that no divisor of the branch is zero, see
    [monotone_divisors_positive]), the rows of the returned matrix still
    sum to 1 in exact arithmetic: the blend with the donor keeps
    consistency. *)
Theorem corrector_monotone_consistency (dposv : Blas.dposv_t)
  (dCoeff' : DataMatrix.t) :
  Blas.dposv_solves dposv ->
  DataVector.GetRows vecSourceArea = N ->
  (forall k, (k < N)%nat -> 0 <= sa k) ->
  0 < sumQ N sa ->
  ForceConsistencyConservation3 dposv vecSourceArea vecTargetArea dCoeff
    true = Ok dCoeff' ->
  forall i, (i < R)%nat -> sumQ N (DataMatrix.get dCoeff' i) == 1.
Proof.
  intros ok Hlen Hsrc Hpos H i Hi.
  assert (Htot : ~ sumQ N sa == 0) by lra.
  destruct (corrector_stages vecSourceArea vecTargetArea dCoeff dposv
              true _ H) as (dCoeff1 & H1 & ->).
  destruct (corrector_dims vecSourceArea vecTargetArea dCoeff dposv _ H1)
    as (_ & D2).
  pose proof (corrector_row_sums vecSourceArea vecTargetArea dCoeff N_pos
                dposv ok _ H1 i Hi) as Hrow.
  unfold force_monotonicity.
  set (lambda := scaling_factor dCoeff _ dCoeff1).
  destruct (blend_spec dCoeff lambda (build_dMonoCoeff vecSourceArea dCoeff)
              dCoeff1 D2) as (_ & _ & Hb).
  rewrite (sumQ_ext N _ (fun j =>
    (1 - lambda) * DataMatrix.get dCoeff1 i j
    + lambda * (/ sumQ N sa * sa j))).
  - rewrite (sumQ_plus N (fun j => (1 - lambda) * DataMatrix.get dCoeff1 i j)
               (fun j => lambda * (/ sumQ N sa * sa j))).
    rewrite (sumQ_scal N (1 - lambda) (fun j => DataMatrix.get dCoeff1 i j)).
    rewrite (sumQ_scal N lambda (fun j => / sumQ N sa * sa j)).
    rewrite (sumQ_scal N (/ sumQ N sa) sa).
    rewrite Hrow. field. exact Htot.
  - intros j Hj. rewrite (Hb i j Hi Hj).
    rewrite (build_dMonoCoeff_spec vecSourceArea dCoeff i j Hi Hj).
    rewrite dTotalJacobian_sum, Hlen. unfold Qdiv. ring.
Qed.

(** With [monotone = true], nonnegative source areas of positive total (so
    that no divisor of the branch is zero, see
    [monotone_divisors_positive]) and meshes of the same total area, the
    returned matrix still conserves every column in exact arithmetic: the
    blend with the donor keeps conservation. *)
Theorem corrector_monotone_conservation (dposv : Blas.dposv_t)
  (dCoeff' : DataMatrix.t) :
  Blas.dposv_solves dposv ->
  DataVector.GetRows vecSourceArea = N ->
  (forall k, (k < N)%nat -> 0 <= sa k) ->
  0 < sumQ N sa ->
  sumQ R a == sumQ N sa ->
  ForceConsistencyConservation3 dposv vecSourceArea vecTargetArea dCoeff
    true = Ok dCoeff' ->
  forall j, (j < N)%nat ->
    sumQ R (fun i => a i * DataMatrix.get dCoeff' i j) == sa j.
Proof.
  intros ok Hlen Hsrc Hpos Harea H j Hj.
  assert (Htot : ~ sumQ N sa == 0) by lra.
  destruct (corrector_stages vecSourceArea vecTargetArea dCoeff dposv
              true _ H) as (dCoeff1 & H1 & ->).
  destruct (corrector_dims vecSourceArea vecTargetArea dCoeff dposv _ H1)
    as (_ & D2).
  assert (Hcol : sumQ R (fun i => a i * DataMatrix.get dCoeff1 i j) == sa j).
  { apply (conservation_last_column (DataMatrix.get dCoeff1) Harea);
      [| |exact Hj].
    - exact (corrector_row_sums vecSourceArea vecTargetArea dCoeff N_pos
               dposv ok _ H1).
    - exact (corrector_conservation_kept vecSourceArea vecTargetArea dCoeff
               N_pos dposv ok _ H1). }
  unfold force_monotonicity.
  set (lambda := scaling_factor dCoeff _ dCoeff1).
  destruct (blend_spec dCoeff lambda (build_dMonoCoeff vecSourceArea dCoeff)
              dCoeff1 D2) as (_ & _ & Hb).
  rewrite (sumQ_ext R _ (fun i =>
    (1 - lambda) * (a i * DataMatrix.get dCoeff1 i j)
    + lambda * (/ sumQ N sa * sa j) * a i)).
  - rewrite (sumQ_plus R
               (fun i => (1 - lambda) * (a i * DataMatrix.get dCoeff1 i j))
               (fun i => lambda * (/ sumQ N sa * sa j) * a i)).
    rewrite (sumQ_scal R (1 - lambda)
               (fun i => a i * DataMatrix.get dCoeff1 i j)).
    rewrite (sumQ_scal R (lambda * (/ sumQ N sa * sa j)) a).
    rewrite Hcol, Harea. field. exact Htot.
  - intros i Hi. rewrite (Hb i j Hi Hj).
    rewrite (build_dMonoCoeff_spec vecSourceArea dCoeff i j Hi Hj).
    rewrite dTotalJacobian_sum, Hlen. unfold Qdiv. ring.
Qed.

End Projection.

(** Correcting a corrected matrix changes nothing. *)
Theorem corrector_idempotent (vecSourceArea vecTargetArea : DataVector.t)
  (dCoeff : DataMatrix.t) (dposv1 dposv2 : Blas.dposv_t)
  (dCoeff' dCoeff'' : DataMatrix.t) :
  (1 <= DataMatrix.GetColumns dCoeff)%nat ->
  Blas.dposv_solves dposv1 -> Blas.dposv_solves dposv2 ->
  ForceConsistencyConservation3 dposv1 vecSourceArea vecTargetArea dCoeff
    false = Ok dCoeff' ->
  ForceConsistencyConservation3 dposv2 vecSourceArea vecTargetArea dCoeff'
    false = Ok dCoeff'' ->
  forall i j, (i < DataMatrix.GetRows dCoeff)%nat ->
    (j < DataMatrix.GetColumns dCoeff)%nat ->
    DataMatrix.get dCoeff'' i j == DataMatrix.get dCoeff' i j.
Proof.
  intros N_pos ok1 ok2 H1 H2 i j Hi Hj.
  destruct (corrector_dims vecSourceArea vecTargetArea dCoeff dposv1 _ H1)
    as (D1 & D2).
  assert (N_pos' : (1 <= DataMatrix.GetColumns dCoeff')%nat)
    by (rewrite D2; exact N_pos).
  apply (corrector_fixed_point vecSourceArea vecTargetArea dCoeff' N_pos'
           dposv2 dCoeff'' ok2).
  - rewrite D1, D2.
    exact (corrector_row_sums vecSourceArea vecTargetArea dCoeff N_pos
             dposv1 ok1 _ H1).
  - rewrite D1, D2.
    exact (corrector_conservation_kept vecSourceArea vecTargetArea dCoeff
             N_pos dposv1 ok1 _ H1).
  - exact H2.
  - rewrite D1. exact Hi.
  - rewrite D2. exact Hj.
Qed.

(** *** The theorems on the sample data, with the solver by elimination *)

Lemma corrector_consistency_witness :
  exists dCoeff',
    ForceConsistencyConservation3 Blas.dposv_elim Sample.vecSourceArea
      Sample.vecTargetArea Sample.dCoeff false = Ok dCoeff' /\
    forall i, (i < 2)%nat ->
      sumQ 4 (fun j => DataMatrix.get dCoeff' i j) == 1.
Proof.
  destruct (ForceConsistencyConservation3 Blas.dposv_elim Sample.vecSourceArea
              Sample.vecTargetArea Sample.dCoeff false) as [M | e] eqn:E.
  - exists M. split; [reflexivity|].
    apply (corrector_consistency Sample.vecSourceArea Sample.vecTargetArea
             Sample.dCoeff ltac:(simpl; lia) Blas.dposv_elim
             dposv_elim_solves M E).
  - vm_compute in E. discriminate E.
Defined.

Lemma corrector_conservation_witness :
  exists dCoeff',
    ForceConsistencyConservation3 Blas.dposv_elim Sample.vecSourceArea
      Sample.vecTargetArea Sample.dCoeff false = Ok dCoeff' /\
    forall j, (j < 4)%nat ->
      sumQ 2 (fun i =>
        DataVector.get Sample.vecTargetArea i * DataMatrix.get dCoeff' i j)
      == DataVector.get Sample.vecSourceArea j.
Proof.
  destruct (ForceConsistencyConservation3 Blas.dposv_elim Sample.vecSourceArea
              Sample.vecTargetArea Sample.dCoeff false) as [M | e] eqn:E.
  - exists M. split; [reflexivity|].
    apply (corrector_conservation Sample.vecSourceArea Sample.vecTargetArea
             Sample.dCoeff ltac:(simpl; lia) Blas.dposv_elim
             dposv_elim_solves M ltac:(vm_compute; reflexivity) E).
  - vm_compute in E. discriminate E.
Defined.

Lemma corrector_identity_on_feasible_witness :
  exists dCoeff',
    ForceConsistencyConservation3 Blas.dposv_elim Sample.vecSourceArea
      Sample.vecTargetArea Sample.dCoeffFeasible false = Ok dCoeff' /\
    forall i j, (i < 2)%nat -> (j < 4)%nat ->
      DataMatrix.get dCoeff' i j == DataMatrix.get Sample.dCoeffFeasible i j.
Proof.
  destruct (ForceConsistencyConservation3 Blas.dposv_elim Sample.vecSourceArea
              Sample.vecTargetArea Sample.dCoeffFeasible false)
    as [M | e] eqn:E.
  - exists M. split; [reflexivity|].
    apply (corrector_identity_on_feasible Sample.vecSourceArea
             Sample.vecTargetArea Sample.dCoeffFeasible ltac:(simpl; lia)
             Blas.dposv_elim dposv_elim_solves M).
    + intros i Hi. simpl in Hi.
      destruct i as [|[|i]]; [vm_compute; reflexivity .. | lia].
    + intros j Hj. simpl in Hj.
      destruct j as [|[|[|[|j]]]]; [vm_compute; reflexivity .. | lia].
    + exact E.
  - vm_compute in E. discriminate E.
Defined.

Lemma corrector_monotone_witness :
  exists dCoeff',
    ForceConsistencyConservation3 Blas.dposv_elim Sample.vecSourceArea
      Sample.vecTargetArea Sample.dCoeff true = Ok dCoeff' /\
    forall i j, (i < 2)%nat -> (j < 4)%nat ->
      0 <= DataMatrix.get dCoeff' i j.
Proof.
  destruct (ForceConsistencyConservation3 Blas.dposv_elim Sample.vecSourceArea
              Sample.vecTargetArea Sample.dCoeff true) as [M | e] eqn:E.
  - exists M. split; [reflexivity|].
    destruct (corrector_monotone Sample.vecSourceArea Sample.vecTargetArea
                Sample.dCoeff Blas.dposv_elim M) as (C1 & lambda & H);
      [reflexivity | | vm_compute; reflexivity | exact E |].
    + intros k Hk. simpl in Hk.
      destruct k as [|[|[|[|k]]]]; [vm_compute; discriminate .. | lia].
    + intros i j Hi Hj. apply H; assumption.
  - vm_compute in E. discriminate E.
Defined.

Lemma schur_matrix_symmetric_witness :
  DataMatrix.get (schur_matrix Sample.vecTargetArea Sample.dCoeff) 1 4
  = DataMatrix.get (schur_matrix Sample.vecTargetArea Sample.dCoeff) 4 1.
Proof.
  apply (schur_matrix_symmetric Sample.vecTargetArea Sample.dCoeff
           ltac:(simpl; lia) 1 4);
    simpl; lia.
Defined.

Lemma schur_matrix_is_gram_witness :
  sumQ 8 (fun k =>
    DataMatrix.get
      (dC (constraints Sample.vecSourceArea Sample.vecTargetArea Sample.dCoeff))
      k 1
    * DataMatrix.get
        (dC (constraints Sample.vecSourceArea Sample.vecTargetArea Sample.dCoeff))
        k 4)
  == DataMatrix.get (schur_matrix Sample.vecTargetArea Sample.dCoeff) 1 4.
Proof.
  apply (schur_matrix_is_gram Sample.vecSourceArea Sample.vecTargetArea
           Sample.dCoeff ltac:(simpl; lia) 1 4); simpl; lia.
Defined.

Lemma corrector_solver_independent_witness :
  exists dCoeff1 dCoeff2,
    ForceConsistencyConservation3 Blas.dposv_elim Sample.vecSourceArea
      Sample.vecTargetArea Sample.dCoeff false = Ok dCoeff1 /\
    ForceConsistencyConservation3 Blas.dposv_elim Sample.vecSourceArea
      Sample.vecTargetArea Sample.dCoeff false = Ok dCoeff2 /\
    DataMatrix.get dCoeff1 1 3 == DataMatrix.get dCoeff2 1 3.
Proof.
  destruct (ForceConsistencyConservation3 Blas.dposv_elim Sample.vecSourceArea
              Sample.vecTargetArea Sample.dCoeff false) as [M | e] eqn:E.
  - exists M, M. split; [reflexivity|]. split; [reflexivity|].
    apply (corrector_solver_independent Sample.vecSourceArea
             Sample.vecTargetArea Sample.dCoeff ltac:(simpl; lia)
             Blas.dposv_elim Blas.dposv_elim M M
             dposv_elim_solves dposv_elim_solves E E); simpl; lia.
  - vm_compute in E. discriminate E.
Defined.

Lemma corrector_least_change_witness :
  exists dCoeff',
    ForceConsistencyConservation3 Blas.dposv_elim Sample.vecSourceArea
      Sample.vecTargetArea Sample.dCoeff false = Ok dCoeff' /\
    sumQ 2 (fun i => sumQ 4 (fun j =>
      (DataMatrix.get dCoeff' i j - DataMatrix.get Sample.dCoeff i j)
      * (DataMatrix.get dCoeff' i j - DataMatrix.get Sample.dCoeff i j)))
    <= sumQ 2 (fun i => sumQ 4 (fun j =>
         (DataMatrix.get Sample.dCoeffFeasible i j
          - DataMatrix.get Sample.dCoeff i j)
         * (DataMatrix.get Sample.dCoeffFeasible i j
            - DataMatrix.get Sample.dCoeff i j))).
Proof.
  destruct (ForceConsistencyConservation3 Blas.dposv_elim Sample.vecSourceArea
              Sample.vecTargetArea Sample.dCoeff false) as [M | e] eqn:E.
  - exists M. split; [reflexivity|].
    apply (corrector_least_change Sample.vecSourceArea Sample.vecTargetArea
             Sample.dCoeff ltac:(simpl; lia) Blas.dposv_elim M
             (DataMatrix.get Sample.dCoeffFeasible) dposv_elim_solves E).
    + intros i Hi. simpl in Hi.
      destruct i as [|[|i]]; [vm_compute; reflexivity .. | lia].
    + intros j Hj. simpl in Hj.
      destruct j as [|[|[|j]]]; [vm_compute; reflexivity .. | lia].
  - vm_compute in E. discriminate E.
Defined.

Lemma corrector_monotone_consistency_witness :
  exists dCoeff',
    ForceConsistencyConservation3 Blas.dposv_elim Sample.vecSourceArea
      Sample.vecTargetArea Sample.dCoeff true = Ok dCoeff' /\
    forall i, (i < 2)%nat -> sumQ 4 (DataMatrix.get dCoeff' i) == 1.
Proof.
  destruct (ForceConsistencyConservation3 Blas.dposv_elim Sample.vecSourceArea
              Sample.vecTargetArea Sample.dCoeff true) as [M | e] eqn:E.
  - exists M. split; [reflexivity|].
    apply (corrector_monotone_consistency Sample.vecSourceArea
             Sample.vecTargetArea Sample.dCoeff ltac:(simpl; lia)
             Blas.dposv_elim M dposv_elim_solves eq_refl);
      [ | vm_compute; reflexivity | exact E].
    intros k Hk. simpl in Hk.
    destruct k as [|[|[|[|k]]]]; [vm_compute; discriminate .. | lia].
  - vm_compute in E. discriminate E.
Defined.

Lemma corrector_monotone_conservation_witness :
  exists dCoeff',
    ForceConsistencyConservation3 Blas.dposv_elim Sample.vecSourceArea
      Sample.vecTargetArea Sample.dCoeff true = Ok dCoeff' /\
    forall j, (j < 4)%nat ->
      sumQ 2 (fun i =>
        DataVector.get Sample.vecTargetArea i * DataMatrix.get dCoeff' i j)
      == DataVector.get Sample.vecSourceArea j.
Proof.
  destruct (ForceConsistencyConservation3 Blas.dposv_elim Sample.vecSourceArea
              Sample.vecTargetArea Sample.dCoeff true) as [M | e] eqn:E.
  - exists M. split; [reflexivity|].
    apply (corrector_monotone_conservation Sample.vecSourceArea
             Sample.vecTargetArea Sample.dCoeff ltac:(simpl; lia)
             Blas.dposv_elim M dposv_elim_solves eq_refl);
      [ | vm_compute; reflexivity | vm_compute; reflexivity | exact E].
    intros k Hk. simpl in Hk.
    destruct k as [|[|[|[|k]]]]; [vm_compute; discriminate .. | lia].
  - vm_compute in E. discriminate E.
Defined.

Lemma corrector_idempotent_witness :
  exists dCoeff' dCoeff'',
    ForceConsistencyConservation3 Blas.dposv_elim Sample.vecSourceArea
      Sample.vecTargetArea Sample.dCoeff false = Ok dCoeff' /\
    ForceConsistencyConservation3 Blas.dposv_elim Sample.vecSourceArea
      Sample.vecTargetArea dCoeff' false = Ok dCoeff'' /\
    forall i j, (i < 2)%nat -> (j < 4)%nat ->
      DataMatrix.get dCoeff'' i j == DataMatrix.get dCoeff' i j.
Proof.
  assert (Hrun :
    match ForceConsistencyConservation3 Blas.dposv_elim Sample.vecSourceArea
            Sample.vecTargetArea Sample.dCoeff false with
    | Ok M =>
        match ForceConsistencyConservation3 Blas.dposv_elim
                Sample.vecSourceArea Sample.vecTargetArea M false with
        | Ok _ => True
        | Err _ => False
        end
    | Err _ => False
    end) by (vm_compute; exact I).
  destruct (ForceConsistencyConservation3 Blas.dposv_elim Sample.vecSourceArea
              Sample.vecTargetArea Sample.dCoeff false) as [M | e] eqn:E;
    [|contradiction].
  destruct (ForceConsistencyConservation3 Blas.dposv_elim Sample.vecSourceArea
              Sample.vecTargetArea M false) as [M2 | e] eqn:E2;
    [|contradiction].
  exists M, M2. split; [reflexivity|]. split; [exact E2|].
  apply (corrector_idempotent Sample.vecSourceArea Sample.vecTargetArea
           Sample.dCoeff Blas.dposv_elim Blas.dposv_elim M M2
           ltac:(simpl; lia) dposv_elim_solves dposv_elim_solves E E2).
Defined.

End CorrectorFacts.

(** ** The monotone blend in binary64 *)

Module Binary64Facts.

(** C4 as the spec states it, with the tolerance [-1e-15], fails in
    binary64. The source areas are positive; the rows of the matrix sum to
    1 and its columns are conserved, so that the right-hand side of the
    Schur system is zero and the solve stores the matrix back as it is,
    which is what the run without the monotone branch returns. In the
    monotone branch the scaling factor [1001 / 1001.5] and the blend are
    rounded, and the entry that is 0 in exact arithmetic is left at about
    [-3.13e-14]. *)
Lemma monotone_blend_below_tolerance :
  (forall j, (j < 2)%nat ->
     0 < Binary64.to_Q (Binary64.DataVector.get Binary64.vecSourceArea j)) /\
  exists dCoeff1 dCoeff',
    Binary64.ForceConsistencyConservation3 Binary64.dgemv_ref
      Binary64.dposv_ref Binary64.vecSourceArea Binary64.vecTargetArea
      Binary64.dCoeff false = Ok dCoeff1 /\
    (forall i j, (i < 2)%nat -> (j < 2)%nat ->
       Binary64.DataMatrix.get dCoeff1 i j
       = Binary64.DataMatrix.get Binary64.dCoeff i j) /\
    Binary64.ForceConsistencyConservation3 Binary64.dgemv_ref
      Binary64.dposv_ref Binary64.vecSourceArea Binary64.vecTargetArea
      Binary64.dCoeff true = Ok dCoeff' /\
    Binary64.to_Q (Binary64.DataMatrix.get dCoeff' 0 1)
    < - (1 # 1000000000000000).
Proof.
  split.
  { intros j Hj. destruct j as [|[|j]]; [vm_compute; reflexivity .. | lia]. }
  assert (Hplain :
    match
      Binary64.ForceConsistencyConservation3 Binary64.dgemv_ref
        Binary64.dposv_ref Binary64.vecSourceArea Binary64.vecTargetArea
        Binary64.dCoeff false
    with
    | Ok M =>
        map (fun k => Binary64.DataMatrix.data M k) (seq 0 4)
        = map (fun k => Binary64.DataMatrix.data Binary64.dCoeff k) (seq 0 4)
        /\ Binary64.DataMatrix.GetColumns M = 2%nat
    | Err _ => False
    end) by (vm_compute; split; reflexivity).
  assert (Hmono :
    match
      Binary64.ForceConsistencyConservation3 Binary64.dgemv_ref
        Binary64.dposv_ref Binary64.vecSourceArea Binary64.vecTargetArea
        Binary64.dCoeff true
    with
    | Ok M =>
        Binary64.to_Q (Binary64.DataMatrix.get M 0 1)
        < - (1 # 1000000000000000)
    | Err _ => False
    end) by (vm_compute; reflexivity).
  destruct (Binary64.ForceConsistencyConservation3 _ _ _ _ _ false)
    as [M1 | e1]; [|contradiction].
  destruct (Binary64.ForceConsistencyConservation3 _ _ _ _ _ true)
    as [M | e]; [|contradiction].
  exists M1, M. split; [reflexivity|]. split; [|split; [reflexivity | exact Hmono]].
  destruct Hplain as (Hdata & Hcols).
  intros i j Hi Hj. unfold Binary64.DataMatrix.get. rewrite Hcols.
  cbn [map seq] in Hdata.
  injection Hdata as H0 H1 H2 H3.
  destruct i as [|[|i]]; [| |lia];
    (destruct j as [|[|j]]; [| |lia]); cbn [Nat.mul Nat.add];
    assumption.
Qed.

(** Where a negative coefficient equals its donor value, as it can with a
    source area that is negative, the scaling factor is [1 / 0] and the
    blend is not a number in every entry: the sign condition on the source
    areas is needed for what is proved of the monotone branch. *)
Example signed_source_area_blend :
  match
    Binary64.ForceConsistencyConservation3 Binary64.dgemv_ref
      Binary64.dposv_ref Binary64.vecSourceAreaSigned
      Binary64.vecTargetAreaWhole Binary64.dCoeffDonor true
  with
  | Ok M =>
      PrimFloat.is_nan (Binary64.DataMatrix.get M 0 0) = true /\
      PrimFloat.is_nan (Binary64.DataMatrix.get M 0 1) = true
  | Err _ => False
  end.
Proof. vm_compute. split; reflexivity. Qed.

End Binary64Facts.

(** ** The corrector by the Lagrangian system *)

Module Corrector2Facts.

Import Corrector2 ArrayFacts SumFacts.

Section Loops.

Variables vecSourceArea vecTargetArea : DataVector.t.
Variable dCoeff : DataMatrix.t.
Hypothesis N_pos : (1 <= DataMatrix.GetColumns dCoeff)%nat.

Local Abbreviation R := (DataMatrix.GetRows dCoeff).
Local Abbreviation N := (DataMatrix.GetColumns dCoeff).
Local Abbreviation nCoeff := (R * N)%nat.
Local Abbreviation nCond := (N + R - 1)%nat.
Local Abbreviation n := (R * N + (N + R - 1))%nat.
Local Abbreviation a := (DataVector.get vecTargetArea).
Local Abbreviation sa := (DataVector.get vecSourceArea).

(** The entry of the Lagrangian matrix in the row (or column) of the
    coefficient [(i, j)] and the column (or row) [o]. *)
Local Abbreviation entry :=
  (fun i j o : nat =>
     if Nat.ltb o (R * N) then (if Nat.eqb o (i * N + j) then 1 else 0)
     else if Nat.ltb (o - R * N) R
          then (if Nat.eqb (o - R * N) i then - (1) else 0)
          else (if Nat.eqb (o - (R * N + R)) j then - a i else 0)).

Lemma flat_bound (i j : nat) :
  (i < R)%nat -> (j < N)%nat -> (i * N + j < R * N)%nat.
Proof.
  intros Hi Hj. apply (Nat.lt_le_trans _ (i * N + N)); [lia|].
  replace (i * N + N)%nat with ((i + 1) * N)%nat by lia.
  apply Nat.mul_le_mono_r. lia.
Qed.

(** The arrays when the coefficients [(i, j)] with [done i j] have been
    handled. *)
Local Abbreviation built :=
  (fun (done : nat -> nat -> bool) (st : Lagrangian) =>
     DataMatrix.GetRows (dLagrangian st) = n /\
     DataMatrix.GetColumns (dLagrangian st) = n /\
     (forall i j o, (i < R)%nat -> (j < N)%nat -> (o < n)%nat ->
        DataMatrix.get (dLagrangian st) (i * N + j) o
        = if done i j then entry i j o else 0) /\
     (forall t i j, (t < N + R - 1)%nat -> (i < R)%nat -> (j < N)%nat ->
        DataMatrix.get (dLagrangian st) (R * N + t) (i * N + j)
        = if done i j then entry i j (R * N + t)%nat else 0) /\
     (forall t t', (t < N + R - 1)%nat -> (t' < N + R - 1)%nat ->
        DataMatrix.get (dLagrangian st) (R * N + t) (R * N + t') = 0) /\
     (forall i j, (i < R)%nat -> (j < N)%nat ->
        DataVector.data (dRHS st) (i * N + j)%nat
        = if done i j then DataMatrix.get dCoeff i j else 0) /\
     (forall t, (t < N + R - 1)%nat ->
        DataVector.data (dRHS st) (R * N + t)%nat = 0)).

Local Abbreviation body :=
  (fun (i j : nat) (st : Lagrangian) =>
     let ix := ix st in
     let L := DataMatrix.set (dLagrangian st) ix ix 1 in
     let L := DataMatrix.set L (R * N + i) ix (- (1)) in
     let L :=
       if negb (Nat.eqb j (N - 1)) then
         DataMatrix.set L (R * N + R + j) ix (- a i)
       else L in
     let L := DataMatrix.set L ix (R * N + i) (- (1)) in
     let L :=
       if negb (Nat.eqb j (N - 1)) then
         DataMatrix.set L ix (R * N + R + j) (- a i)
       else L in
     mkLagrangian L
       (DataVector.set (dRHS st) ix (DataMatrix.get dCoeff i j))
       (ix + 1)).

(** One iteration of the loops that build the matrix. *)
Lemma build_lagrangian_step (done : nat -> nat -> bool) (i0 j0 : nat)
  (st : Lagrangian) :
  (i0 < R)%nat -> (j0 < N)%nat ->
  ix st = (i0 * N + j0)%nat ->
  done i0 j0 = false ->
  built done st ->
  built (fun i j => done i j || ((i =? i0) && (j =? j0))%nat) (body i0 j0 st).
Proof.
  intros Hi0 Hj0 Hix Hdone (G1 & G2 & GA & GB & GC & GD & GE).
  pose proof (flat_bound i0 j0 Hi0 Hj0) as B0.
  cbv beta zeta. cbn [dLagrangian dRHS ix]. rewrite Hix.
  assert (Hinj : forall i j, (i < R)%nat -> (j < N)%nat ->
            ((i =? i0) && (j =? j0))%nat = false ->
            (i * N + j)%nat <> (i0 * N + j0)%nat).
  { intros i j Hi Hj Hne He.
    apply flat_index_inj in He as [-> ->]; [|assumption|assumption].
    rewrite !Nat.eqb_refl in Hne. discriminate. }
  destruct (Nat.eqb_spec j0 (N - 1)) as [Hlast | Hlast]; cbn [negb].
  - (* the last column: no conservation entry *)
    split; [exact G1|]. split; [exact G2|].
    split; [|split; [|split; [|split]]].
    + intros i j o Hi Hj Ho. pose proof (flat_bound i j Hi Hj) as B.
      rewrite !get_set
        by (unfold DataMatrix.set; cbn [DataMatrix.GetColumns]; rewrite G2; lia).
      rewrite (GA i j o Hi Hj Ho).
      destruct ((i =? i0) && (j =? j0))%nat eqn:E.
      * apply andb_true_iff in E. destruct E as (E1 & E2).
        apply Nat.eqb_eq in E1. apply Nat.eqb_eq in E2. subst i j.
        rewrite Hdone, orb_true_r. rewrite !Nat.eqb_refl. cbn [andb].
        nat_cases.
      * rewrite orb_false_r. pose proof (Hinj i j Hi Hj E) as Hne.
        destruct (Nat.eqb_spec (i * N + j) (i0 * N + j0)); [contradiction|].
        cbn [andb]. nat_cases.
    + intros t i j Ht Hi Hj. pose proof (flat_bound i j Hi Hj) as B.
      rewrite !get_set
        by (unfold DataMatrix.set; cbn [DataMatrix.GetColumns]; rewrite G2; lia).
      rewrite (GB t i j Ht Hi Hj).
      destruct ((i =? i0) && (j =? j0))%nat eqn:E.
      * apply andb_true_iff in E. destruct E as (E1 & E2).
        apply Nat.eqb_eq in E1. apply Nat.eqb_eq in E2. subst i j.
        rewrite Hdone, orb_true_r. rewrite !Nat.eqb_refl.
        nat_cases.
      * rewrite orb_false_r. pose proof (Hinj i j Hi Hj E) as Hne.
        destruct (Nat.eqb_spec (i * N + j) (i0 * N + j0)); [contradiction|].
        rewrite !andb_false_r. nat_cases.
    + intros t t' Ht Ht'.
      rewrite !get_set
        by (unfold DataMatrix.set; cbn [DataMatrix.GetColumns]; rewrite G2; lia).
      rewrite (GC t t' Ht Ht'). nat_cases.
    + intros i j Hi Hj. pose proof (flat_bound i j Hi Hj) as B.
      unfold DataVector.set. cbn [DataVector.data]. unfold upd.
      rewrite (GD i j Hi Hj).
      destruct ((i =? i0) && (j =? j0))%nat eqn:E.
      * apply andb_true_iff in E. destruct E as (E1 & E2).
        apply Nat.eqb_eq in E1. apply Nat.eqb_eq in E2. subst i j.
        rewrite Hdone, Nat.eqb_refl. reflexivity.
      * rewrite orb_false_r. pose proof (Hinj i j Hi Hj E) as Hne.
        destruct (Nat.eqb_spec (i * N + j) (i0 * N + j0)); [contradiction|].
        cbn [andb]. nat_cases.
    + intros t Ht. unfold DataVector.set. cbn [DataVector.data]. unfold upd.
      rewrite (GE t Ht). nat_cases.
  - split; [exact G1|]. split; [exact G2|].
    split; [|split; [|split; [|split]]].
    + intros i j o Hi Hj Ho. pose proof (flat_bound i j Hi Hj) as B.
      rewrite !get_set
        by (unfold DataMatrix.set; cbn [DataMatrix.GetColumns]; rewrite G2; lia).
      rewrite (GA i j o Hi Hj Ho).
      destruct ((i =? i0) && (j =? j0))%nat eqn:E.
      * apply andb_true_iff in E. destruct E as (E1 & E2).
        apply Nat.eqb_eq in E1. apply Nat.eqb_eq in E2. subst i j.
        rewrite Hdone, orb_true_r. rewrite !Nat.eqb_refl. cbn [andb].
        nat_cases.
      * rewrite orb_false_r. pose proof (Hinj i j Hi Hj E) as Hne.
        destruct (Nat.eqb_spec (i * N + j) (i0 * N + j0)); [contradiction|].
        cbn [andb]. nat_cases.
    + intros t i j Ht Hi Hj. pose proof (flat_bound i j Hi Hj) as B.
      rewrite !get_set
        by (unfold DataMatrix.set; cbn [DataMatrix.GetColumns]; rewrite G2; lia).
      rewrite (GB t i j Ht Hi Hj).
      destruct ((i =? i0) && (j =? j0))%nat eqn:E.
      * apply andb_true_iff in E. destruct E as (E1 & E2).
        apply Nat.eqb_eq in E1. apply Nat.eqb_eq in E2. subst i j.
        rewrite Hdone, orb_true_r. rewrite !Nat.eqb_refl.
        nat_cases.
      * rewrite orb_false_r. pose proof (Hinj i j Hi Hj E) as Hne.
        destruct (Nat.eqb_spec (i * N + j) (i0 * N + j0)); [contradiction|].
        rewrite !andb_false_r. nat_cases.
    + intros t t' Ht Ht'.
      rewrite !get_set
        by (unfold DataMatrix.set; cbn [DataMatrix.GetColumns]; rewrite G2; lia).
      rewrite (GC t t' Ht Ht'). nat_cases.
    + intros i j Hi Hj. pose proof (flat_bound i j Hi Hj) as B.
      unfold DataVector.set. cbn [DataVector.data]. unfold upd.
      rewrite (GD i j Hi Hj).
      destruct ((i =? i0) && (j =? j0))%nat eqn:E.
      * apply andb_true_iff in E. destruct E as (E1 & E2).
        apply Nat.eqb_eq in E1. apply Nat.eqb_eq in E2. subst i j.
        rewrite Hdone, Nat.eqb_refl. reflexivity.
      * rewrite orb_false_r. pose proof (Hinj i j Hi Hj E) as Hne.
        destruct (Nat.eqb_spec (i * N + j) (i0 * N + j0)); [contradiction|].
        cbn [andb]. nat_cases.
    + intros t Ht. unfold DataVector.set. cbn [DataVector.data]. unfold upd.
      rewrite (GE t Ht). nat_cases.
Qed.

Lemma built_ext (done done' : nat -> nat -> bool) (st : Lagrangian) :
  (forall i j, (i < R)%nat -> (j < N)%nat -> done i j = done' i j) ->
  built done st -> built done' st.
Proof.
  intros He (G1 & G2 & GA & GB & GC & GD & GE).
  split; [exact G1|]. split; [exact G2|].
  split; [|split; [|split; [|split]]].
  - intros i j o Hi Hj Ho. rewrite <- (He i j Hi Hj). apply GA; assumption.
  - intros t i j Ht Hi Hj. rewrite <- (He i j Hi Hj). apply GB; assumption.
  - exact GC.
  - intros i j Hi Hj. rewrite <- (He i j Hi Hj). apply GD; assumption.
  - exact GE.
Qed.

(** The matrix and the start of the right-hand side after the loops. *)
Lemma build_lagrangian_spec :
  built (fun _ _ => true)
    (build_lagrangian vecTargetArea dCoeff
       (mkLagrangian (DataMatrix.Initialize n n) (DataVector.Initialize n) 0)).
Proof.
  unfold build_lagrangian.
  assert (H :
    let st := for_loop R (fun i => for_loop N (fun j st => body i j st))
                (mkLagrangian (DataMatrix.Initialize n n)
                   (DataVector.Initialize n) 0) in
    ix st = (R * N)%nat /\ built (fun i _ => (i <? R)%nat) st).
  { apply (for_loop_ind (fun m st =>
      ix st = (m * N)%nat /\ built (fun i _ => (i <? m)%nat) st)).
    - split; [reflexivity|].
      cbn [dLagrangian dRHS DataMatrix.GetRows DataMatrix.GetColumns
           DataMatrix.Initialize DataVector.Initialize DataVector.data].
      unfold DataMatrix.get. cbn [DataMatrix.data].
      split; [reflexivity|]. split; [reflexivity|].
      split; [|split; [|split; [|split]]]; intros; reflexivity.
    - intros i0 st0 Hi0 (Hix & Hb).
      assert (Hrow :
        let st := for_loop N (fun j st => body i0 j st) st0 in
        ix st = (i0 * N + N)%nat /\
        built (fun i j => (i <? i0) || ((i =? i0) && (j <? N)))%nat st).
      { apply (for_loop_ind (fun q st =>
          ix st = (i0 * N + q)%nat /\
          built (fun i j => (i <? i0) || ((i =? i0) && (j <? q)))%nat st)).
        - split; [lia|]. apply (built_ext (fun i _ => (i <? i0)%nat)); [|exact Hb].
          intros i j _ _. rewrite andb_false_r, orb_false_r. reflexivity.
        - intros j0 st1 Hj0 (Hix1 & Hb1). split.
          + cbv beta zeta. cbn [ix]. lia.
          + apply (built_ext
                     (fun i j =>
                        (i <? i0) || ((i =? i0) && (j <? j0))
                        || ((i =? i0) && (j =? j0)))%nat).
            * intros i j _ _. nat_cases.
            * apply (build_lagrangian_step
                       (fun i j => (i <? i0) || ((i =? i0) && (j <? j0)))%nat
                       i0 j0 st1 Hi0 Hj0 Hix1); [|exact Hb1].
              cbv beta. nat_cases. }
      destruct Hrow as (Hix' & Hb'). split; [lia|].
      apply (built_ext
               (fun i j => (i <? i0) || ((i =? i0) && (j <? N)))%nat);
        [|exact Hb'].
      intros i j _ Hj. nat_cases. }
  destruct H as (_ & H).
  apply (built_ext (fun i _ => (i <? R)%nat) (fun _ _ => true) _);
    [|exact H].
  intros i j Hi _. destruct (Nat.ltb_spec i R); [reflexivity | lia].
Qed.

(** The right-hand side after the loops over the conditions. *)
Lemma build_conditions_spec (dRHS0 : DataVector.t) :
  let b := build_conditions vecSourceArea dCoeff dRHS0 in
  (forall k, (k < R * N)%nat ->
     DataVector.data b k = DataVector.data dRHS0 k) /\
  (forall i, (i < R)%nat -> DataVector.data b (R * N + i)%nat = - (1)) /\
  (forall j, (j < N - 1)%nat ->
     DataVector.data b (R * N + R + j)%nat = - sa j).
Proof.
  unfold build_conditions. cbv zeta.
  assert (H1 :
    let b := for_loop R (fun i dRHS =>
               DataVector.set dRHS (R * N + i) (- (1))) dRHS0 in
    forall k, DataVector.data b k
              = if ((R * N <=? k) && (k <? R * N + R))%nat then - (1)
                else DataVector.data dRHS0 k).
  { apply (for_loop_ind (fun m b =>
      forall k, DataVector.data b k
                = if ((R * N <=? k) && (k <? R * N + m))%nat then - (1)
                  else DataVector.data dRHS0 k)).
    - intro k. nat_cases.
    - intros i b Hi IH k. unfold DataVector.set. cbn [DataVector.data].
      unfold upd. rewrite IH. nat_cases. }
  cbv zeta in H1.
  set (b1 := for_loop R _ dRHS0) in *.
  assert (H2 :
    let b := for_loop (N - 1) (fun i dRHS =>
               DataVector.set dRHS (R * N + R + i) (- sa i)) b1 in
    forall k, DataVector.data b k
              = if ((R * N + R <=? k) && (k <? R * N + R + (N - 1)))%nat
                then - sa (k - (R * N + R))
                else DataVector.data b1 k).
  { apply (for_loop_ind (fun m b =>
      forall k, DataVector.data b k
                = if ((R * N + R <=? k) && (k <? R * N + R + m))%nat
                  then - sa (k - (R * N + R))
                  else DataVector.data b1 k)).
    - intro k. nat_cases.
    - intros i b Hi IH k. unfold DataVector.set. cbn [DataVector.data].
      unfold upd. rewrite IH.
      destruct (Nat.eqb_spec k (R * N + R + i)) as [-> | Hne].
      + replace (R * N + R + i - (R * N + R))%nat with i by lia. nat_cases.
      + nat_cases. }
  cbv zeta in H2.
  split; [|split].
  - intros k Hk. rewrite H2, H1. nat_cases.
  - intros i Hi. rewrite H2, H1. nat_cases.
  - intros j Hj. rewrite H2.
    replace (R * N + R + j - (R * N + R))%nat with j by lia. nat_cases.
Qed.

(** A sum over the unknowns of the system, by blocks: the coefficients,
    the multipliers of the rows, the multipliers of the columns. *)
Lemma sumQ_blocks (f : nat -> Q) :
  sumQ n f
  == sumQ R (fun i => sumQ N (fun j => f (i * N + j)%nat))
     + sumQ R (fun t => f (R * N + t)%nat)
     + sumQ (N - 1) (fun t => f (R * N + R + t)%nat).
Proof.
  replace n with (R * N + (R + (N - 1)))%nat by lia.
  rewrite sumQ_app, sumQ_app, sumQ_flat.
  rewrite (sumQ_ext (N - 1) (fun k => f (R * N + (R + k))%nat)
             (fun t => f (R * N + R + t)%nat)).
  - ring.
  - intros k _. replace (R * N + (R + k))%nat with (R * N + R + k)%nat by lia.
    reflexivity.
Qed.

Lemma sumQ_pick (m k0 : nat) (v : nat -> Q) :
  (k0 < m)%nat ->
  sumQ m (fun k => if (k =? k0)%nat then v k else 0) == v k0.
Proof.
  intro Hk. etransitivity.
  { apply (sumQ_single m _ k0 Hk). intros k _ Hne.
    destruct (Nat.eqb_spec k k0); [contradiction | reflexivity]. }
  cbv beta. rewrite Nat.eqb_refl. reflexivity.
Qed.

Section Solution.

Variable L : DataMatrix.t.
Hypothesis L_cols : DataMatrix.GetColumns L = n.
Hypothesis L_coeff :
  forall i j o, (i < R)%nat -> (j < N)%nat -> (o < n)%nat ->
    DataMatrix.get L (i * N + j) o = entry i j o.
Hypothesis L_cond :
  forall t i j, (t < N + R - 1)%nat -> (i < R)%nat -> (j < N)%nat ->
    DataMatrix.get L (R * N + t) (i * N + j) = entry i j (R * N + t)%nat.
Hypothesis L_zero :
  forall t t', (t < N + R - 1)%nat -> (t' < N + R - 1)%nat ->
    DataMatrix.get L (R * N + t) (R * N + t') = 0.

Local Abbreviation U := (Blas.upper (DataMatrix.data L) n).

Lemma upper_get (r c : nat) :
  U r c = if (r <=? c)%nat then DataMatrix.get L c r else DataMatrix.get L r c.
Proof.
  unfold Blas.upper, DataMatrix.get. rewrite L_cols.
  destruct (r <=? c)%nat; f_equal; lia.
Qed.

Lemma upper_coeff_coeff (i j i' j' : nat) :
  (i < R)%nat -> (j < N)%nat -> (i' < R)%nat -> (j' < N)%nat ->
  U (i * N + j) (i' * N + j')
  = if ((i' =? i) && (j' =? j))%nat then 1 else 0.
Proof.
  intros Hi Hj Hi' Hj'.
  pose proof (flat_bound i j Hi Hj) as B.
  pose proof (flat_bound i' j' Hi' Hj') as B'.
  rewrite upper_get.
  destruct (Nat.eq_dec i' i) as [-> | Hni].
  - destruct (Nat.eq_dec j' j) as [-> | Hnj].
    + rewrite Nat.leb_refl, !Nat.eqb_refl.
      rewrite (L_coeff i j (i * N + j) Hi Hj) by lia. cbv beta.
      destruct (Nat.ltb_spec (i * N + j) (R * N)); [|lia].
      rewrite Nat.eqb_refl. reflexivity.
    + rewrite Nat.eqb_refl.
      destruct (Nat.eqb_spec j' j); [contradiction|]. cbn [andb].
      destruct (i * N + j <=? i * N + j')%nat.
      * rewrite (L_coeff i j' (i * N + j) Hi Hj') by lia. cbv beta.
        nat_cases.
      * rewrite (L_coeff i j (i * N + j') Hi Hj) by lia. cbv beta.
        nat_cases.
  - destruct (Nat.eqb_spec i' i); [contradiction|]. cbn [andb].
    assert (Hne : (i * N + j)%nat <> (i' * N + j')%nat).
    { intro He. apply flat_index_inj in He as [E _]; [|assumption|assumption].
      congruence. }
    destruct (i * N + j <=? i' * N + j')%nat.
    + rewrite (L_coeff i' j' (i * N + j) Hi' Hj') by lia. cbv beta.
      nat_cases.
    + rewrite (L_coeff i j (i' * N + j') Hi Hj) by lia. cbv beta.
      nat_cases.
Qed.

Lemma upper_coeff_cond (i j t : nat) :
  (i < R)%nat -> (j < N)%nat -> (t < N + R - 1)%nat ->
  U (i * N + j) (R * N + t) = entry i j (R * N + t)%nat /\
  U (R * N + t) (i * N + j) = entry i j (R * N + t)%nat.
Proof.
  intros Hi Hj Ht. pose proof (flat_bound i j Hi Hj) as B.
  rewrite !upper_get.
  destruct (Nat.leb_spec (i * N + j) (R * N + t)); [|lia].
  destruct (Nat.leb_spec (R * N + t) (i * N + j)); [lia|].
  split; apply L_cond; assumption.
Qed.

Lemma upper_cond_cond (t t' : nat) :
  (t < N + R - 1)%nat -> (t' < N + R - 1)%nat ->
  U (R * N + t) (R * N + t') = 0.
Proof.
  intros Ht Ht'. rewrite upper_get.
  destruct (R * N + t <=? R * N + t')%nat; apply L_zero; assumption.
Qed.

(** The rows of the system of a solution [x]. *)
Lemma lagrangian_row_coeff (x : nat -> Q) (i j : nat) :
  (i < R)%nat -> (j < N)%nat ->
  sumQ n (fun c => U (i * N + j) c * x c)
  == x (i * N + j)%nat - x (R * N + i)%nat
     - (if (j <? N - 1)%nat then a i * x (R * N + R + j)%nat else 0).
Proof.
  intros Hi Hj.
  rewrite (sumQ_blocks (fun c => U (i * N + j) c * x c)).
  assert (H1 : sumQ R (fun i' => sumQ N (fun j' =>
                 U (i * N + j) (i' * N + j') * x (i' * N + j')%nat))
               == x (i * N + j)%nat).
  { rewrite (sumQ_ext R _ (fun i' =>
      if (i' =? i)%nat then x (i' * N + j)%nat else 0)).
    - apply (sumQ_pick R i (fun i' => x (i' * N + j)%nat) Hi).
    - intros i' Hi'.
      rewrite (sumQ_ext N _ (fun j' =>
        if (j' =? j)%nat
        then (if (i' =? i)%nat then x (i' * N + j')%nat else 0) else 0)).
      + apply (sumQ_pick N j
                 (fun j' => if (i' =? i)%nat then x (i' * N + j')%nat else 0)
                 Hj).
      + intros j' Hj'. rewrite (upper_coeff_coeff i j i' j' Hi Hj Hi' Hj').
        destruct (i' =? i)%nat; destruct (j' =? j)%nat; cbn [andb]; ring. }
  assert (H2 : sumQ R (fun t => U (i * N + j) (R * N + t) * x (R * N + t)%nat)
               == - x (R * N + i)%nat).
  { rewrite (sumQ_ext R _ (fun t =>
      if (t =? i)%nat then - x (R * N + t)%nat else 0)).
    - apply (sumQ_pick R i (fun t => - x (R * N + t)%nat) Hi).
    - intros t Ht.
      destruct (upper_coeff_cond i j t Hi Hj ltac:(lia)) as (-> & _).
      cbv beta.
      destruct (Nat.ltb_spec (R * N + t) (R * N)); [lia|].
      replace (R * N + t - R * N)%nat with t by lia.
      destruct (Nat.ltb_spec t R); [|lia].
      destruct (t =? i)%nat; ring. }
  assert (H3 : sumQ (N - 1) (fun t =>
                 U (i * N + j) (R * N + R + t) * x (R * N + R + t)%nat)
               == - (if (j <? N - 1)%nat
                     then a i * x (R * N + R + j)%nat else 0)).
  { rewrite (sumQ_ext (N - 1) _ (fun t =>
      if (t =? j)%nat then - (a i * x (R * N + R + t)%nat) else 0)).
    - destruct (Nat.ltb_spec j (N - 1)) as [Hlt | Hge].
      + rewrite (sumQ_pick (N - 1) j
                   (fun t => - (a i * x (R * N + R + t)%nat)) Hlt).
        reflexivity.
      + rewrite sumQ_zero; [ring|]. intros t Ht.
        destruct (Nat.eqb_spec t j); [lia | reflexivity].
    - intros t Ht.
      replace (R * N + R + t)%nat with (R * N + (R + t))%nat by lia.
      destruct (upper_coeff_cond i j (R + t) Hi Hj ltac:(lia)) as (-> & _).
      cbv beta.
      destruct (Nat.ltb_spec (R * N + (R + t)) (R * N)); [lia|].
      replace (R * N + (R + t) - R * N)%nat with (R + t)%nat by lia.
      destruct (Nat.ltb_spec (R + t) R); [lia|].
      replace (R * N + (R + t) - (R * N + R))%nat with t by lia.
      destruct (t =? j)%nat; ring. }
  rewrite H1, H2, H3. ring.
Qed.

Lemma lagrangian_row_consistency (x : nat -> Q) (i : nat) :
  (i < R)%nat ->
  sumQ n (fun c => U (R * N + i) c * x c)
  == - sumQ N (fun j => x (i * N + j)%nat).
Proof.
  intro Hi.
  rewrite (sumQ_blocks (fun c => U (R * N + i) c * x c)).
  assert (H1 : sumQ R (fun i' => sumQ N (fun j' =>
                 U (R * N + i) (i' * N + j') * x (i' * N + j')%nat))
               == - sumQ N (fun j => x (i * N + j)%nat)).
  { rewrite (sumQ_ext R _ (fun i' =>
      if (i' =? i)%nat then - sumQ N (fun j => x (i' * N + j)%nat) else 0)).
    - apply (sumQ_pick R i
               (fun i' => - sumQ N (fun j => x (i' * N + j)%nat)) Hi).
    - intros i' Hi'.
      rewrite (sumQ_ext N _ (fun j' =>
        (if (i' =? i)%nat then - (1) else 0) * x (i' * N + j')%nat)).
      + rewrite (sumQ_scal N _ (fun j' => x (i' * N + j')%nat)).
        destruct (i' =? i)%nat; ring.
      + intros j' Hj'.
        destruct (upper_coeff_cond i' j' i Hi' Hj' ltac:(lia)) as (_ & ->).
        cbv beta.
        destruct (Nat.ltb_spec (R * N + i) (R * N)); [lia|].
        replace (R * N + i - R * N)%nat with i by lia.
        destruct (Nat.ltb_spec i R); [|lia].
        rewrite (Nat.eqb_sym i i'). reflexivity. }
  assert (H2 : sumQ R (fun t =>
                 U (R * N + i) (R * N + t) * x (R * N + t)%nat) == 0).
  { apply sumQ_zero. intros t Ht.
    rewrite (upper_cond_cond i t) by lia. ring. }
  assert (H3 : sumQ (N - 1) (fun t =>
                 U (R * N + i) (R * N + R + t) * x (R * N + R + t)%nat)
               == 0).
  { apply sumQ_zero. intros t Ht.
    replace (R * N + R + t)%nat with (R * N + (R + t))%nat by lia.
    rewrite (upper_cond_cond i (R + t)) by lia. ring. }
  rewrite H1, H2, H3. ring.
Qed.

Lemma lagrangian_row_conservation (x : nat -> Q) (j : nat) :
  (j < N - 1)%nat ->
  sumQ n (fun c => U (R * N + R + j) c * x c)
  == - sumQ R (fun i => a i * x (i * N + j)%nat).
Proof.
  intro Hj.
  rewrite (sumQ_blocks (fun c => U (R * N + R + j) c * x c)).
  assert (H1 : sumQ R (fun i' => sumQ N (fun j' =>
                 U (R * N + R + j) (i' * N + j') * x (i' * N + j')%nat))
               == - sumQ R (fun i => a i * x (i * N + j)%nat)).
  { rewrite <- (sumQ_scal R (- (1))).
    rewrite (sumQ_ext R (fun k => - (1) * (a k * x (k * N + j)%nat))
               (fun k => - (a k * x (k * N + j)%nat))) by (intros; ring).
    apply sumQ_ext. intros i' Hi'.
    rewrite (sumQ_ext N _ (fun j' =>
      if (j' =? j)%nat then - (a i' * x (i' * N + j')%nat) else 0)).
    - apply (sumQ_pick N j (fun j' => - (a i' * x (i' * N + j')%nat))).
      lia.
    - intros j' Hj'.
      replace (R * N + R + j)%nat with (R * N + (R + j))%nat by lia.
      destruct (upper_coeff_cond i' j' (R + j) Hi' Hj' ltac:(lia))
        as (_ & ->).
      cbv beta.
      destruct (Nat.ltb_spec (R * N + (R + j)) (R * N)); [lia|].
      replace (R * N + (R + j) - R * N)%nat with (R + j)%nat by lia.
      destruct (Nat.ltb_spec (R + j) R); [lia|].
      replace (R * N + (R + j) - (R * N + R))%nat with j by lia.
      rewrite (Nat.eqb_sym j j').
      destruct (j' =? j)%nat; ring. }
  assert (H2 : sumQ R (fun t =>
                 U (R * N + R + j) (R * N + t) * x (R * N + t)%nat) == 0).
  { apply sumQ_zero. intros t Ht.
    replace (R * N + R + j)%nat with (R * N + (R + j))%nat by lia.
    rewrite (upper_cond_cond (R + j) t) by lia. ring. }
  assert (H3 : sumQ (N - 1) (fun t =>
                 U (R * N + R + j) (R * N + R + t) * x (R * N + R + t)%nat)
               == 0).
  { apply sumQ_zero. intros t Ht.
    replace (R * N + R + j)%nat with (R * N + (R + j))%nat by lia.
    replace (R * N + R + t)%nat with (R * N + (R + t))%nat by lia.
    rewrite (upper_cond_cond (R + j) (R + t)) by lia. ring. }
  rewrite H1, H2, H3. ring.
Qed.

End Solution.

Variable dsysv : dsysv_t.
Hypothesis dsysv_ok : dsysv_solves dsysv.

(** What the solve computes: the stored coefficients are the first block
    of a solution [x] of the Lagrangian system. *)
Lemma lagrangian_solution (fMonotone : bool) (dCoeff2 : DataMatrix.t) :
  ForceConsistencyConservation2 dsysv vecSourceArea vecTargetArea dCoeff
    fMonotone = Solved dCoeff2 ->
  DataMatrix.GetRows dCoeff2 = R /\
  DataMatrix.GetColumns dCoeff2 = N /\
  exists x : nat -> Q,
    (forall i j, (i < R)%nat -> (j < N)%nat ->
       DataMatrix.get dCoeff2 i j = x (i * N + j)%nat) /\
    (forall i j, (i < R)%nat -> (j < N)%nat ->
       x (i * N + j)%nat - x (R * N + i)%nat
       - (if (j <? N - 1)%nat then a i * x (R * N + R + j)%nat else 0)
       == DataMatrix.get dCoeff i j) /\
    (forall i, (i < R)%nat -> sumQ N (fun j => x (i * N + j)%nat) == 1) /\
    (forall j, (j < N - 1)%nat ->
       sumQ R (fun i => a i * x (i * N + j)%nat) == sa j).
Proof.
  unfold ForceConsistencyConservation2. cbv zeta.
  destruct build_lagrangian_spec as (G1 & G2 & GA & GB & GC & GD & GE).
  set (st := build_lagrangian vecTargetArea dCoeff _) in *.
  destruct (build_conditions_spec (dRHS st)) as (C1 & C2 & C3).
  set (b := build_conditions vecSourceArea dCoeff (dRHS st)) in *.
  rewrite G1.
  set (sol := dsysv _ _ _ _ _ _ _).
  destruct (Z.eqb_spec (fst sol) 0) as [Hinfo | Hinfo]; cbn [negb];
    [|discriminate].
  intro H. injection H as <-.
  assert (Hs : sol = (0%Z, snd sol))
    by (rewrite <- Hinfo; destruct sol; reflexivity).
  pose proof (dsysv_ok _ _ _ _ _ _ Hs) as Hsolve.
  set (x := snd sol) in *. clearbody x. clear Hs Hinfo sol.
  destruct (CorrectorFacts.store_coefficients_spec dCoeff
              (DataVector.mk n x)) as (S1 & S2 & S3).
  split; [exact S1|]. split; [exact S2|].
  exists x. split; [exact S3|].
  split; [|split].
  - intros i j Hi Hj. pose proof (flat_bound i j Hi Hj) as B.
    rewrite <- (lagrangian_row_coeff (dLagrangian st) G2 GA GB x i j Hi Hj).
    rewrite (Hsolve (i * N + j)%nat) by lia.
    rewrite (C1 (i * N + j)%nat B), (GD i j Hi Hj). reflexivity.
  - intros i Hi.
    pose proof (lagrangian_row_consistency (dLagrangian st) G2 GB GC x i Hi)
      as E.
    rewrite (Hsolve (R * N + i)%nat) in E by lia.
    rewrite (C2 i Hi) in E. lra.
  - intros j Hj.
    pose proof (lagrangian_row_conservation (dLagrangian st) G2 GB GC
                  x j Hj) as E.
    rewrite (Hsolve (R * N + R + j)%nat) in E by lia.
    rewrite (C3 j Hj) in E. lra.
Qed.

(** The matrix that [ForceConsistencyConservation2] stores has kept its
    size, its rows sum to 1 and it conserves the first [N - 1] columns. *)
Theorem lagrangian_constraints (fMonotone : bool) (dCoeff2 : DataMatrix.t) :
  ForceConsistencyConservation2 dsysv vecSourceArea vecTargetArea dCoeff
    fMonotone = Solved dCoeff2 ->
  DataMatrix.GetRows dCoeff2 = R /\
  DataMatrix.GetColumns dCoeff2 = N /\
  (forall i, (i < R)%nat -> sumQ N (DataMatrix.get dCoeff2 i) == 1) /\
  (forall j, (j < N - 1)%nat ->
     sumQ R (fun i => a i * DataMatrix.get dCoeff2 i j) == sa j).
Proof.
  intro H.
  destruct (lagrangian_solution fMonotone dCoeff2 H)
    as (S1 & S2 & x & E0 & _ & E2 & E3).
  split; [exact S1|]. split; [exact S2|]. split.
  - intros i Hi. rewrite <- (E2 i Hi). apply sumQ_ext.
    intros j Hj. rewrite (E0 i j Hi Hj). reflexivity.
  - intros j Hj. rewrite <- (E3 j Hj). apply sumQ_ext.
    intros i Hi. rewrite (E0 i j Hi) by lia. reflexivity.
Qed.

(** [ForceConsistencyConservation2] and [ForceConsistencyConservation3]
    without the monotone blend store the same coefficients: the solution
    of the Lagrangian system is the correction by the Schur system. *)
Theorem lagrangian_agrees_with_schur (dposv : Blas.dposv_t) (fMonotone : bool)
  (dCoeff2 dCoeff3 : DataMatrix.t) :
  Blas.dposv_solves dposv ->
  ForceConsistencyConservation2 dsysv vecSourceArea vecTargetArea dCoeff
    fMonotone = Solved dCoeff2 ->
  Corrector.ForceConsistencyConservation3 dposv vecSourceArea vecTargetArea
    dCoeff false = Ok dCoeff3 ->
  forall i j, (i < R)%nat -> (j < N)%nat ->
    DataMatrix.get dCoeff2 i j == DataMatrix.get dCoeff3 i j.
Proof.
  intros ok H2 H3.
  destruct (lagrangian_solution fMonotone dCoeff2 H2)
    as (_ & _ & x & E0 & E1 & E2 & E3).
  assert (Hrow2 : forall i, (i < R)%nat ->
            sumQ N (DataMatrix.get dCoeff2 i) == 1).
  { intros i Hi. rewrite <- (E2 i Hi). apply sumQ_ext.
    intros j Hj. rewrite (E0 i j Hi Hj). reflexivity. }
  assert (Hcol2 : forall j, (j < N - 1)%nat ->
            sumQ R (fun i => a i * DataMatrix.get dCoeff2 i j) == sa j).
  { intros j Hj. rewrite <- (E3 j Hj). apply sumQ_ext.
    intros i Hi. rewrite (E0 i j Hi) by lia. reflexivity. }
  destruct (CorrectorFacts.corrector_solution vecSourceArea vecTargetArea
              dCoeff N_pos dposv ok _ H3) as (_ & _ & z & _ & _ & Ez).
  apply (CorrectorFacts.correction_unique vecSourceArea vecTargetArea dCoeff
           N_pos (fun k => - x (R * N + k)%nat) z
           (DataMatrix.get dCoeff2) (DataMatrix.get dCoeff3)).
  - intros i j Hi Hj. rewrite (E0 i j Hi Hj).
    specialize (E1 i j Hi Hj).
    replace (R * N + (R + j))%nat with (R * N + R + j)%nat by lia.
    destruct (j <? N - 1)%nat; lra.
  - exact Ez.
  - exact Hrow2.
  - exact (CorrectorFacts.corrector_row_sums vecSourceArea vecTargetArea
             dCoeff N_pos dposv ok _ H3).
  - exact Hcol2.
  - exact (CorrectorFacts.corrector_conservation_kept vecSourceArea
             vecTargetArea dCoeff N_pos dposv ok _ H3).
Qed.

End Loops.

Lemma lagrangian_constraints_witness :
  exists dCoeff2,
    ForceConsistencyConservation2 Blas.dposv_elim Sample.vecSourceArea
      Sample.vecTargetArea Sample.dCoeff false = Solved dCoeff2 /\
    (forall i, (i < 2)%nat -> sumQ 4 (DataMatrix.get dCoeff2 i) == 1) /\
    (forall j, (j < 3)%nat ->
       sumQ 2 (fun i =>
         DataVector.get Sample.vecTargetArea i * DataMatrix.get dCoeff2 i j)
       == DataVector.get Sample.vecSourceArea j).
Proof.
  assert (Hrun :
    match
      ForceConsistencyConservation2 Blas.dposv_elim Sample.vecSourceArea
        Sample.vecTargetArea Sample.dCoeff false
    with
    | Solved _ => True
    | CannotSolveTargetSystem _ => False
    end) by (vm_compute; exact I).
  destruct (ForceConsistencyConservation2 Blas.dposv_elim Sample.vecSourceArea
              Sample.vecTargetArea Sample.dCoeff false) as [M | e] eqn:E;
    [|contradiction].
  exists M. split; [reflexivity|].
  destruct (lagrangian_constraints Sample.vecSourceArea Sample.vecTargetArea
              Sample.dCoeff ltac:(simpl; lia) Blas.dposv_elim
              dposv_elim_solves false M E) as (_ & _ & H1 & H2).
  split; assumption.
Defined.

Lemma lagrangian_agrees_with_schur_witness :
  exists dCoeff2 dCoeff3,
    ForceConsistencyConservation2 Blas.dposv_elim Sample.vecSourceArea
      Sample.vecTargetArea Sample.dCoeff false = Solved dCoeff2 /\
    Corrector.ForceConsistencyConservation3 Blas.dposv_elim
      Sample.vecSourceArea Sample.vecTargetArea Sample.dCoeff false
    = Ok dCoeff3 /\
    forall i j, (i < 2)%nat -> (j < 4)%nat ->
      DataMatrix.get dCoeff2 i j == DataMatrix.get dCoeff3 i j.
Proof.
  assert (Hrun :
    match
      ForceConsistencyConservation2 Blas.dposv_elim Sample.vecSourceArea
        Sample.vecTargetArea Sample.dCoeff false
    with
    | Solved _ => True
    | CannotSolveTargetSystem _ => False
    end) by (vm_compute; exact I).
  destruct (ForceConsistencyConservation2 Blas.dposv_elim Sample.vecSourceArea
              Sample.vecTargetArea Sample.dCoeff false) as [M2 | e] eqn:E2;
    [|contradiction].
  destruct (Corrector.ForceConsistencyConservation3 Blas.dposv_elim
              Sample.vecSourceArea Sample.vecTargetArea Sample.dCoeff false)
    as [M3 | e] eqn:E3; [|vm_compute in E3; discriminate E3].
  exists M2, M3. split; [reflexivity|]. split; [reflexivity|].
  apply (lagrangian_agrees_with_schur Sample.vecSourceArea
           Sample.vecTargetArea Sample.dCoeff ltac:(simpl; lia)
           Blas.dposv_elim dposv_elim_solves Blas.dposv_elim false M2 M3
           dposv_elim_solves E2 E3).
Defined.

End Corrector2Facts.

(** ** The remap kernel *)

Module RemapFacts.

Import Remap ArrayFacts SumFacts.

(** *** Loops that can throw *)

Lemma for_loopM_S {S : Type} (n : nat) (body : nat -> S -> Result S) (s : S) :
  for_loopM (Datatypes.S n) body s
  = bind (for_loopM n body s) (body n).
Proof. reflexivity. Qed.

(** A loop throws [e] exactly when some iteration is reached and its body
    throws [e]. *)
Lemma for_loopM_Err {S : Type} (n : nat) (body : nat -> S -> Result S)
  (s : S) (e : Exception) :
  for_loopM n body s = Err e <->
  exists i s', (i < n)%nat /\ for_loopM i body s = Ok s' /\ body i s' = Err e.
Proof.
  induction n as [|n IH].
  - simpl. split; [discriminate|]. intros (i & s' & Hi & _). lia.
  - rewrite for_loopM_S. split.
    + destruct (for_loopM n body s) as [sn | en] eqn:E; simpl; intro H.
      * exists n, sn. split; [lia|]. split; [exact E | exact H].
      * injection H as <-. destruct IH as [IH _].
        destruct (IH eq_refl) as (i & s' & Hi & H1 & H2).
        exists i, s'. split; [lia|]. split; assumption.
    + intros (i & s' & Hi & H1 & H2).
      destruct (Nat.eq_dec i n) as [-> | Hne].
      * rewrite H1. simpl. exact H2.
      * destruct IH as [_ IH]. rewrite IH; [reflexivity|].
        exists i, s'. split; [lia|]. split; assumption.
Qed.

(** The iterations before a completed loop have completed. *)
Lemma for_loopM_prefix {S : Type} (n : nat) (body : nat -> S -> Result S)
  (s sn : S) :
  for_loopM n body s = Ok sn ->
  forall i, (i <= n)%nat -> exists si, for_loopM i body s = Ok si.
Proof.
  revert sn. induction n as [|n IH]; intros sn H i Hi.
  - assert (i = 0)%nat by lia. subst i. exists s. reflexivity.
  - destruct (Nat.eq_dec i (Datatypes.S n)) as [-> | Hne].
    + exists sn. exact H.
    + rewrite for_loopM_S in H.
      destruct (for_loopM n body s) as [s' | e] eqn:E; [|discriminate].
      apply (IH s' eq_refl). lia.
Qed.

(** Induction on the iterations of a loop that completes. *)
Lemma for_loopM_ind {S : Type} (P : nat -> S -> Prop)
  (body : nat -> S -> Result S) (s0 sn : S) (n : nat) :
  P 0%nat s0 ->
  (forall i s s', (i < n)%nat -> P i s -> body i s = Ok s' ->
     P (Datatypes.S i) s') ->
  for_loopM n body s0 = Ok sn ->
  P n sn.
Proof.
  intros H0 Hstep. revert sn. induction n as [|n IH]; intros sn H.
  - injection H as <-. exact H0.
  - rewrite for_loopM_S in H.
    destruct (for_loopM n body s0) as [s' | e] eqn:E; [|discriminate].
    simpl in H. apply (Hstep n s' sn); [lia | | exact H].
    apply IH; [|reflexivity]. intros i s1 s2 Hi. apply Hstep. lia.
Qed.

(** A loop whose body cannot throw completes. *)
Lemma for_loopM_total {S : Type} (n : nat) (body : nat -> S -> Result S)
  (s : S) :
  (forall i s', (i < n)%nat -> exists s'', body i s' = Ok s'') ->
  exists sn, for_loopM n body s = Ok sn.
Proof.
  induction n as [|n IH]; intro H.
  - exists s. reflexivity.
  - destruct IH as (sn & Hn); [intros; apply H; lia|].
    rewrite for_loopM_S, Hn. simpl. apply H. lia.
Qed.

(** *** The quadrature accumulator *)

Section Kernel.

Variable ext : Collaborators.
Variables meshInput meshOutput meshOverlap : Mesh.
Variable dataGLLNodes : DataMatrix3D Z.
Variable dataGLLJacobian : DataMatrix3D Q.
Variable fMonotone : bool.

Local Abbreviation nP := (GetRows dataGLLNodes).

Lemma inverse_map_out_of_range_iff (dAlpha dBeta : Q) :
  inverse_map_out_of_range dAlpha dBeta = true <->
  dAlpha < 0 \/ 1 < dAlpha \/ dBeta < 0 \/ 1 < dBeta.
Proof.
  unfold inverse_map_out_of_range. rewrite !orb_true_iff, !Qltb_lt. tauto.
Qed.

(** Two nested loops over [p] and [q] that rewrite the cells of layer
    [j]. *)
Lemma upd3_loops (n j : nat) (g : nat -> nat -> Q -> Q) (c : Coeff3) :
  forall p q j',
    for_loop n (fun p =>
      for_loop n (fun q c' => upd3 c' p q j (g p q (c' p q j)))) c p q j'
    = if ((p <? n) && (q <? n) && (j' =? j))%nat then g p q (c p q j)
      else c p q j'.
Proof.
  apply (for_loop_ind (fun m c' =>
    forall p q j',
      c' p q j'
      = if ((p <? m) && (q <? n) && (j' =? j))%nat then g p q (c p q j)
        else c p q j')).
  - intros. reflexivity.
  - intros p0 c0 Hp0 H0.
    assert (Hrow : forall p q j',
      for_loop n (fun q c' => upd3 c' p0 q j (g p0 q (c' p0 q j))) c0 p q j'
      = if ((p =? p0) && (q <? n) && (j' =? j))%nat then g p q (c0 p q j)
        else c0 p q j').
    { apply (for_loop_ind (fun m c' =>
        forall p q j',
          c' p q j'
          = if ((p =? p0) && (q <? m) && (j' =? j))%nat then g p q (c0 p q j)
            else c0 p q j')).
      - intros. rewrite andb_false_r. reflexivity.
      - intros q0 c1 Hq0 H1 p q j'. unfold upd3. rewrite !H1.
        rewrite Nat.eqb_refl, Nat.ltb_irrefl. cbn [andb]. nat_cases. }
    intros p q j'. rewrite Hrow, !H0. nat_cases.
Qed.

(** One quadrature point: either the inverse map is out of range and the
    point throws, or the term of the point is added to the cells of
    layer [j]. *)
Lemma quadrature_point_spec (faceFirst faceOverlap : Face)
  (ixOverlap j k l : nat) (c : Coeff3) :
  let ab := inverse_map_at ext meshInput meshOverlap faceFirst faceOverlap k l in
  let r :=
    quadrature_point ext meshInput meshOverlap dataGLLNodes fMonotone
      faceFirst ixOverlap j
      (node_at (nodes meshOverlap) (face_node faceOverlap 0))
      (node_at (nodes meshOverlap) (face_node faceOverlap (k + 1)))
      (node_at (nodes meshOverlap) (face_node faceOverlap (k + 2)))
      (CalculateFaceArea ext (fan_triangle faceOverlap k) (nodes meshOverlap))
      l c in
  (inverse_map_out_of_range (fst ab) (snd ab) = true ->
   r = Err (InverseMapOutOfRange (fst ab) (snd ab))) /\
  (inverse_map_out_of_range (fst ab) (snd ab) = false ->
   exists c', r = Ok c' /\
     forall p q j',
       c' p q j'
       = if ((p <? nP) && (q <? nP) && (j' =? j))%nat
         then c p q j
              + quadrature_term ext meshInput meshOverlap dataGLLNodes
                  fMonotone faceFirst faceOverlap ixOverlap j k l p q
         else c p q j').
Proof.
  intros ab r. unfold r, quadrature_point. fold ab.
  unfold inverse_map_at in ab. cbv zeta. fold ab.
  split; intro H; rewrite H; [reflexivity|].
  eexists. split; [reflexivity|].
  intros p q j'.
  rewrite (upd3_loops nP j (fun p q v =>
    v + TriQuadratureW ext l
        * CalculateFaceArea ext (fan_triangle faceOverlap k) (nodes meshOverlap)
        * SampleGLLFiniteElement ext fMonotone nP (fst ab) (snd ab) p q
        / vecFaceArea meshOverlap (ixOverlap + j))).
  reflexivity.
Qed.

Local Abbreviation term :=
  (quadrature_term ext meshInput meshOverlap dataGLLNodes fMonotone).



(** The vertex [i] of the overlap face [ixOverlap + j]. *)
Local Abbreviation vertex :=
  (fun (ixOverlap j i : nat) =>
     node_at (nodes meshOverlap)
       (face_node (face_at meshOverlap (Nat.add ixOverlap j)) i)).

(** [w_l * A_tri * S[p][q] / overlapFaceArea[j]] for the triangle
    [(v0, v(k+1), v(k+2))] of the fan of the overlap face [j], written out:
    [A_tri] is the area of the triangle, and [S] the basis sampled at the
    inverse map of the barycentric node
    [G[l][0] * v0 + G[l][1] * v(k+1) + G[l][2] * v(k+2)] divided by its
    norm. *)
Local Abbreviation sample_term :=
  (fun (faceFirst : Face) (ixOverlap j k l p q : nat) =>
     let v0 := vertex ixOverlap j 0%nat in
     let v1 := vertex ixOverlap j (Nat.add k 1) in
     let v2 := vertex ixOverlap j (Nat.add k 2) in
     let bx := TriQuadratureG ext l 0%nat * x v0
               + TriQuadratureG ext l 1%nat * x v1
               + TriQuadratureG ext l 2%nat * x v2 in
     let by_ := TriQuadratureG ext l 0%nat * y v0
                + TriQuadratureG ext l 1%nat * y v1
                + TriQuadratureG ext l 2%nat * y v2 in
     let bz := TriQuadratureG ext l 0%nat * z v0
               + TriQuadratureG ext l 1%nat * z v1
               + TriQuadratureG ext l 2%nat * z v2 in
     let norm := sqrt ext (bx * bx + by_ * by_ + bz * bz) in
     let ab :=
       ApplyInverseMap ext faceFirst (nodes meshInput)
         (mkNode (bx / norm) (by_ / norm) (bz / norm)) in
     TriQuadratureW ext l
     * CalculateFaceArea ext
         (mkFace
            [face_node (face_at meshOverlap (Nat.add ixOverlap j)) 0;
             face_node (face_at meshOverlap (Nat.add ixOverlap j))
               (Nat.add k 1);
             face_node (face_at meshOverlap (Nat.add ixOverlap j))
               (Nat.add k 2)])
         (nodes meshOverlap)
     * SampleGLLFiniteElement ext fMonotone nP (fst ab) (snd ab) p q
     / vecFaceArea meshOverlap (Nat.add ixOverlap j)).


(** *** Which exception is thrown where *)

Lemma quadrature_point_Err (faceFirst faceOverlap : Face)
  (ixOverlap j k l : nat) (c : Coeff3) (e : Exception) :
  quadrature_point ext meshInput meshOverlap dataGLLNodes fMonotone
    faceFirst ixOverlap j
    (node_at (nodes meshOverlap) (face_node faceOverlap 0))
    (node_at (nodes meshOverlap) (face_node faceOverlap (k + 1)))
    (node_at (nodes meshOverlap) (face_node faceOverlap (k + 2)))
    (CalculateFaceArea ext (fan_triangle faceOverlap k) (nodes meshOverlap))
    l c = Err e <->
  (let ab := inverse_map_at ext meshInput meshOverlap faceFirst faceOverlap k l in
   e = InverseMapOutOfRange (fst ab) (snd ab) /\
   (fst ab < 0 \/ 1 < fst ab \/ snd ab < 0 \/ 1 < snd ab)).
Proof.
  cbv zeta.
  destruct (quadrature_point_spec faceFirst faceOverlap ixOverlap j k l c)
    as (Herr & Hok).
  cbv zeta in Herr, Hok. rewrite <- inverse_map_out_of_range_iff.
  destruct (inverse_map_out_of_range _ _) eqn:E.
  - rewrite (Herr eq_refl). split.
    + intro H. injection H as <-. split; reflexivity.
    + intros (-> & _). reflexivity.
  - destruct (Hok eq_refl) as (c1 & -> & _). split.
    + discriminate.
    + intros (_ & H). discriminate.
Qed.

(** The accumulation of a source face throws [e] exactly when the loops
    arrive at a quadrature point where the inverse map is out of range. *)
Lemma local_coefficients_Err (faceFirst : Face) (ixOverlap nOverlapFaces : nat)
  (e : Exception) :
  local_coefficients ext meshInput meshOverlap dataGLLNodes fMonotone
    faceFirst ixOverlap nOverlapFaces = Err e <->
  exists j k l c,
    (j < nOverlapFaces)%nat /\
    (k < List.length (edges (face_at meshOverlap (ixOverlap + j))) - 2)%nat /\
    (l < TriQuadraturePoints ext)%nat /\
    coefficients_before ext meshInput meshOverlap dataGLLNodes fMonotone
      faceFirst ixOverlap j k l = Ok c /\
    (let ab := inverse_map_at ext meshInput meshOverlap faceFirst
                 (face_at meshOverlap (ixOverlap + j)) k l in
     e = InverseMapOutOfRange (fst ab) (snd ab) /\
     (fst ab < 0 \/ 1 < fst ab \/ snd ab < 0 \/ 1 < snd ab)).
Proof.
  unfold local_coefficients, coefficients_before. rewrite for_loopM_Err.
  split.
  - intros (j & c1 & Hj & H1 & H2).
    unfold overlap_face in H2. cbv zeta in H2.
    apply for_loopM_Err in H2. destruct H2 as (k & c2 & Hk & H2 & H3).
    unfold sub_triangle in H3. cbv zeta in H3.
    apply for_loopM_Err in H3. destruct H3 as (l & c3 & Hl & H3 & H4).
    apply quadrature_point_Err in H4.
    exists j, k, l, c3. split; [exact Hj|]. split; [exact Hk|]. split; [exact Hl|].
    split; [|exact H4].
    cbv zeta. rewrite H1. simpl. rewrite H2. simpl. exact H3.
  - intros (j & k & l & c3 & Hj & Hk & Hl & Hbefore & Hab).
    cbv zeta in Hbefore.
    destruct (for_loopM j _ _) as [c1 | e1] eqn:E1; [|discriminate].
    simpl in Hbefore.
    destruct (for_loopM k _ c1) as [c2 | e2] eqn:E2; [|discriminate].
    simpl in Hbefore.
    exists j, c1. split; [exact Hj|]. split; [exact E1|].
    unfold overlap_face. cbv zeta. apply for_loopM_Err.
    exists k, c2. split; [exact Hk|]. split; [exact E2|].
    unfold sub_triangle. cbv zeta. apply for_loopM_Err.
    exists l, c3. split; [exact Hl|]. split; [exact Hbefore|].
    apply quadrature_point_Err. exact Hab.
Qed.

Lemma corrector_Err (vecSourceArea vecTargetArea : DataVector.t)
  (dCoeff : DataMatrix.t) (e : Exception) :
  Corrector.ForceConsistencyConservation3 (dposv ext) vecSourceArea
    vecTargetArea dCoeff fMonotone = Err e ->
  exists nInfo, e = SchurSolveFailed nInfo /\ nInfo <> 0%Z.
Proof.
  unfold Corrector.ForceConsistencyConservation3. cbv zeta.
  match goal with
  | |- context [negb (?t =? 0)%Z] => destruct (Z.eqb_spec t 0) as [H0 | H0]
  end; simpl negb; cbv iota.
  - destruct fMonotone; discriminate.
  - intro H. injection H as <-. eexists. split; [reflexivity | exact H0].
Qed.

Lemma force_consistency_conservation_Err (ixFirst ixOverlap nOverlapFaces : nat)
  (dRemapCoeff : Coeff3) (e : Exception) :
  force_consistency_conservation ext meshInput meshOverlap dataGLLNodes
    dataGLLJacobian fMonotone ixFirst ixOverlap nOverlapFaces dRemapCoeff
  = Err e ->
  exists nInfo, e = SchurSolveFailed nInfo /\ nInfo <> 0%Z.
Proof.
  unfold force_consistency_conservation. cbv zeta.
  destruct (Qltb _ _); [discriminate|].
  destruct (Corrector.ForceConsistencyConservation3 _ _ _ _ _) as [M | e']
    eqn:E; simpl; [discriminate|].
  intro H. injection H as <-. apply (corrector_Err _ _ _ _ E).
Qed.

(** The exceptions of one input face. *)
Lemma element_Err (ixFirst : nat) (st : State) (e : Exception) :
  element ext meshInput meshOutput meshOverlap dataGLLNodes dataGLLJacobian
    fMonotone ixFirst st = Err e <->
  (List.length (edges (face_at meshInput ixFirst)) <> 4%nat
   /\ e = UnsupportedElement) \/
  (List.length (edges (face_at meshInput ixFirst)) = 4%nat /\
   let nOverlapFaces := overlap_faces_of meshOverlap ixFirst st in
   nOverlapFaces <> 0%nat /\
   (local_coefficients ext meshInput meshOverlap dataGLLNodes fMonotone
      (face_at meshInput ixFirst) (ixOverlap st) nOverlapFaces = Err e \/
    exists dRemapCoeff,
      local_coefficients ext meshInput meshOverlap dataGLLNodes fMonotone
        (face_at meshInput ixFirst) (ixOverlap st) nOverlapFaces
      = Ok dRemapCoeff /\
      force_consistency_conservation ext meshInput meshOverlap dataGLLNodes
        dataGLLJacobian fMonotone ixFirst (ixOverlap st) nOverlapFaces
        dRemapCoeff = Err e)).
Proof.
  unfold element, overlap_faces_of. cbv zeta.
  destruct (Nat.eqb_spec (List.length (edges (face_at meshInput ixFirst))) 4)
    as [H4 | H4]; simpl negb; cbv iota.
  - destruct (Nat.eqb_spec
                (count_overlap_faces meshOverlap
                   (List.length (faces meshOverlap) - ixOverlap st)
                   ixFirst (ixOverlap st) 0) 0) as [H0 | H0].
    + split; [discriminate|]. intros [(Hc & _) | (_ & Hc & _)]; contradiction.
    + destruct (local_coefficients _ _ _ _ _ _ _ _) as [c | e1] eqn:E1; simpl.
      * destruct (force_consistency_conservation _ _ _ _ _ _ _ _ _ _)
          as [r | e2] eqn:E2; simpl.
        -- split; [discriminate|].
           intros [(Hc & _) | (_ & _ & [Hc | (c' & Hc1 & Hc2)])];
             [contradiction | discriminate |].
           injection Hc1 as <-. rewrite E2 in Hc2. discriminate.
        -- split.
           ++ intro H. injection H as <-. right. split; [exact H4|].
              split; [exact H0|]. right. exists c. split; [reflexivity | exact E2].
           ++ intros [(Hc & _) | (_ & _ & [Hc | (c' & Hc1 & Hc2)])];
                [contradiction | discriminate |].
              injection Hc1 as <-. rewrite E2 in Hc2. injection Hc2 as <-.
              reflexivity.
      * split.
        -- intro H. injection H as <-. right. split; [exact H4|].
           split; [exact H0|]. left. reflexivity.
        -- intros [(Hc & _) | (_ & _ & [Hc | (c' & Hc1 & _)])];
             [contradiction | injection Hc as <-; reflexivity | discriminate].
  - split.
    + intro H. injection H as <-. left. split; [exact H4 | reflexivity].
    + intros [(_ & ->) | (Hc & _)]; [reflexivity | contradiction].
Qed.

Local Abbreviation run :=
  (LinearRemapSE4 ext meshInput meshOutput meshOverlap dataGLLNodes
     dataGLLJacobian fMonotone).
Local Abbreviation upto :=
  (elements_upto ext meshInput meshOutput meshOverlap dataGLLNodes
     dataGLLJacobian fMonotone).

(** The run throws [e] exactly when it arrives at an input face whose body
    throws [e]. *)
Lemma run_Err (smatMap0 : SparseMatrix) (e : Exception) :
  run smatMap0 = Err e <->
  exists ixFirst st,
    (ixFirst < List.length (faces meshInput))%nat /\
    upto ixFirst smatMap0 = Ok st /\
    element ext meshInput meshOutput meshOverlap dataGLLNodes dataGLLJacobian
      fMonotone ixFirst st = Err e.
Proof. unfold LinearRemapSE4, elements_upto. apply for_loopM_Err. Qed.

Lemma run_unsupported_element (smatMap0 : SparseMatrix) :
  run smatMap0 = Err UnsupportedElement <->
  exists ixFirst st,
    (ixFirst < List.length (faces meshInput))%nat /\
    upto ixFirst smatMap0 = Ok st /\
    List.length (edges (face_at meshInput ixFirst)) <> 4%nat.
Proof.
  rewrite run_Err. split.
  - intros (ixFirst & st & Hlt & Hst & He).
    exists ixFirst, st. split; [exact Hlt|]. split; [exact Hst|].
    apply element_Err in He.
    destruct He as [(H4 & _) | (_ & _ & [He | (c & _ & He)])].
    + exact H4.
    + apply local_coefficients_Err in He.
      destruct He as (j & k & l & c & _ & _ & _ & _ & He & _). discriminate.
    + apply force_consistency_conservation_Err in He.
      destruct He as (n & He & _). discriminate.
  - intros (ixFirst & st & Hlt & Hst & H4).
    exists ixFirst, st. split; [exact Hlt|]. split; [exact Hst|].
    apply element_Err. left. split; [exact H4 | reflexivity].
Qed.

Lemma run_inverse_map_out_of_range (smatMap0 : SparseMatrix) (a b : Q) :
  run smatMap0 = Err (InverseMapOutOfRange a b) <->
  exists ixFirst st j k l c,
    (ixFirst < List.length (faces meshInput))%nat /\
    upto ixFirst smatMap0 = Ok st /\
    List.length (edges (face_at meshInput ixFirst)) = 4%nat /\
    (j < overlap_faces_of meshOverlap ixFirst st)%nat /\
    (k < List.length (edges (face_at meshOverlap (ixOverlap st + j))) - 2)%nat /\
    (l < TriQuadraturePoints ext)%nat /\
    coefficients_before ext meshInput meshOverlap dataGLLNodes fMonotone
      (face_at meshInput ixFirst) (ixOverlap st) j k l = Ok c /\
    inverse_map_at ext meshInput meshOverlap (face_at meshInput ixFirst)
      (face_at meshOverlap (ixOverlap st + j)) k l = (a, b) /\
    (a < 0 \/ 1 < a \/ b < 0 \/ 1 < b).
Proof.
  rewrite run_Err. split.
  - intros (ixFirst & st & Hlt & Hst & He).
    apply element_Err in He.
    destruct He as [(_ & He) | (H4 & _ & [He | (c & _ & He)])].
    + discriminate.
    + apply local_coefficients_Err in He.
      destruct He as (j & k & l & c & Hj & Hk & Hl & Hc & He & Hout).
      injection He as Ha Hb. subst a b.
      exists ixFirst, st, j, k, l, c.
      split; [exact Hlt|]. split; [exact Hst|]. split; [exact H4|].
      split; [exact Hj|]. split; [exact Hk|]. split; [exact Hl|].
      split; [exact Hc|].
      split; [apply surjective_pairing | exact Hout].
    + apply force_consistency_conservation_Err in He.
      destruct He as (n & He & _). discriminate.
  - intros (ixFirst & st & j & k & l & c & Hlt & Hst & H4 & Hj & Hk & Hl & Hc
            & Hab & Hout).
    exists ixFirst, st. split; [exact Hlt|]. split; [exact Hst|].
    apply element_Err. right. split; [exact H4|]. cbv zeta.
    split; [lia|]. left. apply local_coefficients_Err.
    exists j, k, l, c. split; [exact Hj|]. split; [exact Hk|].
    split; [exact Hl|]. split; [exact Hc|]. cbv zeta. rewrite Hab.
    split; [reflexivity | exact Hout].
Qed.

(** C7: the run throws [UnsupportedElement] exactly when it arrives at an
    input face that does not have 4 edges; and the body of such a face
    throws before anything else, whatever the state and the
    collaborators. *)
Theorem unsupported_element_iff (smatMap0 : SparseMatrix) :
  (run smatMap0 = Err UnsupportedElement <->
   exists ixFirst st,
     (ixFirst < List.length (faces meshInput))%nat /\
     upto ixFirst smatMap0 = Ok st /\
     List.length (edges (face_at meshInput ixFirst)) <> 4%nat) /\
  (forall ixFirst st,
     List.length (edges (face_at meshInput ixFirst)) <> 4%nat ->
     element ext meshInput meshOutput meshOverlap dataGLLNodes dataGLLJacobian
       fMonotone ixFirst st = Err UnsupportedElement).
Proof.
  split.
  - apply run_unsupported_element.
  - intros ixFirst st H4. apply element_Err. left.
    split; [exact H4 | reflexivity].
Qed.

(** C6, as the code has it: the run throws [InverseMapOutOfRange] with the
    values [(a, b)] exactly when it arrives at a quadrature point where the
    inverse map returns [(a, b)] with [a < 0], [a > 1], [b < 0] or [b > 1],
    with no tolerance; and at a point in range the basis is sampled at the
    values returned, as they are. *)
Theorem inverse_map_out_of_range_iff_strict (smatMap0 : SparseMatrix) (a b : Q) :
  (run smatMap0 = Err (InverseMapOutOfRange a b) <->
   exists ixFirst st j k l c,
     (ixFirst < List.length (faces meshInput))%nat /\
     upto ixFirst smatMap0 = Ok st /\
     List.length (edges (face_at meshInput ixFirst)) = 4%nat /\
     (j < overlap_faces_of meshOverlap ixFirst st)%nat /\
     (k < List.length (edges (face_at meshOverlap (ixOverlap st + j))) - 2)%nat /\
     (l < TriQuadraturePoints ext)%nat /\
     coefficients_before ext meshInput meshOverlap dataGLLNodes fMonotone
       (face_at meshInput ixFirst) (ixOverlap st) j k l = Ok c /\
     inverse_map_at ext meshInput meshOverlap (face_at meshInput ixFirst)
       (face_at meshOverlap (ixOverlap st + j)) k l = (a, b) /\
     (a < 0 \/ 1 < a \/ b < 0 \/ 1 < b)) /\
  (forall faceFirst faceOverlap ixOverlap j k l c,
     inverse_map_at ext meshInput meshOverlap faceFirst faceOverlap k l = (a, b) ->
     0 <= a <= 1 -> 0 <= b <= 1 ->
     exists c',
       quadrature_point ext meshInput meshOverlap dataGLLNodes fMonotone
         faceFirst ixOverlap j
         (node_at (nodes meshOverlap) (face_node faceOverlap 0))
         (node_at (nodes meshOverlap) (face_node faceOverlap (k + 1)))
         (node_at (nodes meshOverlap) (face_node faceOverlap (k + 2)))
         (CalculateFaceArea ext (fan_triangle faceOverlap k) (nodes meshOverlap))
         l c = Ok c' /\
       forall p q, (p < nP)%nat -> (q < nP)%nat ->
         c' p q j
         = c p q j
           + TriQuadratureW ext l
             * CalculateFaceArea ext (fan_triangle faceOverlap k)
                 (nodes meshOverlap)
             * SampleGLLFiniteElement ext fMonotone nP a b p q
             / vecFaceArea meshOverlap (ixOverlap + j)).
Proof.
  split.
  - apply run_inverse_map_out_of_range.
  - intros faceFirst faceOverlap ixOverlap j k l c Hab Ha Hb.
    destruct (quadrature_point_spec faceFirst faceOverlap ixOverlap j k l c)
      as (_ & Hok).
    cbv zeta in Hok.
    assert (Hin : inverse_map_out_of_range
                    (fst (inverse_map_at ext meshInput meshOverlap faceFirst
                            faceOverlap k l))
                    (snd (inverse_map_at ext meshInput meshOverlap faceFirst
                            faceOverlap k l)) = false).
    { rewrite Hab. cbn [fst snd].
      destruct (inverse_map_out_of_range a b) eqn:E; [|reflexivity].
      apply inverse_map_out_of_range_iff in E. lra. }
    destruct (Hok Hin) as (c' & Hc' & Hcell).
    exists c'. split; [exact Hc'|].
    intros p q Hp Hq. rewrite Hcell.
    destruct (Nat.ltb_spec p nP); [|lia].
    destruct (Nat.ltb_spec q nP); [|lia].
    rewrite Nat.eqb_refl. cbn [andb]. unfold quadrature_term.
    rewrite Hab. reflexivity.
Qed.

(** *** Partial coverage *)

Lemma target_areas_loop (ixOverlap m : nat) (v0 : DataVector.t) :
  let st := for_loop m (fun j (st : DataVector.t * Q) =>
    (DataVector.set (fst st) j (vecFaceArea meshOverlap (ixOverlap + j)),
     snd st + vecFaceArea meshOverlap (ixOverlap + j))) (v0, 0) in
  snd st = sumQ m (fun j => vecFaceArea meshOverlap (ixOverlap + j)) /\
  DataVector.GetRows (fst st) = DataVector.GetRows v0 /\
  forall j, (j < m)%nat ->
    DataVector.get (fst st) j = vecFaceArea meshOverlap (ixOverlap + j).
Proof.
  induction m as [|m IH]; cbv zeta.
  - split; [reflexivity|]. split; [reflexivity|]. intros; lia.
  - destruct IH as (I1 & I2 & I3). simpl for_loop. cbn [fst snd].
    split; [rewrite I1; reflexivity|]. split; [exact I2|].
    intros j Hj. unfold DataVector.get, DataVector.set. cbn [DataVector.data].
    unfold upd. destruct (Nat.eqb_spec j m) as [-> | Hne]; [reflexivity|].
    apply I3. lia.
Qed.

(** [vecTargetArea] holds the areas of the overlap faces of the element,
    and [dTargetArea] is their sum. *)
Lemma target_areas_spec (ixOverlap n : nat) :
  snd (target_areas meshOverlap ixOverlap n)
  = sumQ n (fun j => vecFaceArea meshOverlap (ixOverlap + j)) /\
  DataVector.GetRows (fst (target_areas meshOverlap ixOverlap n)) = n /\
  forall j, (j < n)%nat ->
    DataVector.get (fst (target_areas meshOverlap ixOverlap n)) j
    = vecFaceArea meshOverlap (ixOverlap + j).
Proof.
  unfold target_areas.
  destruct (target_areas_loop ixOverlap n (DataVector.Initialize n))
    as (H1 & H2 & H3).
  split; [exact H1|]. split; [exact H2 | exact H3].
Qed.

Lemma flat_lt (p q : nat) :
  (p < nP)%nat -> (q < nP)%nat -> (p * nP + q < nP * nP)%nat.
Proof.
  intros Hp Hq. apply (Nat.lt_le_trans _ (p * nP + nP)); [lia|].
  replace (p * nP + nP)%nat with ((p + 1) * nP)%nat by lia.
  apply Nat.mul_le_mono_r. lia.
Qed.

Lemma flatten_q (dRemapCoeff : Coeff3) (j0 p0 m : nat) (M0 : DataMatrix.t) :
  DataMatrix.GetColumns M0 = (nP * nP)%nat -> (p0 < nP)%nat -> (m <= nP)%nat ->
  let M := for_loop m (fun q dCoeff =>
             DataMatrix.set dCoeff j0 (p0 * nP + q) (dRemapCoeff p0 q j0)) M0 in
  DataMatrix.GetRows M = DataMatrix.GetRows M0 /\
  DataMatrix.GetColumns M = (nP * nP)%nat /\
  forall j p q, (p < nP)%nat -> (q < nP)%nat ->
    DataMatrix.get M j (p * nP + q)
    = if ((j =? j0) && (p =? p0) && (q <? m))%nat then dRemapCoeff p q j
      else DataMatrix.get M0 j (p * nP + q).
Proof.
  intros Hc Hp0 Hm.
  apply (for_loop_ind (fun n M =>
    DataMatrix.GetRows M = DataMatrix.GetRows M0 /\
    DataMatrix.GetColumns M = (nP * nP)%nat /\
    forall j p q, (p < nP)%nat -> (q < nP)%nat ->
      DataMatrix.get M j (p * nP + q)
      = if ((j =? j0) && (p =? p0) && (q <? n))%nat then dRemapCoeff p q j
        else DataMatrix.get M0 j (p * nP + q))).
  - split; [reflexivity|]. split; [exact Hc|]. intros.
    rewrite andb_false_r. reflexivity.
  - intros q0 M Hq0 (A1 & A2 & A3).
    split; [exact A1|]. split; [exact A2|].
    intros j p q Hp Hq.
    assert (Hq0' : (q0 < nP)%nat) by lia.
    pose proof (flat_lt p q Hp Hq) as L1.
    pose proof (flat_lt p0 q0 Hp0 Hq0') as L2.
    rewrite get_set by (rewrite A2; assumption).
    rewrite (A3 j p q Hp Hq).
    destruct (Nat.eqb_spec (p * nP + q) (p0 * nP + q0)) as [e | ne].
    + apply flat_index_inj in e as [-> ->]; [|assumption|assumption].
      rewrite Nat.eqb_refl, Nat.ltb_irrefl. nat_cases.
    + assert (p <> p0 \/ q <> q0)
        by (destruct (Nat.eq_dec p p0);
            [right; intro; subst; apply ne; reflexivity | left; assumption]).
      rewrite andb_false_r. nat_cases.
Qed.

Lemma flatten_p (dRemapCoeff : Coeff3) (j0 m : nat) (M0 : DataMatrix.t) :
  DataMatrix.GetColumns M0 = (nP * nP)%nat -> (m <= nP)%nat ->
  let M := for_loop m (fun p =>
             for_loop nP (fun q dCoeff =>
               DataMatrix.set dCoeff j0 (p * nP + q) (dRemapCoeff p q j0))) M0 in
  DataMatrix.GetRows M = DataMatrix.GetRows M0 /\
  DataMatrix.GetColumns M = (nP * nP)%nat /\
  forall j p q, (p < nP)%nat -> (q < nP)%nat ->
    DataMatrix.get M j (p * nP + q)
    = if ((j =? j0) && (p <? m))%nat then dRemapCoeff p q j
      else DataMatrix.get M0 j (p * nP + q).
Proof.
  intros Hc Hm.
  apply (for_loop_ind (fun n M =>
    DataMatrix.GetRows M = DataMatrix.GetRows M0 /\
    DataMatrix.GetColumns M = (nP * nP)%nat /\
    forall j p q, (p < nP)%nat -> (q < nP)%nat ->
      DataMatrix.get M j (p * nP + q)
      = if ((j =? j0) && (p <? n))%nat then dRemapCoeff p q j
        else DataMatrix.get M0 j (p * nP + q))).
  - split; [reflexivity|]. split; [exact Hc|]. intros.
    rewrite andb_false_r. reflexivity.
  - intros p0 M Hp0 (A1 & A2 & A3).
    destruct (flatten_q dRemapCoeff j0 p0 nP M A2 ltac:(lia) (Nat.le_refl _))
      as (B1 & B2 & B3).
    split; [rewrite B1; exact A1|]. split; [exact B2|].
    intros j p q Hp Hq. rewrite (B3 j p q Hp Hq), (A3 j p q Hp Hq).
    nat_cases.
Qed.

(** The flattened matrix: [dCoeff[j][p * nP + q] = dRemapCoeff[p][q][j]]. *)
Lemma flatten_spec (nOverlapFaces : nat) (dRemapCoeff : Coeff3) :
  DataMatrix.GetRows (flatten dataGLLNodes nOverlapFaces dRemapCoeff)
  = nOverlapFaces /\
  DataMatrix.GetColumns (flatten dataGLLNodes nOverlapFaces dRemapCoeff)
  = (nP * nP)%nat /\
  forall j p q, (j < nOverlapFaces)%nat -> (p < nP)%nat -> (q < nP)%nat ->
    DataMatrix.get (flatten dataGLLNodes nOverlapFaces dRemapCoeff) j (p * nP + q)
    = dRemapCoeff p q j.
Proof.
  unfold flatten.
  assert (H :
    let M := for_loop nOverlapFaces (fun j =>
      for_loop nP (fun p =>
        for_loop nP (fun q dCoeff =>
          DataMatrix.set dCoeff j (p * nP + q) (dRemapCoeff p q j))))
      (DataMatrix.Initialize nOverlapFaces (nP * nP)) in
    DataMatrix.GetRows M = nOverlapFaces /\
    DataMatrix.GetColumns M = (nP * nP)%nat /\
    forall j p q, (p < nP)%nat -> (q < nP)%nat ->
      DataMatrix.get M j (p * nP + q)
      = if (j <? nOverlapFaces)%nat then dRemapCoeff p q j else 0).
  { apply (for_loop_ind (fun n M =>
      DataMatrix.GetRows M = nOverlapFaces /\
      DataMatrix.GetColumns M = (nP * nP)%nat /\
      forall j p q, (p < nP)%nat -> (q < nP)%nat ->
        DataMatrix.get M j (p * nP + q)
        = if (j <? n)%nat then dRemapCoeff p q j else 0)).
    - split; [reflexivity|]. split; [reflexivity|]. intros. reflexivity.
    - intros j0 M0 Hj0 (A1 & A2 & A3).
      destruct (flatten_p dRemapCoeff j0 nP M0 A2 (Nat.le_refl _))
        as (B1 & B2 & B3).
      split; [rewrite B1; exact A1|]. split; [exact B2|].
      intros j p q Hp Hq. rewrite (B3 j p q Hp Hq), (A3 j p q Hp Hq).
      nat_cases. }
  destruct H as (H1 & H2 & H3).
  split; [exact H1|]. split; [exact H2|].
  intros j p q Hj Hp Hq. rewrite (H3 j p q Hp Hq).
  destruct (Nat.ltb_spec j nOverlapFaces); [reflexivity | lia].
Qed.

Local Abbreviation body :=
  (element ext meshInput meshOutput meshOverlap dataGLLNodes dataGLLJacobian
     fMonotone).
Local Abbreviation local_coeffs :=
  (local_coefficients ext meshInput meshOverlap dataGLLNodes fMonotone).
Local Abbreviation area := (vecFaceArea meshOverlap).

(** What is announced at the head of the body of an input face. *)
Local Abbreviation announced_element ixFirst st :=
  (if Nat.eqb (Nat.modulo ixFirst 100) 0
   then List.app (announced st) (cons (AnnounceElement ixFirst) nil)
   else announced st).

(** An input face without overlap face is left at once. *)
Lemma element_skipped (ixFirst : nat) (st : State) :
  List.length (edges (face_at meshInput ixFirst)) = 4%nat ->
  overlap_faces_of meshOverlap ixFirst st = 0%nat ->
  body ixFirst st
  = Ok (mkState (ixOverlap st) (smatMap st) (announced_element ixFirst st)).
Proof.
  intros H4 H0. unfold element. fold (overlap_faces_of meshOverlap ixFirst st).
  cbv zeta. rewrite H4, H0. reflexivity.
Qed.

(** An input face whose overlap faces do not cover it: the raw coefficients
    go to the map and the face is announced; the corrector is not part of
    the result. *)
Lemma element_partial (ixFirst : nat) (st : State) (dRemapCoeff : Coeff3) :
  List.length (edges (face_at meshInput ixFirst)) = 4%nat ->
  overlap_faces_of meshOverlap ixFirst st <> 0%nat ->
  local_coeffs (face_at meshInput ixFirst) (ixOverlap st)
    (overlap_faces_of meshOverlap ixFirst st) = Ok dRemapCoeff ->
  coverage_tolerance
  < Qabs (sumQ (overlap_faces_of meshOverlap ixFirst st)
            (fun j => area (ixOverlap st + j))
          - vecFaceArea meshInput ixFirst) ->
  body ixFirst st
  = Ok (mkState
          (ixOverlap st + overlap_faces_of meshOverlap ixFirst st)
          (put_in_map meshOutput meshOverlap dataGLLNodes ixFirst (ixOverlap st)
             (overlap_faces_of meshOverlap ixFirst st) dRemapCoeff (smatMap st))
          (announced_element ixFirst st ++ [AnnouncePartialElement ixFirst])).
Proof.
  intros H4 H0 Hloc Hpart. unfold element. fold (overlap_faces_of meshOverlap ixFirst st).
  cbv zeta. rewrite H4. cbn [Nat.eqb negb].
  destruct (Nat.eqb_spec (overlap_faces_of meshOverlap ixFirst st) 0);
    [contradiction|].
  rewrite Hloc. cbn [bind].
  unfold force_consistency_conservation. cbv zeta.
  destruct (target_areas_spec (ixOverlap st)
              (overlap_faces_of meshOverlap ixFirst st)) as (T1 & _).
  rewrite T1. apply Qltb_lt in Hpart. rewrite Hpart. reflexivity.
Qed.

(** An input face that its overlap faces cover: the corrector runs on the
    flattened coefficients, and what it returns goes to the map. *)
Lemma element_covered (ixFirst : nat) (st : State) (dRemapCoeff : Coeff3) :
  List.length (edges (face_at meshInput ixFirst)) = 4%nat ->
  overlap_faces_of meshOverlap ixFirst st <> 0%nat ->
  local_coeffs (face_at meshInput ixFirst) (ixOverlap st)
    (overlap_faces_of meshOverlap ixFirst st) = Ok dRemapCoeff ->
  Qabs (sumQ (overlap_faces_of meshOverlap ixFirst st)
          (fun j => area (ixOverlap st + j))
        - vecFaceArea meshInput ixFirst) <= coverage_tolerance ->
  body ixFirst st
  = (dCoeff <- Corrector.ForceConsistencyConservation3 (dposv ext)
                 (fst (source_areas dataGLLNodes dataGLLJacobian ixFirst))
                 (fst (target_areas meshOverlap (ixOverlap st)
                         (overlap_faces_of meshOverlap ixFirst st)))
                 (flatten dataGLLNodes
                    (overlap_faces_of meshOverlap ixFirst st) dRemapCoeff)
                 fMonotone ;;
     Ok (mkState
           (ixOverlap st + overlap_faces_of meshOverlap ixFirst st)
           (put_in_map meshOutput meshOverlap dataGLLNodes ixFirst (ixOverlap st)
              (overlap_faces_of meshOverlap ixFirst st)
              (unflatten dataGLLNodes
                 (overlap_faces_of meshOverlap ixFirst st) dCoeff dRemapCoeff)
              (smatMap st))
           (announced_element ixFirst st))).
Proof.
  intros H4 H0 Hloc Hcov. unfold element. fold (overlap_faces_of meshOverlap ixFirst st).
  cbv zeta. rewrite H4. cbn [Nat.eqb negb].
  destruct (Nat.eqb_spec (overlap_faces_of meshOverlap ixFirst st) 0);
    [contradiction|].
  rewrite Hloc. cbn [bind].
  unfold force_consistency_conservation. cbv zeta.
  destruct (target_areas_spec (ixOverlap st)
              (overlap_faces_of meshOverlap ixFirst st)) as (T1 & _).
  rewrite T1. apply Qltb_ge in Hcov. rewrite Hcov.
  destruct (Corrector.ForceConsistencyConservation3 _ _ _ _ _) as [M | e];
    cbn [bind fst snd]; [|reflexivity].
  rewrite app_nil_r. reflexivity.
Qed.

(** The messages of the body of the input face [i] are about [i], and are
    appended. *)
Lemma element_announced (i : nat) (st st' : State) :
  body i st = Ok st' ->
  exists msgs,
    announced st' = (announced st ++ msgs)%list /\
    forall m, In m msgs ->
      m = AnnounceElement i \/ m = AnnouncePartialElement i.
Proof.
  unfold element. cbv zeta.
  destruct (negb _); [discriminate|].
  assert (Hhead : exists msgs,
            announced_element i st = (announced st ++ msgs)%list /\
            forall m, In m msgs ->
              m = AnnounceElement i \/ m = AnnouncePartialElement i).
  { destruct (i mod 100 =? 0)%nat.
    - exists [AnnounceElement i]. split; [reflexivity|].
      intros m [<- | []]. left. reflexivity.
    - exists []. split; [symmetry; apply app_nil_r|]. intros m []. }
  destruct Hhead as (msgs & Hm1 & Hm2). rewrite Hm1. clear Hm1.
  match goal with
  | |- context [(count_overlap_faces ?a ?b ?c ?d ?e =? 0)%nat] =>
      destruct (count_overlap_faces a b c d e =? 0)%nat
  end.
  - intro H. injection H as <-. exists msgs. split; [reflexivity | exact Hm2].
  - destruct (local_coefficients _ _ _ _ _ _ _ _) as [c | e]; [|discriminate].
    cbn [bind]. unfold force_consistency_conservation. cbv zeta.
    destruct (Qltb _ _).
    + cbn [bind fst snd]. intro H. injection H as <-. cbn [announced].
      exists (msgs ++ [AnnouncePartialElement i])%list.
      split; [rewrite app_assoc; reflexivity|].
      intros m Hin. apply in_app_or in Hin. destruct Hin as [Hin | [<- | []]];
        [apply Hm2; exact Hin | right; reflexivity].
    + destruct (Corrector.ForceConsistencyConservation3 _ _ _ _ _) as [M | e];
        [|discriminate].
      cbn [bind fst snd]. intro H. injection H as <-. cbn [announced].
      exists msgs. rewrite app_nil_r. split; [reflexivity | exact Hm2].
Qed.

(** What the run has announced after [n] input faces extends what it had
    announced after [m <= n] of them, by messages about the faces from [m]
    on. *)
Lemma upto_announced (smatMap0 : SparseMatrix) (m n : nat) (sm sn : State) :
  (m <= n)%nat ->
  upto m smatMap0 = Ok sm -> upto n smatMap0 = Ok sn ->
  exists rest,
    announced sn = (announced sm ++ rest)%list /\
    forall msg, In msg rest ->
      exists i, (m <= i < n)%nat /\
        (msg = AnnounceElement i \/ msg = AnnouncePartialElement i).
Proof.
  intros Hmn Hm. revert sn. induction n as [|n IH]; intros sn Hn.
  - assert (m = 0)%nat by lia. subst m. rewrite Hm in Hn. injection Hn as <-.
    exists []. split; [symmetry; apply app_nil_r|]. intros msg [].
  - destruct (Nat.eq_dec m (Datatypes.S n)) as [-> | Hne].
    + rewrite Hm in Hn. injection Hn as <-.
      exists []. split; [symmetry; apply app_nil_r|]. intros msg [].
    + unfold elements_upto in Hn. rewrite for_loopM_S in Hn.
      destruct (for_loopM n _ _) as [s' | e] eqn:E; [|discriminate].
      cbn [bind] in Hn.
      destruct (IH ltac:(lia) s' E) as (rest & R1 & R2).
      destruct (element_announced n s' sn Hn) as (msgs & M1 & M2).
      exists (rest ++ msgs)%list. split.
      * rewrite M1, R1, app_assoc. reflexivity.
      * intros msg Hin. apply in_app_or in Hin. destruct Hin as [Hin | Hin].
        -- destruct (R2 msg Hin) as (i & Hi & Hmsg). exists i. split; [lia | exact Hmsg].
        -- exists n. split; [lia | apply M2; exact Hin].
Qed.

End Kernel.

(** *** The kernel on the sample meshes *)

(** *** The corrector inside the kernel *)

Section Corrected.

Variable ext : Collaborators.
Variables meshInput meshOverlap : Mesh.
Variable dataGLLNodes : DataMatrix3D Z.
Variable dataGLLJacobian : DataMatrix3D Q.

Local Abbreviation nP := (GetRows dataGLLNodes).
Local Abbreviation area := (vecFaceArea meshOverlap).

(** [vecSourceArea[p * nP + q] = dataGLLJacobian[p][q][ixFirst]]. *)
Lemma source_areas_spec (ixFirst : nat) :
  DataVector.GetRows (fst (source_areas dataGLLNodes dataGLLJacobian ixFirst))
  = (nP * nP)%nat /\
  forall p q, (p < nP)%nat -> (q < nP)%nat ->
    DataVector.get (fst (source_areas dataGLLNodes dataGLLJacobian ixFirst))
      (p * nP + q)
    = data3 dataGLLJacobian p q ixFirst.
Proof.
  unfold source_areas.
  assert (H :
    let st := for_loop nP (fun p =>
      for_loop nP (fun q (st : DataVector.t * Q) =>
        (DataVector.set (fst st) (p * nP + q)
           (data3 dataGLLJacobian p q ixFirst),
         snd st + data3 dataGLLJacobian p q ixFirst)))
      (DataVector.Initialize (nP * nP), 0) in
    DataVector.GetRows (fst st) = (nP * nP)%nat /\
    forall p q, (p < nP)%nat -> (q < nP)%nat ->
      DataVector.get (fst st) (p * nP + q)
      = if (p <? nP)%nat then data3 dataGLLJacobian p q ixFirst else 0).
  { apply (for_loop_ind (fun m (st : DataVector.t * Q) =>
      DataVector.GetRows (fst st) = (nP * nP)%nat /\
      forall p q, (p < nP)%nat -> (q < nP)%nat ->
        DataVector.get (fst st) (p * nP + q)
        = if (p <? m)%nat then data3 dataGLLJacobian p q ixFirst else 0)).
    - split; [reflexivity|]. intros. reflexivity.
    - intros p0 st0 Hp0 (A1 & A2).
      assert (Hrow :
        let st := for_loop nP (fun q (st : DataVector.t * Q) =>
          (DataVector.set (fst st) (p0 * nP + q)
             (data3 dataGLLJacobian p0 q ixFirst),
           snd st + data3 dataGLLJacobian p0 q ixFirst)) st0 in
        DataVector.GetRows (fst st) = (nP * nP)%nat /\
        forall p q, (p < nP)%nat -> (q < nP)%nat ->
          DataVector.get (fst st) (p * nP + q)
          = if ((p =? p0) && (q <? nP))%nat
            then data3 dataGLLJacobian p q ixFirst
            else DataVector.get (fst st0) (p * nP + q)).
      { apply (for_loop_ind (fun m (st : DataVector.t * Q) =>
          DataVector.GetRows (fst st) = (nP * nP)%nat /\
          forall p q, (p < nP)%nat -> (q < nP)%nat ->
            DataVector.get (fst st) (p * nP + q)
            = if ((p =? p0) && (q <? m))%nat
              then data3 dataGLLJacobian p q ixFirst
              else DataVector.get (fst st0) (p * nP + q))).
        - split; [exact A1|]. intros. rewrite andb_false_r. reflexivity.
        - intros q0 st1 Hq0 (B1 & B2). cbn [fst snd].
          split; [exact B1|].
          intros p q Hp Hq.
          unfold DataVector.get, DataVector.set. cbn [DataVector.data].
          unfold upd.
          destruct (Nat.eqb_spec (p * nP + q) (p0 * nP + q0)) as [e | ne].
          + apply flat_index_inj in e as [-> ->]; [|assumption|assumption].
            rewrite Nat.eqb_refl.
            destruct (Nat.ltb_spec q0 (Datatypes.S q0)); [reflexivity | lia].
          + specialize (B2 p q Hp Hq). unfold DataVector.get in B2.
            rewrite B2.
            assert (p <> p0 \/ q <> q0)
              by (destruct (Nat.eq_dec p p0);
                  [right; intro; subst; apply ne; reflexivity
                  | left; assumption]).
            nat_cases. }
      destruct Hrow as (B1 & B2). split; [exact B1|].
      intros p q Hp Hq. rewrite (B2 p q Hp Hq), (A2 p q Hp Hq). nat_cases. }
  destruct H as (H1 & H2). split; [exact H1|].
  intros p q Hp Hq. rewrite (H2 p q Hp Hq).
  destruct (Nat.ltb_spec p nP); [reflexivity | lia].
Qed.

(** [dRemapCoeff[p][q][j] = dCoeff[j][p * nP + q]]. *)
Lemma unflatten_spec (n : nat) (M : DataMatrix.t) (c : Coeff3) (p q j : nat) :
  unflatten dataGLLNodes n M c p q j
  = if ((j <? n) && (p <? nP) && (q <? nP))%nat
    then DataMatrix.get M j (p * nP + q) else c p q j.
Proof.
  unfold unflatten. revert p q j.
  apply (for_loop_ind (fun m c' => forall p q j,
    c' p q j = if ((j <? m) && (p <? nP) && (q <? nP))%nat
               then DataMatrix.get M j (p * nP + q) else c p q j)).
  - intros. reflexivity.
  - intros j0 c0 Hj0 IH p q j.
    rewrite (upd3_loops nP j0
               (fun p q _ => DataMatrix.get M j0 (p * nP + q)) c0 p q j).
    rewrite IH. nat_cases.
Qed.

Variable fMonotone : bool.

(** For a covered element the corrector runs on the flattened
    coefficients, and what it stores is copied back. *)
Lemma corrected_element_run (ixFirst ixOverlap n : nat)
  (dRemapCoeff : Coeff3) (res : Coeff3 * list Message) :
  Qabs (sumQ n (fun j => area (ixOverlap + j)%nat)
        - vecFaceArea meshInput ixFirst) <= coverage_tolerance ->
  force_consistency_conservation ext meshInput meshOverlap dataGLLNodes
    dataGLLJacobian fMonotone ixFirst ixOverlap n dRemapCoeff = Ok res ->
  exists M,
    Corrector.ForceConsistencyConservation3 (dposv ext)
      (fst (source_areas dataGLLNodes dataGLLJacobian ixFirst))
      (fst (target_areas meshOverlap ixOverlap n))
      (flatten dataGLLNodes n dRemapCoeff) fMonotone = Ok M /\
    res = (unflatten dataGLLNodes n M dRemapCoeff, []).
Proof.
  intro Hcov. unfold force_consistency_conservation. cbv zeta.
  destruct (target_areas_spec meshOverlap ixOverlap n) as (T1 & _).
  rewrite T1. apply Qltb_ge in Hcov. rewrite Hcov.
  destruct (Corrector.ForceConsistencyConservation3 _ _ _ _ _)
    as [M | e]; cbn [bind]; [|discriminate].
  intro H. injection H as <-. exists M. split; reflexivity.
Qed.

Lemma unflatten_in_range (n : nat) (M : DataMatrix.t) (c : Coeff3)
  (p q j : nat) :
  (p < nP)%nat -> (q < nP)%nat -> (j < n)%nat ->
  unflatten dataGLLNodes n M c p q j = DataMatrix.get M j (p * nP + q).
Proof.
  intros Hp Hq Hj. rewrite unflatten_spec.
  destruct (Nat.ltb_spec j n); [|lia].
  destruct (Nat.ltb_spec p nP); [|lia].
  destruct (Nat.ltb_spec q nP); [reflexivity | lia].
Qed.

Lemma flatten_columns_pos (n : nat) (dRemapCoeff : Coeff3) :
  (1 <= nP)%nat ->
  (1 <= DataMatrix.GetColumns (flatten dataGLLNodes n dRemapCoeff))%nat.
Proof.
  intro HnP. destruct (flatten_spec dataGLLNodes n dRemapCoeff) as (_ & F2 & _).
  rewrite F2. change 1%nat with (1 * 1)%nat.
  apply Nat.mul_le_mono; exact HnP.
Qed.

(** The corrected coefficients of each overlap face of a covered element
    sum to 1 over the nodes. *)
Lemma corrected_element_row_sums (ixFirst ixOverlap n : nat)
  (dRemapCoeff : Coeff3) (res : Coeff3 * list Message) :
  fMonotone = false ->
  Blas.dposv_solves (dposv ext) ->
  (1 <= nP)%nat ->
  Qabs (sumQ n (fun j => area (ixOverlap + j)%nat)
        - vecFaceArea meshInput ixFirst) <= coverage_tolerance ->
  force_consistency_conservation ext meshInput meshOverlap dataGLLNodes
    dataGLLJacobian fMonotone ixFirst ixOverlap n dRemapCoeff = Ok res ->
  forall j, (j < n)%nat ->
    sumQ nP (fun p => sumQ nP (fun q => fst res p q j)) == 1.
Proof.
  intros Hmono ok HnP Hcov H.
  destruct (corrected_element_run ixFirst ixOverlap n dRemapCoeff res Hcov H)
    as (M & E & ->).
  rewrite Hmono in E. cbn [fst].
  destruct (flatten_spec dataGLLNodes n dRemapCoeff) as (F1 & F2 & _).
  pose proof (CorrectorFacts.corrector_row_sums _ _ _
                (flatten_columns_pos n dRemapCoeff HnP) (dposv ext) ok M E)
    as Hrow.
  rewrite F1, F2 in Hrow.
  intros j Hj. rewrite <- (Hrow j Hj).
  rewrite (sumQ_flat nP nP (fun k => DataMatrix.get M j k)).
  apply sumQ_ext. intros p Hp. apply sumQ_ext. intros q Hq.
  rewrite (unflatten_in_range n M dRemapCoeff p q j Hp Hq Hj). reflexivity.
Qed.

(** The coefficients of a covered element that go to the map satisfy the
    constraints in the layout of the kernel: for each overlap face the
    coefficients sum to 1 over the nodes [(p, q)], and for each node but
    the last the coefficients weighted by the overlap areas sum to the
    Jacobian weight of the node; for the last node too when the overlap
    areas and the Jacobian weights have the same total. *)
Theorem corrected_element_constraints (ixFirst ixOverlap n : nat)
  (dRemapCoeff : Coeff3) (res : Coeff3 * list Message) :
  fMonotone = false ->
  Blas.dposv_solves (dposv ext) ->
  (1 <= nP)%nat ->
  Qabs (sumQ n (fun j => area (ixOverlap + j)%nat)
        - vecFaceArea meshInput ixFirst) <= coverage_tolerance ->
  force_consistency_conservation ext meshInput meshOverlap dataGLLNodes
    dataGLLJacobian fMonotone ixFirst ixOverlap n dRemapCoeff = Ok res ->
  snd res = [] /\
  (forall j, (j < n)%nat ->
     sumQ nP (fun p => sumQ nP (fun q => fst res p q j)) == 1) /\
  (forall p q, (p < nP)%nat -> (q < nP)%nat ->
     (p * nP + q < nP * nP - 1)%nat ->
     sumQ n (fun j => area (ixOverlap + j)%nat * fst res p q j)
     == data3 dataGLLJacobian p q ixFirst) /\
  (sumQ n (fun j => area (ixOverlap + j)%nat)
   == sumQ nP (fun p => sumQ nP (fun q =>
        data3 dataGLLJacobian p q ixFirst)) ->
   forall p q, (p < nP)%nat -> (q < nP)%nat ->
     sumQ n (fun j => area (ixOverlap + j)%nat * fst res p q j)
     == data3 dataGLLJacobian p q ixFirst).
Proof.
  intros Hmono ok HnP Hcov H.
  pose proof (corrected_element_row_sums ixFirst ixOverlap n dRemapCoeff res
                Hmono ok HnP Hcov H) as Hsum.
  destruct (corrected_element_run ixFirst ixOverlap n dRemapCoeff res Hcov H)
    as (M & E & ->).
  rewrite Hmono in E. cbn [fst snd] in *.
  destruct (target_areas_spec meshOverlap ixOverlap n) as (_ & _ & T3).
  destruct (source_areas_spec ixFirst) as (_ & S2).
  destruct (flatten_spec dataGLLNodes n dRemapCoeff) as (F1 & F2 & _).
  pose proof (flatten_columns_pos n dRemapCoeff HnP) as N_pos.
  set (src := fst (source_areas dataGLLNodes dataGLLJacobian ixFirst)) in *.
  set (tgt := fst (target_areas meshOverlap ixOverlap n)) in *.
  set (C := flatten dataGLLNodes n dRemapCoeff) in *.
  clearbody src tgt C.
  pose proof (CorrectorFacts.corrector_row_sums src tgt C N_pos (dposv ext)
                ok M E) as Hrow.
  pose proof (CorrectorFacts.corrector_conservation_kept src tgt C N_pos
                (dposv ext) ok M E) as Hcol.
  rewrite F1, F2 in Hrow, Hcol.
  assert (Hcons : forall p q, (p < nP)%nat -> (q < nP)%nat ->
            sumQ n (fun j => DataVector.get tgt j
                             * DataMatrix.get M j (p * nP + q))
            == DataVector.get src (p * nP + q) ->
            sumQ n (fun j =>
              area (ixOverlap + j)%nat
              * unflatten dataGLLNodes n M dRemapCoeff p q j)
            == data3 dataGLLJacobian p q ixFirst).
  { intros p q Hp Hq Hk. rewrite <- (S2 p q Hp Hq), <- Hk.
    apply sumQ_ext. intros j Hj.
    rewrite (T3 j Hj), (unflatten_in_range n M dRemapCoeff p q j Hp Hq Hj).
    reflexivity. }
  split; [reflexivity|]. split; [exact Hsum|]. split.
  - intros p q Hp Hq Hlast. apply (Hcons p q Hp Hq).
    apply (Hcol (p * nP + q)%nat Hlast).
  - intros Hareas p q Hp Hq. apply (Hcons p q Hp Hq).
    pose proof (CorrectorFacts.conservation_last_column src tgt C N_pos
                  (DataMatrix.get M)) as L.
    rewrite F1, F2 in L.
    apply L; [|exact Hrow|exact Hcol|apply flat_lt; assumption].
    rewrite (sumQ_flat nP nP (DataVector.get src)).
    transitivity (sumQ n (fun j => area (ixOverlap + j)%nat)).
    { apply sumQ_ext. intros j Hj. rewrite (T3 j Hj). reflexivity. }
    rewrite Hareas.
    apply sumQ_ext. intros p' Hp'. apply sumQ_ext. intros q' Hq'.
    symmetry. rewrite (S2 p' q' Hp' Hq'). reflexivity.
Qed.

End Corrected.

(** *** The cursor in the overlap mesh *)

Section Cursor.

Variable ext : Collaborators.
Variables meshInput meshOutput meshOverlap : Mesh.
Variable dataGLLNodes : DataMatrix3D Z.
Variable dataGLLJacobian : DataMatrix3D Q.
Variable fMonotone : bool.

Local Abbreviation first :=
  (fun i => nth i (vecFirstFaceIx meshOverlap) (-1)%Z).
Local Abbreviation nOverlap := (List.length (faces meshOverlap)).

(** The scan counts the overlap faces from [ixOverlapTemp] on whose first
    face is [ixFirst], and stops at the first other one. *)
Lemma count_overlap_faces_spec (fuel ixFirst ixOverlapTemp nOverlapFaces : nat) :
  exists m,
    count_overlap_faces meshOverlap fuel ixFirst ixOverlapTemp nOverlapFaces
    = (nOverlapFaces + m)%nat /\
    (m <= fuel)%nat /\
    (forall i, (ixOverlapTemp <= i < ixOverlapTemp + m)%nat ->
       first i = Z.of_nat ixFirst) /\
    ((m < fuel)%nat -> first (ixOverlapTemp + m)%nat <> Z.of_nat ixFirst).
Proof.
  revert ixOverlapTemp nOverlapFaces.
  induction fuel as [|fuel IH]; intros ix acc.
  - exists 0%nat. cbn [count_overlap_faces].
    split; [lia|]. split; [lia|]. split; intros; lia.
  - cbn [count_overlap_faces].
    destruct (Z.eqb_spec (first ix) (Z.of_nat ixFirst)) as [He | Hne];
      cbn [negb].
    + destruct (IH (ix + 1)%nat (acc + 1)%nat) as (m & H1 & H2 & H3 & H4).
      exists (Datatypes.S m). split; [rewrite H1; lia|]. split; [lia|].
      split.
      * intros i Hi. destruct (Nat.eq_dec i ix) as [-> | Hn];
          [exact He | apply H3; lia].
      * intro Hm. replace (ix + Datatypes.S m)%nat with (ix + 1 + m)%nat by lia.
        apply H4. lia.
    + exists 0%nat. split; [lia|]. split; [lia|].
      split; [intros; lia|]. intros _. rewrite Nat.add_0_r. exact Hne.
Qed.

(** The body of an input face moves the cursor past its overlap faces. *)
Lemma element_cursor (ixFirst : nat) (st st' : State) :
  element ext meshInput meshOutput meshOverlap dataGLLNodes dataGLLJacobian
    fMonotone ixFirst st = Ok st' ->
  ixOverlap st'
  = (ixOverlap st + overlap_faces_of meshOverlap ixFirst st)%nat.
Proof.
  unfold element, overlap_faces_of. cbv zeta.
  destruct (negb _); [discriminate|].
  match goal with
  | |- context [(count_overlap_faces ?a ?b ?c ?d ?e =? 0)%nat] =>
      destruct (Nat.eqb_spec (count_overlap_faces a b c d e) 0) as [H0 | H0]
  end.
  - intro H. injection H as <-. cbn [ixOverlap]. rewrite H0. lia.
  - destruct (local_coefficients _ _ _ _ _ _ _ _) as [c | e1];
      cbn [bind]; [|discriminate].
    destruct (force_consistency_conservation _ _ _ _ _ _ _ _ _ _)
      as [r | e2]; cbn [bind]; [|discriminate].
    intro H. injection H as <-. reflexivity.
Qed.

(** The cursor never leaves the overlap mesh. *)
Theorem overlap_cursor_bounded (smatMap0 : SparseMatrix) (final : State) :
  LinearRemapSE4 ext meshInput meshOutput meshOverlap dataGLLNodes
    dataGLLJacobian fMonotone smatMap0 = Ok final ->
  (ixOverlap final <= nOverlap)%nat.
Proof.
  unfold LinearRemapSE4, elements_upto.
  apply (for_loopM_ind (fun _ st => (ixOverlap st <= nOverlap)%nat)).
  - cbn. lia.
  - intros i s s' _ Hs Hbody. rewrite (element_cursor i s s' Hbody).
    unfold overlap_faces_of.
    destruct (count_overlap_faces_spec (nOverlap - ixOverlap s) i
                (ixOverlap s) 0) as (m & H1 & H2 & _).
    rewrite H1. lia.
Qed.

(** When the overlap faces are sorted by their first face, and every first
    face is an input face, a run that completes has used every overlap
    face. *)
Theorem sorted_overlap_consumed (smatMap0 : SparseMatrix) (final : State) :
  (forall i j, (i <= j < nOverlap)%nat -> (first i <= first j)%Z) ->
  (forall i, (i < nOverlap)%nat ->
     (0 <= first i < Z.of_nat (List.length (faces meshInput)))%Z) ->
  LinearRemapSE4 ext meshInput meshOutput meshOverlap dataGLLNodes
    dataGLLJacobian fMonotone smatMap0 = Ok final ->
  ixOverlap final = nOverlap.
Proof.
  intros Hsorted Hrange Hrun.
  assert (Hinv :
    (ixOverlap final <= nOverlap)%nat /\
    forall i, (ixOverlap final <= i < nOverlap)%nat ->
      (Z.of_nat (List.length (faces meshInput)) <= first i)%Z).
  { revert Hrun. unfold LinearRemapSE4, elements_upto.
    apply (for_loopM_ind (fun k st =>
      (ixOverlap st <= nOverlap)%nat /\
      forall i, (ixOverlap st <= i < nOverlap)%nat ->
        (Z.of_nat k <= first i)%Z)).
    - cbn [ixOverlap]. split; [lia|]. intros i Hi.
      specialize (Hrange i ltac:(lia)). lia.
    - intros k s s' _ (Hle & Hge) Hbody.
      rewrite (element_cursor k s s' Hbody). unfold overlap_faces_of.
      destruct (count_overlap_faces_spec (nOverlap - ixOverlap s) k
                  (ixOverlap s) 0) as (m & H1 & H2 & H3 & H4).
      rewrite H1. cbn [Nat.add]. split; [lia|].
      intros i Hi.
      assert (Hm : (m < nOverlap - ixOverlap s)%nat) by lia.
      specialize (H4 Hm).
      pose proof (Hge (ixOverlap s + m)%nat ltac:(lia)) as G1.
      pose proof (Hsorted (ixOverlap s + m)%nat i ltac:(lia)) as G2.
      cbv beta in *. lia. }
  destruct Hinv as (Hle & Hge).
  destruct (Nat.eq_dec (ixOverlap final) nOverlap) as [He | Hne];
    [exact He | exfalso].
  specialize (Hge (ixOverlap final) ltac:(lia)).
  specialize (Hrange (ixOverlap final) ltac:(lia)). lia.
Qed.

End Cursor.


Example run_whole_square :
  match
    LinearRemapSE4 (Sample.collaborators Sample.plane_map) Sample.meshSquare
      Sample.meshSquare Sample.overlapWhole Sample.dataGLLNodes
      Sample.dataGLLJacobian false Sample.smatEmpty
  with
  | Ok final =>
      announced final = [AnnounceElement 0] /\
      ixOverlap final = 1%nat /\
      smatMap final 0%Z 1%Z == 1 # 4
  | Err _ => False
  end.
Proof. vm_compute. repeat split. Qed.

Example run_triangle :
  LinearRemapSE4 (Sample.collaborators Sample.plane_map) Sample.meshTriangle
    Sample.meshSquare Sample.overlapWhole Sample.dataGLLNodes
    Sample.dataGLLJacobian false Sample.smatEmpty = Err UnsupportedElement.
Proof. vm_compute. reflexivity. Qed.

(** An inverse map that is out of range by [1e-20] makes the run throw. *)
Example run_barely_out_of_range :
  LinearRemapSE4
    (Sample.collaborators (fun _ _ _ => (- (1 # 100000000000000000000), 1 # 2)))
    Sample.meshSquare Sample.meshSquare Sample.overlapWhole
    Sample.dataGLLNodes Sample.dataGLLJacobian false Sample.smatEmpty
  = Err (InverseMapOutOfRange (- (1 # 100000000000000000000)) (1 # 2)).
Proof. vm_compute. reflexivity. Qed.

(** C6 as the spec states it fails: whatever the positive tolerance, there
    is a run that throws [InverseMapOutOfRange] on a value that is outside
    [0, 1] by less than the tolerance. *)
Lemma inverse_map_tolerance_refuted :
  ~ exists tol, 0 < tol /\
      forall ext meshInput meshOutput meshOverlap dataGLLNodes dataGLLJacobian
             fMonotone smatMap0 a b,
        LinearRemapSE4 ext meshInput meshOutput meshOverlap dataGLLNodes
          dataGLLJacobian fMonotone smatMap0 = Err (InverseMapOutOfRange a b) ->
        a < - tol \/ 1 + tol < a \/ b < - tol \/ 1 + tol < b.
Proof.
  intros (tol & Hpos & H).
  specialize (H (Sample.collaborators (fun _ _ _ => (- (1 # 2) * tol, 1 # 2)))
                Sample.meshSquare Sample.meshSquare Sample.overlapWhole
                Sample.dataGLLNodes Sample.dataGLLJacobian false
                Sample.smatEmpty (- (1 # 2) * tol) (1 # 2)).
  assert (Hrun :
    LinearRemapSE4 (Sample.collaborators (fun _ _ _ => (- (1 # 2) * tol, 1 # 2)))
      Sample.meshSquare Sample.meshSquare Sample.overlapWhole
      Sample.dataGLLNodes Sample.dataGLLJacobian false Sample.smatEmpty
    = Err (InverseMapOutOfRange (- (1 # 2) * tol) (1 # 2))).
  { apply run_inverse_map_out_of_range.
    exists 0%nat, (mkState 0 Sample.smatEmpty []), 0%nat, 0%nat, 0%nat,
      (fun _ _ _ => 0).
    split; [simpl; lia|]. split; [reflexivity|]. split; [reflexivity|].
    split; [vm_compute; lia|]. split; [simpl; lia|]. split; [simpl; lia|].
    split; [reflexivity|]. split; [reflexivity|].
    left. lra. }
  specialize (H Hrun). lra.
Qed.

(** C8 as the spec states it fails on an input face without overlap face:
    of two squares, the overlap mesh covers the eastern one; the area of
    the overlap faces of the western one, 0, differs from its own by more
    than [1e-10], and the run, which completes, announces no partial
    element. *)
Lemma partial_element_not_announced :
  coverage_tolerance
  < Qabs (overlap_area_of Sample.overlapEast 0
          - vecFaceArea Sample.meshTwoSquares 0) /\
  exists final,
    LinearRemapSE4 (Sample.collaborators Sample.plane_map)
      Sample.meshTwoSquares Sample.meshEast Sample.overlapEast
      Sample.dataGLLNodes Sample.dataGLLJacobian false Sample.smatEmpty
    = Ok final /\
    announced final = [AnnounceElement 0] /\
    ~ In (AnnouncePartialElement 0) (announced final).
Proof.
  split; [vm_compute; reflexivity|].
  assert (Hlog :
    match
      LinearRemapSE4 (Sample.collaborators Sample.plane_map)
        Sample.meshTwoSquares Sample.meshEast Sample.overlapEast
        Sample.dataGLLNodes Sample.dataGLLJacobian false Sample.smatEmpty
    with
    | Ok final => announced final = [AnnounceElement 0]
    | Err _ => False
    end) by (vm_compute; reflexivity).
  destruct (LinearRemapSE4 _ _ _ _ _ _ _ _) as [final | e]; [|contradiction].
  exists final. split; [reflexivity|]. split; [exact Hlog|].
  rewrite Hlog. intros [H | []]. discriminate H.
Qed.

(** The driver accepts this overlap mesh as it is. *)
Example overlapEast_accepted :
  Driver.verify_overlap_order
    (List.length (faces Sample.meshTwoSquares))
    (List.length (faces Sample.meshEast))
    (Driver.mkOverlapIx (vecFirstFaceIx Sample.overlapEast)
       (vecSecondFaceIx Sample.overlapEast))
  = Driver.PrimaryCorrespondence (Driver.mkOverlapIx [1%Z] [0%Z]).
Proof. reflexivity. Qed.

Lemma corrected_element_constraints_witness :
  exists res,
    force_consistency_conservation (Sample.collaborators Sample.plane_map)
      Sample.meshSquare Sample.overlapWhole Sample.dataGLLNodes
      Sample.dataGLLJacobian false 0 0 1 (fun _ _ _ => 1 # 3) = Ok res /\
    snd res = [] /\
    forall j, (j < 1)%nat ->
      sumQ 2 (fun p => sumQ 2 (fun q => fst res p q j)) == 1.
Proof.
  assert (Hrun :
    match
      force_consistency_conservation (Sample.collaborators Sample.plane_map)
        Sample.meshSquare Sample.overlapWhole Sample.dataGLLNodes
        Sample.dataGLLJacobian false 0 0 1 (fun _ _ _ => 1 # 3)
    with
    | Ok _ => True
    | Err _ => False
    end) by (vm_compute; exact I).
  destruct (force_consistency_conservation
              (Sample.collaborators Sample.plane_map)
              Sample.meshSquare Sample.overlapWhole Sample.dataGLLNodes
              Sample.dataGLLJacobian false 0 0 1 (fun _ _ _ => 1 # 3))
    as [res | e] eqn:E; [|contradiction].
  exists res. split; [reflexivity|].
  destruct (corrected_element_constraints
              (Sample.collaborators Sample.plane_map)
              Sample.meshSquare Sample.overlapWhole Sample.dataGLLNodes
              Sample.dataGLLJacobian false 0 0 1 (fun _ _ _ => 1 # 3) res
              eq_refl dposv_elim_solves ltac:(simpl; lia)
              ltac:(vm_compute; discriminate) E) as (H1 & H2 & _).
  split; assumption.
Defined.

Lemma overlap_cursor_bounded_witness :
  exists final,
    LinearRemapSE4 (Sample.collaborators Sample.plane_map) Sample.meshSquare
      Sample.meshSquare Sample.overlapWhole Sample.dataGLLNodes
      Sample.dataGLLJacobian false Sample.smatEmpty = Ok final /\
    (ixOverlap final <= 1)%nat.
Proof.
  assert (Hrun :
    match
      LinearRemapSE4 (Sample.collaborators Sample.plane_map) Sample.meshSquare
        Sample.meshSquare Sample.overlapWhole Sample.dataGLLNodes
        Sample.dataGLLJacobian false Sample.smatEmpty
    with
    | Ok _ => True
    | Err _ => False
    end) by (vm_compute; exact I).
  destruct (LinearRemapSE4 (Sample.collaborators Sample.plane_map)
              Sample.meshSquare Sample.meshSquare Sample.overlapWhole
              Sample.dataGLLNodes Sample.dataGLLJacobian false
              Sample.smatEmpty) as [final | e] eqn:E; [|contradiction].
  exists final. split; [reflexivity|].
  apply (overlap_cursor_bounded (Sample.collaborators Sample.plane_map)
           Sample.meshSquare Sample.meshSquare Sample.overlapWhole
           Sample.dataGLLNodes Sample.dataGLLJacobian false
           Sample.smatEmpty final E).
Defined.

Lemma sorted_overlap_consumed_witness :
  exists final,
    LinearRemapSE4 (Sample.collaborators Sample.plane_map)
      Sample.meshTwoSquares Sample.meshEast Sample.overlapEast
      Sample.dataGLLNodes Sample.dataGLLJacobian false Sample.smatEmpty
    = Ok final /\
    ixOverlap final = 1%nat.
Proof.
  assert (Hrun :
    match
      LinearRemapSE4 (Sample.collaborators Sample.plane_map)
        Sample.meshTwoSquares Sample.meshEast Sample.overlapEast
        Sample.dataGLLNodes Sample.dataGLLJacobian false Sample.smatEmpty
    with
    | Ok _ => True
    | Err _ => False
    end) by (vm_compute; exact I).
  destruct (LinearRemapSE4 (Sample.collaborators Sample.plane_map)
              Sample.meshTwoSquares Sample.meshEast Sample.overlapEast
              Sample.dataGLLNodes Sample.dataGLLJacobian false
              Sample.smatEmpty) as [final | e] eqn:E; [|contradiction].
  exists final. split; [reflexivity|].
  apply (sorted_overlap_consumed (Sample.collaborators Sample.plane_map)
           Sample.meshTwoSquares Sample.meshEast Sample.overlapEast
           Sample.dataGLLNodes Sample.dataGLLJacobian false
           Sample.smatEmpty final); [| |exact E].
  - intros i j Hij. simpl in Hij.
    assert (i = 0)%nat by lia. assert (j = 0)%nat by lia. subst. simpl. lia.
  - intros i Hi. simpl in Hi. assert (i = 0)%nat by lia. subst. simpl. lia.
Defined.

End RemapFacts.

(** ** The low-order remap kernel *)

Module Remap0Facts.

Import Remap Remap0 ArrayFacts SumFacts.

Lemma smat_add_loops (n : nat) (row : Z) (col : nat -> nat -> Z)
  (v : nat -> nat -> Q) (m : SparseMatrix) (r c : Z) :
  for_loop n (fun p =>
    for_loop n (fun q m' => smat_add m' row (col p q) (v p q))) m r c
  == m r c
     + sumQ n (fun p => sumQ n (fun q =>
         if ((r =? row) && (c =? col p q))%Z then v p q else 0)).
Proof.
  revert r c.
  apply (for_loop_ind (fun k m' => forall r c,
    m' r c == m r c
              + sumQ k (fun p => sumQ n (fun q =>
                  if ((r =? row) && (c =? col p q))%Z then v p q else 0)))).
  - intros r c. cbn [sumQ]. ring.
  - intros p m1 Hp IH r c. cbn [sumQ].
    assert (Hrow : forall r c,
      for_loop n (fun q m' => smat_add m' row (col p q) (v p q)) m1 r c
      == m1 r c
         + sumQ n (fun q =>
             if ((r =? row) && (c =? col p q))%Z then v p q else 0)).
    { apply (for_loop_ind (fun k m' => forall r c,
        m' r c == m1 r c
                  + sumQ k (fun q =>
                      if ((r =? row) && (c =? col p q))%Z then v p q else 0))).
      - intros r' c'. cbn [sumQ]. ring.
      - intros q m2 Hq IH2 r' c'. cbn [sumQ]. unfold smat_add.
        destruct ((r' =? row) && (c' =? col p q))%Z;
          rewrite (IH2 r' c'); ring. }
    rewrite (Hrow r c), (IH r c). ring.
Qed.

Section Kernel.

Variables meshOutput meshOverlap : Mesh.
Variable dataGLLNodes : DataMatrix3D Z.
Variable dataGLLJacobian : DataMatrix3D Q.

Local Abbreviation nP := (GetRows dataGLLNodes).
Local Abbreviation first := (fun i => nth i (vecFirstFaceIx meshOverlap) (-1)%Z).
Local Abbreviation second := (fun i => nth i (vecSecondFaceIx meshOverlap) (-1)%Z).
Local Abbreviation J := (fun p q i => data3 dataGLLJacobian p q (Z.to_nat (first i))).
Local Abbreviation node := (fun p q i => data3 dataGLLNodes p q (Z.to_nat (first i))).
Local Abbreviation total := (fun i => sumQ nP (fun p => sumQ nP (fun q => J p q i))).
Local Abbreviation weight :=
  (fun i p q =>
     J p q i / total i * vecFaceArea meshOverlap i
     / vecFaceArea meshOutput (Z.to_nat (second i))).

Lemma total_jacobian_sum (e : Z) :
  total_jacobian dataGLLNodes dataGLLJacobian e
  == sumQ nP (fun p => sumQ nP (fun q =>
       data3 dataGLLJacobian p q (Z.to_nat e))).
Proof.
  unfold total_jacobian.
  apply (for_loop_ind (fun k t =>
    t == sumQ k (fun p => sumQ nP (fun q =>
           data3 dataGLLJacobian p q (Z.to_nat e))))).
  - reflexivity.
  - intros p t Hp IH. cbn [sumQ].
    assert (Hrow :
      for_loop nP (fun q t' =>
        t' + data3 dataGLLJacobian p q (Z.to_nat e)) t
      == t + sumQ nP (fun q => data3 dataGLLJacobian p q (Z.to_nat e))).
    { apply (for_loop_ind (fun k t' =>
        t' == t + sumQ k (fun q => data3 dataGLLJacobian p q (Z.to_nat e)))).
      - cbn [sumQ]. ring.
      - intros q t' Hq IH2. cbn [sumQ]. rewrite IH2. ring. }
    rewrite Hrow, IH. reflexivity.
Qed.

(** The state after the loop over the overlap faces: the cached total
    Jacobian is the one of the first face of the last overlap face, and the
    map has received the contributions of all the overlap faces. *)
Lemma LinearRemapSE0_state (dTotalJacobian0 : Q) (smatMap0 : SparseMatrix) :
  (forall i, (i < List.length (faces meshOverlap))%nat -> (0 <= first i)%Z) ->
  let n := List.length (faces meshOverlap) in
  let st := for_loop n
              (overlap_face meshOutput meshOverlap dataGLLNodes
                 dataGLLJacobian)
              (mkState (-1) dTotalJacobian0 smatMap0) in
  (n = 0%nat -> ixLastFirstMeshFace st = (-1)%Z) /\
  (forall k, n = Datatypes.S k ->
     ixLastFirstMeshFace st = first k /\
     dTotalJacobian st
     = total_jacobian dataGLLNodes dataGLLJacobian (first k)) /\
  forall r c,
    smatMap st r c
    == smatMap0 r c
       + sumQ n (fun i =>
           sumQ nP (fun p => sumQ nP (fun q =>
             if ((r =? second i) && (c =? node p q i - 1))%Z
             then weight i p q else 0))).
Proof.
  intro Hfirst. cbv zeta.
  set (n := List.length (faces meshOverlap)).
  apply (for_loop_ind (fun n st =>
    (n = 0%nat -> ixLastFirstMeshFace st = (-1)%Z) /\
    (forall k, n = Datatypes.S k ->
       ixLastFirstMeshFace st = first k /\
       dTotalJacobian st
       = total_jacobian dataGLLNodes dataGLLJacobian (first k)) /\
    forall r c,
      smatMap st r c
      == smatMap0 r c
         + sumQ n (fun i =>
             sumQ nP (fun p => sumQ nP (fun q =>
               if ((r =? second i) && (c =? node p q i - 1))%Z
               then weight i p q else 0))))).
  - split; [reflexivity|]. split; [intros k Hk; discriminate Hk|].
    intros r c. cbn [sumQ smatMap]. ring.
  - intros i st Hi (H0 & HS & Hm).
    assert (Hst :
      let st1 :=
        if negb (ixLastFirstMeshFace st =? first i)%Z then
          mkState (first i)
            (total_jacobian dataGLLNodes dataGLLJacobian (first i))
            (smatMap st)
        else st in
      ixLastFirstMeshFace st1 = first i /\
      dTotalJacobian st1
      = total_jacobian dataGLLNodes dataGLLJacobian (first i) /\
      smatMap st1 = smatMap st).
    { destruct (Z.eqb_spec (ixLastFirstMeshFace st) (first i)) as [He | Hne];
        cbn [negb]; [|split; [|split]; reflexivity].
      split; [exact He|]. split; [|reflexivity].
      destruct i as [|k].
      - exfalso. rewrite (H0 eq_refl) in He.
        specialize (Hfirst 0%nat Hi). cbv beta in Hfirst. lia.
      - destruct (HS k eq_refl) as (E1 & E2). rewrite E2.
        f_equal. congruence. }
    unfold overlap_face. cbv zeta. cbv zeta in Hst.
    destruct Hst as (E1 & E2 & E3).
    cbn [ixLastFirstMeshFace dTotalJacobian smatMap].
    split; [intro Hk; discriminate Hk|].
    split.
    { intros k Hk. injection Hk as <-. split; assumption. }
    intros r c.
    rewrite (smat_add_loops nP (second i)
               (fun p q => (node p q i - 1)%Z)
               (fun p q =>
                  J p q i
                  / dTotalJacobian
                      (if negb (ixLastFirstMeshFace st =? first i)%Z then
                         mkState (first i)
                           (total_jacobian dataGLLNodes dataGLLJacobian
                              (first i))
                           (smatMap st)
                       else st)
                  * vecFaceArea meshOverlap i
                  / vecFaceArea meshOutput (Z.to_nat (second i)))).
    rewrite E3, (Hm r c). cbn [sumQ].
    rewrite E2.
    assert (Hw : forall p q,
      J p q i / total_jacobian dataGLLNodes dataGLLJacobian (first i)
      * vecFaceArea meshOverlap i
      / vecFaceArea meshOutput (Z.to_nat (second i))
      == weight i p q).
    { intros p q. cbv beta. rewrite (total_jacobian_sum (first i)).
      reflexivity. }
    rewrite (sumQ_ext nP
               (fun p => sumQ nP (fun q =>
                  if ((r =? second i) && (c =? node p q i - 1))%Z
                  then
                    J p q i
                    / total_jacobian dataGLLNodes dataGLLJacobian (first i)
                    * vecFaceArea meshOverlap i
                    / vecFaceArea meshOutput (Z.to_nat (second i))
                  else 0))
               (fun p => sumQ nP (fun q =>
                  if ((r =? second i) && (c =? node p q i - 1))%Z
                  then weight i p q else 0))).
    + ring.
    + intros p Hp. apply sumQ_ext. intros q Hq.
      destruct ((r =? second i) && (c =? node p q i - 1))%Z;
        [apply Hw | reflexivity].
Qed.

(** The map that [LinearRemapSE0] leaves: each overlap face [i] adds to
    the entry (second face of [i], node [(p, q)] of its first face) the
    share [J / sum J] of the node times the ratio of the area of [i] to
    the area of its second face, when the first faces are valid indices.
    The value that [dTotalJacobian] holds before the loop is not used. *)
Theorem LinearRemapSE0_spec (dTotalJacobian0 : Q) (smatMap0 : SparseMatrix)
  (r c : Z) :
  (forall i, (i < List.length (faces meshOverlap))%nat -> (0 <= first i)%Z) ->
  LinearRemapSE0 meshOutput meshOverlap dataGLLNodes dataGLLJacobian
    dTotalJacobian0 smatMap0 r c
  == smatMap0 r c
     + sumQ (List.length (faces meshOverlap)) (fun i =>
         sumQ nP (fun p => sumQ nP (fun q =>
           if ((r =? second i) && (c =? node p q i - 1))%Z
           then weight i p q else 0))).
Proof.
  intro Hfirst. unfold LinearRemapSE0.
  destruct (LinearRemapSE0_state dTotalJacobian0 smatMap0 Hfirst)
    as (_ & _ & H).
  apply H.
Qed.

Local Abbreviation n := (List.length (faces meshOverlap)).

(** In a row of the map the entries added by [LinearRemapSE0] sum to the
    fraction of the output face that the overlap faces cover. *)
Theorem LinearRemapSE0_row_sum (dTotalJacobian0 : Q) (smatMap0 : SparseMatrix)
  (nNodes : nat) (r : Z) :
  (forall i, (i < n)%nat -> (0 <= first i)%Z) ->
  (forall i p q, (i < n)%nat -> (p < nP)%nat -> (q < nP)%nat ->
     (1 <= node p q i <= Z.of_nat nNodes)%Z) ->
  (forall i, (i < n)%nat -> ~ total i == 0) ->
  sumQ nNodes (fun c =>
    LinearRemapSE0 meshOutput meshOverlap dataGLLNodes dataGLLJacobian
      dTotalJacobian0 smatMap0 r (Z.of_nat c))
  == sumQ nNodes (fun c => smatMap0 r (Z.of_nat c))
     + sumQ n (fun i =>
         if (r =? second i)%Z
         then vecFaceArea meshOverlap i
              / vecFaceArea meshOutput (Z.to_nat (second i))
         else 0).
Proof.
  intros Hfirst Hnode Htot.
  rewrite (sumQ_ext nNodes _ (fun c =>
    smatMap0 r (Z.of_nat c)
    + sumQ n (fun i =>
        sumQ nP (fun p => sumQ nP (fun q =>
          if ((r =? second i) && (Z.of_nat c =? node p q i - 1))%Z
          then weight i p q else 0)))))
    by (intros c _;
        apply (proj2 (proj2 (LinearRemapSE0_state dTotalJacobian0 smatMap0
                               Hfirst)))).
  rewrite (sumQ_plus nNodes (fun c => smatMap0 r (Z.of_nat c))).
  apply Qplus_inj_l.
  rewrite (sumQ_swap nNodes n (fun c i =>
    sumQ nP (fun p => sumQ nP (fun q =>
      if ((r =? second i) && (Z.of_nat c =? node p q i - 1))%Z
      then weight i p q else 0)))).
  apply sumQ_ext. intros i Hi.
  rewrite (sumQ_swap nNodes nP (fun c p =>
    sumQ nP (fun q =>
      if ((r =? second i) && (Z.of_nat c =? node p q i - 1))%Z
      then weight i p q else 0))).
  transitivity (sumQ nP (fun p => sumQ nP (fun q =>
    if (r =? second i)%Z then weight i p q else 0))).
  - apply sumQ_ext. intros p Hp.
    rewrite (sumQ_swap nNodes nP (fun c q =>
      if ((r =? second i) && (Z.of_nat c =? node p q i - 1))%Z
      then weight i p q else 0)).
    apply sumQ_ext. intros q Hq.
    specialize (Hnode i p q Hi Hp Hq).
    destruct (r =? second i)%Z; cbn [andb].
    + etransitivity.
      { apply (sumQ_single nNodes _ (Z.to_nat (node p q i - 1))); [lia|].
        intros c Hc Hne.
        destruct (Z.eqb_spec (Z.of_nat c) (node p q i - 1)); [lia|reflexivity]. }
      cbv beta.
      destruct (Z.eqb_spec (Z.of_nat (Z.to_nat (node p q i - 1)))
                  (node p q i - 1)); [reflexivity | lia].
    + apply sumQ_zero. intros; reflexivity.
  - destruct (r =? second i)%Z.
    + specialize (Htot i Hi).
      rewrite (sumQ_ext nP _ (fun p =>
        (/ total i * vecFaceArea meshOverlap i
         * / vecFaceArea meshOutput (Z.to_nat (second i)))
        * sumQ nP (fun q => J p q i))).
      * rewrite (sumQ_scal nP _ (fun p => sumQ nP (fun q => J p q i))).
        cbv beta. unfold Qdiv.
        generalize (/ vecFaceArea meshOutput
                        (Z.to_nat (nth i (vecSecondFaceIx meshOverlap) (-1)%Z))).
        intro u. field. exact Htot.
      * intros p Hp.
        rewrite <- (sumQ_scal nP _ (fun q => J p q i)).
        apply sumQ_ext. intros q Hq. unfold Qdiv. ring.
    + apply sumQ_zero. intros p _. apply sumQ_zero. intros; reflexivity.
Qed.

(** With nonnegative Jacobian weights and positive areas
    [LinearRemapSE0] adds nothing negative: a nonnegative map stays
    nonnegative. *)
Theorem LinearRemapSE0_nonneg (dTotalJacobian0 : Q) (smatMap0 : SparseMatrix)
  (r c : Z) :
  (forall i, (i < n)%nat -> (0 <= first i)%Z) ->
  (forall r c, 0 <= smatMap0 r c) ->
  (forall i p q, (i < n)%nat -> (p < nP)%nat -> (q < nP)%nat ->
     0 <= J p q i) ->
  (forall i, (i < n)%nat -> 0 < total i) ->
  (forall i, (i < n)%nat -> 0 <= vecFaceArea meshOverlap i) ->
  (forall i, (i < n)%nat ->
     0 < vecFaceArea meshOutput (Z.to_nat (second i))) ->
  0 <= LinearRemapSE0 meshOutput meshOverlap dataGLLNodes dataGLLJacobian
         dTotalJacobian0 smatMap0 r c.
Proof.
  intros Hfirst H0 HJ Htot Ha Hout.
  unfold LinearRemapSE0.
  rewrite (proj2 (proj2 (LinearRemapSE0_state dTotalJacobian0 smatMap0
                           Hfirst)) r c).
  assert (0 <= sumQ n (fun i =>
            sumQ nP (fun p => sumQ nP (fun q =>
              if ((r =? second i) && (c =? node p q i - 1))%Z
              then weight i p q else 0)))).
  { apply sumQ_nonneg. intros i Hi.
    apply sumQ_nonneg. intros p Hp.
    apply sumQ_nonneg. intros q Hq.
    destruct ((r =? second i) && (c =? node p q i - 1))%Z; [|apply Qle_refl].
    cbv beta. unfold Qdiv.
    pose proof (Qinv_lt_0_compat _ (Htot i Hi)) as H1.
    pose proof (Qinv_lt_0_compat _ (Hout i Hi)) as H2.
    repeat apply Qmult_le_0_compat;
      [apply HJ; assumption | apply Qlt_le_weak; exact H1
      | apply Ha; assumption | apply Qlt_le_weak; exact H2]. }
  apply Qle_trans with (smatMap0 r c + 0).
  - specialize (H0 r c). lra.
  - apply Qplus_le_compat; [apply Qle_refl | exact H].
Qed.

End Kernel.

Lemma LinearRemapSE0_spec_witness :
  LinearRemapSE0 Sample.meshSquare Sample.overlapWhole Sample.dataGLLNodes
    Sample.dataGLLJacobian 7 Sample.smatEmpty 0%Z 3%Z
  == 1 # 4.
Proof.
  rewrite (LinearRemapSE0_spec Sample.meshSquare Sample.overlapWhole
             Sample.dataGLLNodes Sample.dataGLLJacobian 7 Sample.smatEmpty
             0%Z 3%Z
             ltac:(intros i Hi; simpl in Hi; destruct i; [simpl; lia | lia])).
  vm_compute. reflexivity.
Defined.

Lemma LinearRemapSE0_row_sum_witness :
  sumQ 4 (fun c =>
    LinearRemapSE0 Sample.meshSquare Sample.overlapWhole Sample.dataGLLNodes
      Sample.dataGLLJacobian 7 Sample.smatEmpty 0%Z (Z.of_nat c))
  == 1.
Proof.
  rewrite (LinearRemapSE0_row_sum Sample.meshSquare Sample.overlapWhole
             Sample.dataGLLNodes Sample.dataGLLJacobian 7 Sample.smatEmpty
             4%nat 0%Z
             ltac:(intros i Hi; simpl in Hi; destruct i; [simpl; lia | lia])).
  - vm_compute. reflexivity.
  - intros i p q Hi Hp Hq. simpl in Hi, Hp, Hq.
    destruct i as [|i]; [|lia].
    destruct p as [|[|p]]; [| |lia];
      (destruct q as [|[|q]]; [| |lia]); vm_compute; split; discriminate.
  - intros i Hi. simpl in Hi. destruct i as [|i]; [|lia].
    vm_compute. discriminate.
Defined.

Lemma LinearRemapSE0_nonneg_witness :
  0 <= LinearRemapSE0 Sample.meshSquare Sample.overlapWhole
         Sample.dataGLLNodes Sample.dataGLLJacobian 7 Sample.smatEmpty 0%Z 3%Z.
Proof.
  apply (LinearRemapSE0_nonneg Sample.meshSquare Sample.overlapWhole
           Sample.dataGLLNodes Sample.dataGLLJacobian 7 Sample.smatEmpty
           0%Z 3%Z).
  - intros i Hi. simpl in Hi. destruct i; [simpl; lia | lia].
  - intros r c. vm_compute. discriminate.
  - intros i p q _ _ _. vm_compute. discriminate.
  - intros i Hi. simpl in Hi. destruct i as [|i]; [|lia].
    vm_compute. reflexivity.
  - intros i _. vm_compute. discriminate.
  - intros i _. vm_compute. reflexivity.
Defined.

End Remap0Facts.

(** ** The rows of the map of [LinearRemapSE4] *)

Module MapFacts.

Import Remap ArrayFacts SumFacts.

Section Rows.

Variable ext : Collaborators.
Variables meshInput meshOutput meshOverlap : Mesh.
Variable dataGLLNodes : DataMatrix3D Z.
Variable dataGLLJacobian : DataMatrix3D Q.
Variable fMonotone : bool.

Local Abbreviation nP := (GetRows dataGLLNodes).
Local Abbreviation area := (vecFaceArea meshOverlap).
Local Abbreviation second :=
  (fun i => nth i (vecSecondFaceIx meshOverlap) (-1)%Z).
Local Abbreviation share :=
  (fun i => area i / vecFaceArea meshOutput (Z.to_nat (second i))).

(** The map after the loops that put the coefficients of an element in
    it. *)
Lemma put_in_map_spec (ixFirst ixOverlap n : nat) (dRemapCoeff : Coeff3)
  (smatMap0 : SparseMatrix) (r c : Z) :
  put_in_map meshOutput meshOverlap dataGLLNodes ixFirst ixOverlap n
    dRemapCoeff smatMap0 r c
  == smatMap0 r c
     + sumQ n (fun j => sumQ nP (fun p => sumQ nP (fun q =>
         if ((r =? second (ixOverlap + j)%nat)
             && (c =? data3 dataGLLNodes p q ixFirst - 1))%Z
         then dRemapCoeff p q j * share (ixOverlap + j)%nat else 0))).
Proof.
  unfold put_in_map. revert r c.
  apply (for_loop_ind (fun m smat => forall r c,
    smat r c
    == smatMap0 r c
       + sumQ m (fun j => sumQ nP (fun p => sumQ nP (fun q =>
           if ((r =? second (ixOverlap + j)%nat)
               && (c =? data3 dataGLLNodes p q ixFirst - 1))%Z
           then dRemapCoeff p q j * share (ixOverlap + j)%nat else 0))))).
  - intros r c. cbn [sumQ]. ring.
  - intros j smat Hj IH r c. cbv zeta. cbn [sumQ].
    rewrite (Remap0Facts.smat_add_loops nP (second (ixOverlap + j)%nat)
               (fun p q => (data3 dataGLLNodes p q ixFirst - 1)%Z)
               (fun p q =>
                  dRemapCoeff p q j * area (ixOverlap + j)%nat
                  / vecFaceArea meshOutput
                      (Z.to_nat (second (ixOverlap + j)%nat)))).
    rewrite (IH r c).
    rewrite (sumQ_ext nP
               (fun p => sumQ nP (fun q =>
                  if ((r =? second (ixOverlap + j)%nat)
                      && (c =? data3 dataGLLNodes p q ixFirst - 1))%Z
                  then dRemapCoeff p q j * area (ixOverlap + j)%nat
                       / vecFaceArea meshOutput
                           (Z.to_nat (second (ixOverlap + j)%nat))
                  else 0))
               (fun p => sumQ nP (fun q =>
                  if ((r =? second (ixOverlap + j)%nat)
                      && (c =? data3 dataGLLNodes p q ixFirst - 1))%Z
                  then dRemapCoeff p q j * share (ixOverlap + j)%nat
                  else 0))).
    + ring.
    + intros p Hp. apply sumQ_ext. intros q Hq.
      destruct ((r =? second (ixOverlap + j)%nat)
                && (c =? data3 dataGLLNodes p q ixFirst - 1))%Z;
        [|reflexivity].
      cbv beta. unfold Qdiv. ring.
Qed.





End Rows.



End MapFacts.

(** ** Partial coverage in [LinearRemapSE4] *)

Module CoverageFacts.

Import Remap ArrayFacts SumFacts.

Section Coverage.

Variable ext : Collaborators.
Variables meshInput meshOutput meshOverlap : Mesh.
Variable dataGLLNodes : DataMatrix3D Z.
Variable dataGLLJacobian : DataMatrix3D Q.
Variable fMonotone : bool.

Local Abbreviation nP := (GetRows dataGLLNodes).
Local Abbreviation nOverlap := (List.length (faces meshOverlap)).
Local Abbreviation area := (vecFaceArea meshOverlap).
Local Abbreviation first :=
  (fun i => nth i (vecFirstFaceIx meshOverlap) (-1)%Z).
Local Abbreviation second :=
  (fun i => nth i (vecSecondFaceIx meshOverlap) (-1)%Z).
Local Abbreviation upto :=
  (elements_upto ext meshInput meshOutput meshOverlap dataGLLNodes
     dataGLLJacobian fMonotone).

(** The collaborators with another solver in the place of [dposv]. *)
Local Abbreviation with_solver :=
  (fun solver : Blas.dposv_t =>
     mkCollaborators (TriQuadraturePoints ext) (TriQuadratureG ext)
       (TriQuadratureW ext) (sqrt ext) (CalculateFaceArea ext)
       (ApplyInverseMap ext) (SampleGLLFiniteElement ext) solver).

(** ["Element e"], announced for every 100th input face. *)
Local Abbreviation progress :=
  (fun e : nat =>
     if Nat.eqb (Nat.modulo e 100) 0 then [AnnounceElement e] else []).

(** The map [W] after the coefficients [coeff] of the [n] overlap faces
    from [ix] on, of the input face [e], have been added to it:
    [W(secondFaceIx[ix + j], dataGLLNodes[p][q][e] - 1) +=
     coeff[p][q][j] * overlapArea[ix + j] / outputArea[secondFaceIx[ix + j]]]. *)
Local Abbreviation folded :=
  (fun (W : SparseMatrix) (e ix n : nat) (coeff : nat -> nat -> nat -> Q)
       (r c : Z) =>
     W r c
     + sumQ n (fun j => sumQ nP (fun p => sumQ nP (fun q =>
         if ((r =? second (Nat.add ix j))
             && (c =? data3 dataGLLNodes p q e - 1))%Z
         then coeff p q j * area (Nat.add ix j)
              / vecFaceArea meshOutput (Z.to_nat (second (Nat.add ix j)))
         else 0)))).

Lemma put_in_map_folded (e ix n : nat) (coeff coeff' : Coeff3)
  (W : SparseMatrix) (r c : Z) :
  (forall j p q, (j < n)%nat -> (p < nP)%nat -> (q < nP)%nat ->
     coeff p q j = coeff' p q j) ->
  put_in_map meshOutput meshOverlap dataGLLNodes e ix n coeff W r c
  == folded W e ix n coeff' r c.
Proof.
  intro Hc. rewrite MapFacts.put_in_map_spec. apply Qplus_inj_l.
  apply sumQ_ext. intros j Hj. apply sumQ_ext. intros p Hp.
  apply sumQ_ext. intros q Hq. rewrite (Hc j p q Hj Hp Hq).
  destruct (_ && _)%bool; [|reflexivity]. unfold Qdiv. ring.
Qed.

(** The cursor of a run that has reached the input face [k] is inside the
    overlap mesh. *)
Lemma upto_cursor_bounded (smatMap0 : SparseMatrix) (k : nat) (st : State) :
  upto k smatMap0 = Ok st -> (ixOverlap st <= nOverlap)%nat.
Proof.
  unfold elements_upto.
  apply (RemapFacts.for_loopM_ind
           (fun _ s => (ixOverlap s <= nOverlap)%nat)).
  - cbn. lia.
  - intros i s s' _ Hs Hbody.
    rewrite (RemapFacts.element_cursor _ _ _ _ _ _ _ i s s' Hbody).
    unfold overlap_faces_of.
    destruct (RemapFacts.count_overlap_faces_spec meshOverlap
                (nOverlap - ixOverlap s) i (ixOverlap s) 0)
      as (m & H1 & H2 & _).
    rewrite H1. lia.
Qed.

(** On an overlap mesh sorted by first face, with no negative first face,
    the cursor of a run that has reached the input face [k] separates the
    overlap faces of the input faces before [k] from the others. *)
Lemma upto_cursor_sorted (smatMap0 : SparseMatrix) (k : nat) (st : State) :
  (forall i j, (i <= j < nOverlap)%nat -> (first i <= first j)%Z) ->
  (forall i, (i < nOverlap)%nat -> (0 <= first i)%Z) ->
  upto k smatMap0 = Ok st ->
  (forall i, (i < ixOverlap st)%nat -> (first i < Z.of_nat k)%Z) /\
  (forall i, (ixOverlap st <= i < nOverlap)%nat -> (Z.of_nat k <= first i)%Z).
Proof.
  intros Hsorted Hrange. unfold elements_upto.
  apply (RemapFacts.for_loopM_ind (fun k s =>
    (forall i, (i < ixOverlap s)%nat -> (first i < Z.of_nat k)%Z) /\
    (forall i, (ixOverlap s <= i < nOverlap)%nat ->
       (Z.of_nat k <= first i)%Z))).
  - cbn [ixOverlap]. split; [intros; lia|].
    intros i Hi. specialize (Hrange i ltac:(lia)). lia.
  - intros i s s' _ (Hlt & Hge) Hbody.
    rewrite (RemapFacts.element_cursor _ _ _ _ _ _ _ i s s' Hbody).
    unfold overlap_faces_of.
    destruct (RemapFacts.count_overlap_faces_spec meshOverlap
                (nOverlap - ixOverlap s) i (ixOverlap s) 0)
      as (m & H1 & H2 & H3 & H4).
    rewrite H1. cbn [Nat.add]. split.
    + intros x Hx. destruct (Nat.lt_ge_cases x (ixOverlap s)) as [Hb | Hb].
      * specialize (Hlt x Hb). lia.
      * specialize (H3 x ltac:(lia)). cbv beta in *. lia.
    + intros x Hx.
      assert (Hm : (m < nOverlap - ixOverlap s)%nat) by lia.
      specialize (H4 Hm).
      pose proof (Hge (ixOverlap s + m)%nat ltac:(lia)) as G1.
      pose proof (Hsorted (ixOverlap s + m)%nat x ltac:(lia)) as G2.
      cbv beta in *. lia.
Qed.


(** C8, as the code has it. When the run has reached the input face [e], a
    quadrilateral, with the state [st], the overlap faces that it takes for
    [e] are the [n] consecutive overlap faces from the cursor [ixOverlap st]
    on whose first face is [e]; on an overlap mesh sorted by first face
    these are all the overlap faces of [e].
    - [n = 0]: [e] is skipped before the coverage test; only the progress
      message is announced, and the cursor and the map are unchanged.
    - [n <> 0], the quadrature gives [raw], and the areas of the overlap
      faces differ from the area of [e] by more than [1e-10]: the face
      completes whatever the solver is, "Partial element: e" is announced,
      and [raw], unmodified, is added to the map.
    - [n <> 0], the quadrature gives [raw], and the areas are within
      [1e-10]: the corrector is called on the source areas, the areas of
      the overlap faces and the matrix [C[j][p * nP + q] = raw[p][q][j]];
      when it throws the run throws, and what it returns is added to the
      map, with no message about partial coverage.
    A run that completes has announced "Partial element: e" exactly in the
    second case. *)
Theorem partial_coverage_element (smatMap0 : SparseMatrix) (e : nat)
  (st : State) :
  (e < List.length (faces meshInput))%nat ->
  upto e smatMap0 = Ok st ->
  List.length (edges (face_at meshInput e)) = 4%nat ->
  exists n : nat,
    (ixOverlap st + n <= nOverlap)%nat /\
    (forall j, (j < n)%nat -> first (ixOverlap st + j)%nat = Z.of_nat e) /\
    ((ixOverlap st + n < nOverlap)%nat ->
     first (ixOverlap st + n)%nat <> Z.of_nat e) /\
    ((forall i j, (i <= j < nOverlap)%nat -> (first i <= first j)%Z) ->
     (forall i, (i < nOverlap)%nat -> (0 <= first i)%Z) ->
     forall i, (i < nOverlap)%nat ->
       first i = Z.of_nat e <-> (ixOverlap st <= i < ixOverlap st + n)%nat) /\
    (n = 0%nat ->
     upto (Datatypes.S e) smatMap0
     = Ok (mkState (ixOverlap st) (smatMap st)
             (announced st ++ progress e))) /\
    (n <> 0%nat ->
     forall raw : Coeff3,
       local_coefficients ext meshInput meshOverlap dataGLLNodes fMonotone
         (face_at meshInput e) (ixOverlap st) n = Ok raw ->
       (coverage_tolerance
        < Qabs (sumQ n (fun j => area (ixOverlap st + j)%nat)
                - vecFaceArea meshInput e) ->
        exists st',
          upto (Datatypes.S e) smatMap0 = Ok st' /\
          (forall solver,
             element (with_solver solver) meshInput meshOutput meshOverlap
               dataGLLNodes dataGLLJacobian fMonotone e st = Ok st') /\
          announced st'
          = (announced st ++ progress e ++ [AnnouncePartialElement e])%list /\
          ixOverlap st' = (ixOverlap st + n)%nat /\
          forall r c,
            smatMap st' r c == folded (smatMap st) e (ixOverlap st) n raw r c) /\
       (Qabs (sumQ n (fun j => area (ixOverlap st + j)%nat)
              - vecFaceArea meshInput e) <= coverage_tolerance ->
        exists (vecSourceArea vecTargetArea : DataVector.t)
               (dCoeff : DataMatrix.t),
          (DataVector.GetRows vecSourceArea = (nP * nP)%nat /\
           forall p q, (p < nP)%nat -> (q < nP)%nat ->
             DataVector.get vecSourceArea (p * nP + q)
             = data3 dataGLLJacobian p q e) /\
          (DataVector.GetRows vecTargetArea = n /\
           forall j, (j < n)%nat ->
             DataVector.get vecTargetArea j = area (ixOverlap st + j)%nat) /\
          (DataMatrix.GetRows dCoeff = n /\
           DataMatrix.GetColumns dCoeff = (nP * nP)%nat /\
           forall j p q, (j < n)%nat -> (p < nP)%nat -> (q < nP)%nat ->
             DataMatrix.get dCoeff j (p * nP + q) = raw p q j) /\
          (forall x,
             Corrector.ForceConsistencyConservation3 (dposv ext)
               vecSourceArea vecTargetArea dCoeff fMonotone = Err x ->
             upto (Datatypes.S e) smatMap0 = Err x) /\
          (forall dCoeff',
             Corrector.ForceConsistencyConservation3 (dposv ext)
               vecSourceArea vecTargetArea dCoeff fMonotone = Ok dCoeff' ->
             exists st',
               upto (Datatypes.S e) smatMap0 = Ok st' /\
               announced st' = (announced st ++ progress e)%list /\
               ixOverlap st' = (ixOverlap st + n)%nat /\
               forall r c,
                 smatMap st' r c
                 == folded (smatMap st) e (ixOverlap st) n
                      (fun p q j => DataMatrix.get dCoeff' j (p * nP + q))
                      r c))) /\
    (forall final,
       LinearRemapSE4 ext meshInput meshOutput meshOverlap dataGLLNodes
         dataGLLJacobian fMonotone smatMap0 = Ok final ->
       In (AnnouncePartialElement e) (announced final) <->
       n <> 0%nat /\
       coverage_tolerance
       < Qabs (sumQ n (fun j => area (ixOverlap st + j)%nat)
               - vecFaceArea meshInput e)).
Proof.
  intros He Hst H4.
  pose proof (upto_cursor_bounded smatMap0 e st Hst) as Hix.
  assert (Hstep : upto (Datatypes.S e) smatMap0
                  = element ext meshInput meshOutput meshOverlap dataGLLNodes
                      dataGLLJacobian fMonotone e st).
  { unfold elements_upto in *. rewrite RemapFacts.for_loopM_S, Hst.
    reflexivity. }
  assert (Hhead : (if (e mod 100 =? 0)%nat
                   then (announced st ++ [AnnounceElement e])%list
                   else announced st)
                  = (announced st ++ progress e)%list).
  { destruct (e mod 100 =? 0)%nat; [reflexivity | symmetry; apply app_nil_r]. }
  exists (overlap_faces_of meshOverlap e st).
  set (n := overlap_faces_of meshOverlap e st).
  destruct (RemapFacts.count_overlap_faces_spec meshOverlap
              (nOverlap - ixOverlap st) e (ixOverlap st) 0)
    as (m & S1 & S2 & S3 & S4).
  assert (Hn : n = m) by (unfold n, overlap_faces_of; rewrite S1; reflexivity).
  (* the messages before and after the face *)
  assert (Hbefore : ~ In (AnnouncePartialElement e) (announced st)).
  { destruct (RemapFacts.upto_announced ext meshInput meshOutput meshOverlap
                dataGLLNodes dataGLLJacobian fMonotone smatMap0 0 e
                (mkState 0 smatMap0 []) st ltac:(lia) eq_refl Hst)
      as (rest & R1 & R2).
    cbn [announced app] in R1. rewrite R1. intro Hin.
    destruct (R2 _ Hin) as (i & Hi & [Hm | Hm]);
      [discriminate | injection Hm as ->; lia]. }
  assert (Hquiet : ~ In (AnnouncePartialElement e)
                       (announced st ++ progress e)%list).
  { intro Hin. apply in_app_or in Hin. destruct Hin as [Hin | Hin];
      [exact (Hbefore Hin)|].
    destruct (e mod 100 =? 0)%nat; [|destruct Hin].
    destruct Hin as [Hin | []]. discriminate. }
  assert (Hafter : forall st' final,
            upto (Datatypes.S e) smatMap0 = Ok st' ->
            LinearRemapSE4 ext meshInput meshOutput meshOverlap dataGLLNodes
              dataGLLJacobian fMonotone smatMap0 = Ok final ->
            In (AnnouncePartialElement e) (announced final) <->
            In (AnnouncePartialElement e) (announced st')).
  { intros st' final Hst' Hrun.
    destruct (RemapFacts.upto_announced ext meshInput meshOutput meshOverlap
                dataGLLNodes dataGLLJacobian fMonotone smatMap0
                (Datatypes.S e) (List.length (faces meshInput)) st' final
                ltac:(lia) Hst' Hrun) as (rest & R1 & R2).
    rewrite R1. split; [|intro Hin; apply in_or_app; left; exact Hin].
    intro Hin. apply in_app_or in Hin. destruct Hin as [Hin | Hin];
      [exact Hin|].
    destruct (R2 _ Hin) as (i & Hi & [Hm | Hm]);
      [discriminate | injection Hm as ->; lia]. }
  split; [lia|].
  split; [intros j Hj; apply S3; lia|].
  split; [intro Hlt; rewrite Hn; apply S4; lia|].
  split.
  { intros Hsorted Hrange i Hi.
    destruct (upto_cursor_sorted smatMap0 e st Hsorted Hrange Hst)
      as (Hlt & Hge).
    split.
    - intro Hfe.
      destruct (Nat.lt_ge_cases i (ixOverlap st)) as [Hb | Hb];
        [specialize (Hlt i Hb); lia|].
      split; [exact Hb|].
      destruct (Nat.lt_ge_cases i (ixOverlap st + n)) as [Ha | Ha];
        [exact Ha | exfalso].
      assert (Hm : (m < nOverlap - ixOverlap st)%nat) by lia.
      specialize (S4 Hm).
      pose proof (Hsorted (ixOverlap st + m)%nat i ltac:(lia)) as G1.
      pose proof (Hge (ixOverlap st + m)%nat ltac:(lia)) as G2.
      cbv beta in *. lia.
    - intro Hr. apply S3. lia. }
  split.
  { intro H0. rewrite Hstep.
    rewrite (RemapFacts.element_skipped ext meshInput meshOutput meshOverlap
               dataGLLNodes dataGLLJacobian fMonotone e st H4 H0).
    rewrite Hhead. reflexivity. }
  split.
  { intros H0 raw Hloc. split.
    - intro Hpart. eexists. split; [|split; [|split; [|split]]].
      + rewrite Hstep.
        apply (RemapFacts.element_partial ext meshInput meshOutput
                 meshOverlap dataGLLNodes dataGLLJacobian fMonotone e st raw
                 H4 H0 Hloc Hpart).
      + intro solver.
        apply (RemapFacts.element_partial (with_solver solver) meshInput
                 meshOutput meshOverlap dataGLLNodes dataGLLJacobian
                 fMonotone e st raw H4 H0 Hloc Hpart).
      + cbn [announced]. rewrite Hhead, app_assoc. reflexivity.
      + reflexivity.
      + intros r c. cbn [smatMap].
        apply put_in_map_folded. intros; reflexivity.
    - intro Hcov.
      destruct (RemapFacts.source_areas_spec dataGLLNodes dataGLLJacobian e)
        as (A1 & A2).
      destruct (RemapFacts.target_areas_spec meshOverlap (ixOverlap st) n)
        as (_ & T2 & T3).
      destruct (RemapFacts.flatten_spec dataGLLNodes n raw) as (F1 & F2 & F3).
      exists (fst (source_areas dataGLLNodes dataGLLJacobian e)),
             (fst (target_areas meshOverlap (ixOverlap st) n)),
             (flatten dataGLLNodes n raw).
      split; [split; assumption|]. split; [split; assumption|].
      split; [split; [|split]; assumption|].
      pose proof (RemapFacts.element_covered ext meshInput meshOutput
                    meshOverlap dataGLLNodes dataGLLJacobian fMonotone e st
                    raw H4 H0 Hloc Hcov) as Hc.
      fold n in Hc.
      split.
      + intros x Hx. rewrite Hstep, Hc, Hx. reflexivity.
      + intros M HM. rewrite Hstep, Hc, HM. cbn [bind].
        eexists. split; [reflexivity|].
        cbn [announced ixOverlap smatMap].
        split; [exact Hhead|]. split; [reflexivity|].
        intros r c. apply put_in_map_folded.
        intros j p q Hj Hp Hq.
        apply RemapFacts.unflatten_in_range; assumption. }
  intros final Hrun.
  destruct (RemapFacts.for_loopM_prefix _ _ _ _ Hrun (Datatypes.S e)
              ltac:(lia)) as (st' & Hst').
  change (upto (Datatypes.S e) smatMap0 = Ok st') in Hst'.
  rewrite (Hafter st' final Hst' Hrun).
  rewrite Hstep in Hst'.
  destruct (Nat.eq_dec n 0) as [H0 | H0].
  - rewrite (RemapFacts.element_skipped ext meshInput meshOutput meshOverlap
               dataGLLNodes dataGLLJacobian fMonotone e st H4 H0) in Hst'.
    assert (Hann : announced st' = (announced st ++ progress e)%list)
      by (injection Hst' as <-; exact Hhead).
    rewrite Hann.
    split; [intro Hin; contradiction | intros (Hne & _); contradiction].
  - destruct (local_coefficients ext meshInput meshOverlap dataGLLNodes
                fMonotone (face_at meshInput e) (ixOverlap st) n)
      as [raw | e1] eqn:Hloc.
    2:{ exfalso.
        assert (Herr : element ext meshInput meshOutput meshOverlap
                         dataGLLNodes dataGLLJacobian fMonotone e st
                       = Err e1).
        { apply RemapFacts.element_Err. right. split; [exact H4|].
          cbv zeta. split; [exact H0|]. left. exact Hloc. }
        rewrite Herr in Hst'. discriminate. }
    destruct (Qlt_le_dec coverage_tolerance
                (Qabs (sumQ n (fun j => area (ixOverlap st + j)%nat)
                       - vecFaceArea meshInput e))) as [Hpart | Hcov].
    + rewrite (RemapFacts.element_partial ext meshInput meshOutput
                 meshOverlap dataGLLNodes dataGLLJacobian fMonotone e st raw
                 H4 H0 Hloc Hpart) in Hst'.
      assert (Hann : announced st'
                     = ((announced st ++ progress e)
                        ++ [AnnouncePartialElement e])%list)
        by (injection Hst' as <-;
            exact (f_equal (fun l => (l ++ [AnnouncePartialElement e])%list)
                     Hhead)).
      rewrite Hann.
      split; [intros _; split; assumption|].
      intros _. apply in_or_app. right. left. reflexivity.
    + rewrite (RemapFacts.element_covered ext meshInput meshOutput
                 meshOverlap dataGLLNodes dataGLLJacobian fMonotone e st raw
                 H4 H0 Hloc Hcov) in Hst'.
      destruct (Corrector.ForceConsistencyConservation3 _ _ _ _ _)
        as [M | e2]; [|discriminate].
      cbn [bind] in Hst'.
      assert (Hann : announced st' = (announced st ++ progress e)%list)
        by (injection Hst' as <-; exact Hhead).
      rewrite Hann.
      split; [intro Hin; contradiction|].
      intros (_ & Hpart). exfalso. apply (Qlt_not_le _ _ Hpart). exact Hcov.
Qed.

End Coverage.

(** The square cut by the triangle that is half of it: the input face 0 is
    partial, also with a solver that always fails. *)
Lemma partial_coverage_element_witness :
  exists st',
    elements_upto (Sample.collaborators Sample.plane_map) Sample.meshSquare
      Sample.meshSquare Sample.overlapHalf Sample.dataGLLNodes
      Sample.dataGLLJacobian false 1 Sample.smatEmpty = Ok st' /\
    element
      (mkCollaborators 1 (fun _ _ => 1 # 3) (fun _ => 1) (fun _ => 1)
         (fun _ _ => 1 # 2) Sample.plane_map
         (SampleGLLFiniteElement (Sample.collaborators Sample.plane_map))
         (fun _ _ _ _ _ b _ => (1%Z, b)))
      Sample.meshSquare Sample.meshSquare Sample.overlapHalf
      Sample.dataGLLNodes Sample.dataGLLJacobian false 0
      (mkState 0 Sample.smatEmpty []) = Ok st' /\
    announced st' = [AnnounceElement 0; AnnouncePartialElement 0] /\
    ixOverlap st' = 1%nat.
Proof.
  destruct (partial_coverage_element (Sample.collaborators Sample.plane_map)
              Sample.meshSquare Sample.meshSquare Sample.overlapHalf
              Sample.dataGLLNodes Sample.dataGLLJacobian false
              Sample.smatEmpty 0 (mkState 0 Sample.smatEmpty [])
              ltac:(simpl; lia) eq_refl eq_refl)
    as (n & Hle & _ & Hstop & _ & _ & Hsome & _).
  cbn [ixOverlap Nat.add] in *.
  assert (Hn : n = 1%nat).
  { destruct n as [|[|n]]; [exfalso | reflexivity | simpl in Hle; lia].
    apply Hstop; [simpl; lia | reflexivity]. }
  subst n.
  destruct (local_coefficients (Sample.collaborators Sample.plane_map)
              Sample.meshSquare Sample.overlapHalf Sample.dataGLLNodes false
              (face_at Sample.meshSquare 0) 0 1) as [raw | x] eqn:E;
    [|vm_compute in E; discriminate E].
  destruct (Hsome ltac:(discriminate) raw eq_refl) as (Hpart & _).
  destruct (Hpart ltac:(vm_compute; reflexivity))
    as (st' & Hst' & Hsolver & Hann & Hcur & _).
  exists st'. split; [exact Hst'|]. split; [apply Hsolver|].
  split; [exact Hann | exact Hcur].
Defined.

End CoverageFacts.

(** ** [ParseVariableList] on any string *)

Module ParseFacts.

Import Driver.
Local Open Scope string_scope.
Local Open Scope nat_scope.

(** *** Strings *)

Lemma length_append (s1 s2 : string) :
  String.length (s1 ++ s2) = String.length s1 + String.length s2.
Proof. induction s1 as [|c s1 IH]; simpl; [reflexivity | rewrite IH; reflexivity]. Qed.

Lemma append_assoc (s1 s2 s3 : string) : (s1 ++ s2) ++ s3 = s1 ++ s2 ++ s3.
Proof. induction s1 as [|c s1 IH]; simpl; [reflexivity | rewrite IH; reflexivity]. Qed.

Lemma get_lt (s : string) (k : nat) :
  k < String.length s -> String.get k s <> None.
Proof.
  revert k. induction s as [|c s IH]; intros k Hk; simpl in *; [lia|].
  destruct k as [|k]; [discriminate | apply IH; lia].
Qed.

Lemma get_ge (s : string) (k : nat) :
  String.length s <= k -> String.get k s = None.
Proof.
  revert k. induction s as [|c s IH]; intros k Hk; simpl in *; [reflexivity|].
  destruct k as [|k]; [lia | apply IH; lia].
Qed.

Lemma substring_prefix (x rest : string) :
  String.substring 0 (String.length x) (x ++ rest) = x.
Proof.
  induction x as [|c x IH]; simpl.
  - destruct rest; reflexivity.
  - rewrite IH. reflexivity.
Qed.

Lemma substring_middle (pre x rest : string) :
  String.substring (String.length pre) (String.length x) (pre ++ x ++ rest) = x.
Proof.
  induction pre as [|c pre IH]; simpl.
  - apply substring_prefix.
  - exact IH.
Qed.

(** *** The loop of [ParseVariableList] *)

Lemma at_delimiter_inside (s : string) (k : nat) :
  at_delimiter s k = false -> k < String.length s.
Proof.
  unfold at_delimiter. intro H.
  destruct (Nat.leb_spec (String.length s) k); [discriminate | assumption].
Qed.

Section Diverges.

Variable s : string.
Variable p : nat.
Hypothesis p_inside : p < String.length s.
Hypothesis p_delimiter : at_delimiter s p = true.
Hypothesis p_empty : p = 0 \/ at_delimiter s (p - 1) = true.

Lemma ParseVariableList_loop_never (st : ParseState) :
  iVarCurrent st <= p ->
  (iVarCurrent st = p -> iVarBegin st = p) ->
  forall fuel, ParseVariableList_loop fuel s st = None.
Proof.
  intros H1 H2 fuel. revert st H1 H2.
  induction fuel as [|fuel IH]; intros st H1 H2; [reflexivity|].
  cbn [ParseVariableList_loop]. unfold ParseVariableList_iter.
  destruct (at_delimiter s (iVarCurrent st)) eqn:Ed.
  - destruct (Nat.eqb_spec (iVarCurrent st) (iVarBegin st)) as [Heq | Hne].
    + destruct (Nat.leb_spec (String.length s) (iVarCurrent st)); [lia|].
      apply IH; assumption.
    + apply IH; cbn [iVarCurrent iVarBegin]; lia.
  - assert (iVarCurrent st <> p)
      by (intro Hp; rewrite Hp in Ed; congruence).
    apply IH; cbn [iVarCurrent iVarBegin]; [lia|].
    intro Hp. exfalso.
    destruct p_empty as [H0 | Hd]; [lia|].
    replace (p - 1) with (iVarCurrent st) in Hd by lia. congruence.
Qed.

End Diverges.

(** The loop never reaches its [break] on a string with an empty name: a
    delimiter that is the first character, or that follows another
    delimiter. *)
Theorem ParseVariableList_empty_name_diverges (s : string) (p : nat) :
  p < String.length s ->
  at_delimiter s p = true ->
  p = 0 \/ at_delimiter s (p - 1) = true ->
  forall fuel, ParseVariableList fuel s = None.
Proof.
  intros H1 H2 H3 fuel. unfold ParseVariableList.
  apply (ParseVariableList_loop_never s p H1 H2 H3); cbn; lia.
Qed.

Lemma ParseVariableList_empty_name_diverges_witness :
  ParseVariableList 1000 "T,,U" = None.
Proof.
  apply (ParseVariableList_empty_name_diverges "T,,U" 2);
    [simpl; lia | reflexivity | right; reflexivity].
Defined.

Section Returns.

Variable s : string.
Hypothesis no_empty_name :
  forall p, p < String.length s -> at_delimiter s p = true ->
    p <> 0 /\ at_delimiter s (p - 1) = false.

Lemma ParseVariableList_loop_returns (fuel : nat) (st : ParseState) :
  iVarBegin st <= iVarCurrent st <= String.length s + 1 ->
  (iVarCurrent st = String.length s + 1 -> iVarBegin st = iVarCurrent st) ->
  (iVarBegin st = iVarCurrent st -> iVarCurrent st < String.length s ->
   at_delimiter s (iVarCurrent st) = false) ->
  String.length s + 2 <= iVarCurrent st + fuel ->
  exists v, ParseVariableList_loop fuel s st = Some v.
Proof.
  revert st. induction fuel as [|fuel IH]; intros st H1 H2 H3 H4; [lia|].
  cbn [ParseVariableList_loop]. unfold ParseVariableList_iter.
  destruct (at_delimiter s (iVarCurrent st)) eqn:Ed.
  - destruct (Nat.eqb_spec (iVarCurrent st) (iVarBegin st)) as [Heq | Hne].
    + destruct (Nat.leb_spec (String.length s) (iVarCurrent st)).
      * eexists. reflexivity.
      * assert (Habs : true = false) by (apply H3; [lia | assumption]).
        discriminate Habs.
    + apply IH; cbn [iVarCurrent iVarBegin]; try lia.
      intros _ Hlt.
      destruct (at_delimiter s (iVarCurrent st + 1)) eqn:Ed'; [|reflexivity].
      destruct (no_empty_name (iVarCurrent st + 1) Hlt Ed') as (_ & Hprev).
      replace (iVarCurrent st + 1 - 1) with (iVarCurrent st) in Hprev by lia.
      congruence.
  - pose proof (at_delimiter_inside _ _ Ed).
    apply IH; cbn [iVarCurrent iVarBegin]; lia.
Qed.

End Returns.

(** On a string without an empty name the loop reaches its [break] within
    [length + 2] iterations. *)
Theorem ParseVariableList_returns (s : string) :
  (forall p, p < String.length s -> at_delimiter s p = true ->
     p <> 0 /\ at_delimiter s (p - 1) = false) ->
  exists v, ParseVariableList (String.length s + 2) s = Some v.
Proof.
  intro H. unfold ParseVariableList.
  apply (ParseVariableList_loop_returns s H); cbn [iVarCurrent iVarBegin];
    try lia.
  intros _ Hlt.
  destruct (at_delimiter s 0) eqn:Ed; [|reflexivity].
  destruct (H 0 Hlt Ed) as (Hne & _). congruence.
Qed.

Lemma ParseVariableList_returns_witness :
  exists v, ParseVariableList (String.length "T,Uv " + 2) "T,Uv " = Some v.
Proof.
  apply (ParseVariableList_returns "T,Uv ").
  intros p Hp. simpl in Hp.
  destruct p as [|[|[|[|[|p]]]]]; cbn; intro H;
    try discriminate H; try lia; split; (lia || reflexivity).
Defined.

(** A name: not empty, and without a comma or a space. *)
Local Abbreviation is_name :=
  (fun name : string =>
     name <> "" /\
     forall k, char_is name k "," = false /\ char_is name k " " = false).

Lemma char_is_substring (s : string) (b n k : nat) (ch : ascii) :
  char_is (String.substring b n s) k ch
  = if k <? n then char_is s (k + b) ch else false.
Proof.
  unfold char_is. destruct (Nat.ltb_spec k n).
  - rewrite substring_correct1 by assumption. reflexivity.
  - rewrite substring_correct2 by assumption. reflexivity.
Qed.

Lemma at_delimiter_false (s : string) (k : nat) :
  at_delimiter s k = false ->
  char_is s k "," = false /\ char_is s k " " = false.
Proof.
  unfold at_delimiter. intro H.
  apply orb_false_iff in H. destruct H as (H & H2).
  apply orb_false_iff in H. destruct H as (_ & H1). split; assumption.
Qed.

Lemma ParseVariableList_loop_names (s : string) (fuel : nat) (st : ParseState)
  (v : list string) :
  iVarBegin st <= iVarCurrent st ->
  (forall k, iVarBegin st <= k < iVarCurrent st -> at_delimiter s k = false) ->
  Forall is_name (vecVariableStrings st) ->
  ParseVariableList_loop fuel s st = Some v ->
  Forall is_name v.
Proof.
  revert st. induction fuel as [|fuel IH]; intros st H1 H2 H3; [discriminate|].
  cbn [ParseVariableList_loop]. unfold ParseVariableList_iter.
  destruct (at_delimiter s (iVarCurrent st)) eqn:Ed.
  - destruct (Nat.eqb_spec (iVarCurrent st) (iVarBegin st)) as [Heq | Hne].
    + destruct (Nat.leb_spec (String.length s) (iVarCurrent st)).
      * intro Hv. injection Hv as <-. exact H3.
      * apply IH; assumption.
    + apply IH; cbn [iVarCurrent iVarBegin vecVariableStrings]; [lia | intros; lia |].
      apply Forall_app. split; [exact H3|]. constructor; [|constructor].
      split.
      * intro Hnil.
        assert (Hb : at_delimiter s (iVarBegin st) = false) by (apply H2; lia).
        apply at_delimiter_inside in Hb.
        apply (get_lt s (iVarBegin st) Hb).
        pose proof (substring_correct1 s (iVarBegin st)
                      (iVarCurrent st - iVarBegin st) 0 ltac:(lia)) as Hs.
        rewrite Hnil in Hs. symmetry. exact Hs.
      * intro k. rewrite !char_is_substring.
        destruct (Nat.ltb_spec k (iVarCurrent st - iVarBegin st));
          [|split; reflexivity].
        apply at_delimiter_false. apply H2. lia.
  - apply IH; cbn [iVarCurrent iVarBegin vecVariableStrings];
      [lia | | exact H3].
    intros k Hk.
    destruct (Nat.eq_dec k (iVarCurrent st)) as [-> | Hne];
      [exact Ed | apply H2; lia].
Qed.

(** Every name that [ParseVariableList] returns is not empty and has no
    comma and no space in it. *)
Theorem ParseVariableList_names (s : string) (fuel : nat) (v : list string) :
  ParseVariableList fuel s = Some v ->
  forall name, In name v ->
    name <> "" /\
    forall k, char_is name k "," = false /\ char_is name k " " = false.
Proof.
  intros H.
  apply (Forall_forall is_name v).
  apply (ParseVariableList_loop_names s fuel _ v) in H;
    cbn [iVarCurrent iVarBegin vecVariableStrings];
    [exact H | lia | intros; lia | constructor].
Qed.

Lemma ParseVariableList_names_witness :
  "Uv" <> "" /\
  forall k, char_is "Uv" k "," = false /\ char_is "Uv" k " " = false.
Proof.
  apply (ParseVariableList_names "T,Uv " 7 ["T"; "Uv"] eq_refl).
  right. left. reflexivity.
Defined.

(** The loop runs over characters that are not delimiters. *)
Lemma ParseVariableList_loop_scan (s : string) (b : nat) (acc : list string)
  (n c fuel : nat) :
  (forall k, c <= k < c + n -> at_delimiter s k = false) ->
  ParseVariableList_loop (n + fuel) s (mkParseState b c acc)
  = ParseVariableList_loop fuel s (mkParseState b (c + n) acc).
Proof.
  revert c. induction n as [|n IH]; intros c H.
  - rewrite Nat.add_0_r. reflexivity.
  - cbn [Nat.add ParseVariableList_loop]. unfold ParseVariableList_iter.
    cbn [iVarCurrent iVarBegin vecVariableStrings].
    rewrite (H c) by lia.
    rewrite IH by (intros; apply H; lia).
    replace (c + 1 + n) with (c + S n) by lia. reflexivity.
Qed.

Lemma at_delimiter_name (pre x rest : string) (k : nat) :
  is_name x ->
  String.length pre <= k < String.length pre + String.length x ->
  at_delimiter (pre ++ x ++ rest) k = false.
Proof.
  intros (_ & Hx) Hk. unfold at_delimiter.
  rewrite <- append_assoc, !length_append.
  destruct (Nat.leb_spec (String.length pre + String.length x
                          + String.length rest) k); [lia|].
  assert (Hget : String.get k ((pre ++ x) ++ rest)
                 = String.get (k - String.length pre) x).
  { rewrite <- append_correct1 by (rewrite length_append; lia).
    replace k with (k - String.length pre + String.length pre) at 1 by lia.
    rewrite <- append_correct2. reflexivity. }
  destruct (Hx (k - String.length pre)) as (H1 & H2).
  unfold char_is in *. rewrite Hget, H1, H2. reflexivity.
Qed.

Lemma append_nil_r (x : string) : x ++ "" = x.
Proof. induction x as [|c x IH]; simpl; [reflexivity | rewrite IH; reflexivity]. Qed.

Lemma ParseVariableList_iter_push (s : string) (b c : nat) (acc : list string) :
  at_delimiter s c = true -> c <> b ->
  ParseVariableList_iter s (mkParseState b c acc)
  = inl (mkParseState (c + 1) (c + 1)
           (acc ++ [String.substring b (c - b) s])).
Proof.
  intros Hd Hne. unfold ParseVariableList_iter.
  cbn [iVarCurrent iVarBegin vecVariableStrings]. rewrite Hd.
  destruct (Nat.eqb_spec c b); [contradiction | reflexivity].
Qed.

Lemma ParseVariableList_iter_break (s : string) (c : nat) (acc : list string) :
  String.length s <= c ->
  ParseVariableList_iter s (mkParseState c c acc) = inr acc.
Proof.
  intro Hc. unfold ParseVariableList_iter, at_delimiter.
  cbn [iVarCurrent iVarBegin vecVariableStrings].
  apply Nat.leb_le in Hc. rewrite Hc, Nat.eqb_refl. reflexivity.
Qed.

Lemma ParseVariableList_loop_concat (l : list string) :
  Forall is_name l ->
  forall pre acc,
    ParseVariableList_loop (String.length (String.concat "," l) + 2)
      (pre ++ String.concat "," l)
      (mkParseState (String.length pre) (String.length pre) acc)
    = Some (acc ++ l)%list.
Proof.
  induction l as [|x l IH]; intros Hl pre acc.
  - cbn [String.concat String.length Nat.add ParseVariableList_loop].
    rewrite ParseVariableList_iter_break
      by (rewrite length_append; simpl; lia).
    rewrite app_nil_r. reflexivity.
  - inversion Hl as [|x' l' Hx Hl' E]. subst x' l'.
    assert (Hpos : 0 < String.length x).
    { destruct Hx as (Hne & _). destruct x; [congruence | simpl; lia]. }
    destruct l as [|y l].
    + cbn [String.concat].
      replace (pre ++ x) with (pre ++ x ++ "")
        by (rewrite append_nil_r; reflexivity).
      rewrite ParseVariableList_loop_scan
        by (intros k Hk; apply at_delimiter_name; assumption).
      cbn [Nat.add ParseVariableList_loop].
      rewrite ParseVariableList_iter_push; [| |lia].
      2:{ unfold at_delimiter. rewrite !length_append. simpl.
          replace (String.length pre + (String.length x + 0) <=?
                   String.length pre + String.length x) with true
            by (symmetry; apply Nat.leb_le; lia).
          reflexivity. }
      rewrite ParseVariableList_iter_break
        by (rewrite !length_append; simpl; lia).
      replace (String.length pre + String.length x - String.length pre)
        with (String.length x) by lia.
      rewrite substring_middle. reflexivity.
    + change (String.concat "," (x :: y :: l))
        with (x ++ "," ++ String.concat "," (y :: l)).
      set (rest := String.concat "," (y :: l)) in *.
      replace (String.length (x ++ "," ++ rest) + 2)
        with (String.length x + Datatypes.S (String.length rest + 2))
        by (rewrite !length_append; simpl; lia).
      rewrite ParseVariableList_loop_scan
        by (intros k Hk; apply at_delimiter_name; assumption).
      cbn [ParseVariableList_loop].
      rewrite ParseVariableList_iter_push; [| |lia].
      2:{ unfold at_delimiter, char_is.
          replace (String.get (String.length pre + String.length x)
                     (pre ++ x ++ "," ++ rest)) with (Some ","%char).
          - cbn. rewrite orb_true_r. reflexivity.
          - rewrite <- append_assoc.
            rewrite <- length_append.
            replace (String.length (pre ++ x))
              with (0 + String.length (pre ++ x)) by lia.
            rewrite <- append_correct2. reflexivity. }
      replace (String.length pre + String.length x - String.length pre)
        with (String.length x) by lia.
      rewrite substring_middle.
      replace (pre ++ x ++ "," ++ rest) with ((pre ++ x ++ ",") ++ rest)
        by (rewrite !append_assoc; reflexivity).
      replace (String.length pre + String.length x + 1)
        with (String.length (pre ++ x ++ ","))
        by (rewrite !length_append; simpl; lia).
      rewrite (IH Hl' (pre ++ x ++ ",") (acc ++ [x])%list).
      rewrite <- app_assoc. reflexivity.
Qed.

(** Names joined by commas are parsed back to the same names, within
    [length + 2] iterations. *)
Theorem ParseVariableList_concat (l : list string) :
  (forall name, In name l ->
     name <> "" /\
     forall k, char_is name k "," = false /\ char_is name k " " = false) ->
  ParseVariableList (String.length (String.concat "," l) + 2)
    (String.concat "," l)
  = Some l.
Proof.
  intro H. unfold ParseVariableList.
  apply (ParseVariableList_loop_concat l (proj2 (Forall_forall _ l) H) "" []).
Qed.

Lemma ParseVariableList_concat_witness :
  ParseVariableList (String.length (String.concat "," ["T"; "Uv"; "PS"]) + 2)
    (String.concat "," ["T"; "Uv"; "PS"])
  = Some ["T"; "Uv"; "PS"].
Proof.
  apply (ParseVariableList_concat ["T"; "Uv"; "PS"]).
  intros name [<- | [<- | [<- | []]]]; (split; [discriminate|]);
    intro k; destruct k as [|[|[|k]]]; split; reflexivity.
Defined.

End ParseFacts.

(** ** The command line *)

Module CommandLineFacts.

Import Driver CommandLine.
Local Open Scope string_scope.
Local Open Scope nat_scope.

(** Once a character has been read or a name stored, the loop returns at
    least one name. *)
Lemma ParseVariableList_loop_nonempty (s : string) (fuel : nat)
  (st : ParseState) (v : list string) :
  iVarBegin st <= iVarCurrent st ->
  iVarBegin st < iVarCurrent st \/ vecVariableStrings st <> [] ->
  ParseVariableList_loop fuel s st = Some v ->
  v <> [].
Proof.
  revert st. induction fuel as [|fuel IH]; intros st H1 H2; [discriminate|].
  cbn [ParseVariableList_loop]. unfold ParseVariableList_iter.
  destruct (at_delimiter s (iVarCurrent st)).
  - destruct (Nat.eqb_spec (iVarCurrent st) (iVarBegin st)) as [Heq | Hne].
    + destruct (String.length s <=? iVarCurrent st).
      * intro Hv. injection Hv as <-. destruct H2 as [H2 | H2]; [lia | exact H2].
      * apply IH; assumption.
    + apply IH; cbn [iVarCurrent iVarBegin vecVariableStrings]; [lia|].
      right. intro Hnil. apply app_eq_nil in Hnil. destruct Hnil as (_ & Hn).
      discriminate Hn.
  - apply IH; cbn [iVarCurrent iVarBegin vecVariableStrings]; [lia|].
    left. lia.
Qed.

(** [ParseVariableList] returns no name only on the empty string. *)
Lemma ParseVariableList_nil (s : string) (fuel : nat) :
  ParseVariableList fuel s = Some [] <-> fuel <> 0 /\ s = "".
Proof.
  split.
  - destruct fuel as [|fuel]; [discriminate|].
    intro H. split; [discriminate|].
    destruct s as [|ch s]; [reflexivity | exfalso].
    revert H. unfold ParseVariableList.
    cbn [ParseVariableList_loop]. unfold ParseVariableList_iter.
    cbn [iVarCurrent iVarBegin vecVariableStrings Nat.eqb].
    destruct (at_delimiter (String ch s) 0) eqn:Ed.
    + cbn [String.length Nat.leb]. intro H.
      rewrite (ParseFacts.ParseVariableList_loop_never (String ch s) 0) in H;
        [discriminate | simpl; lia | exact Ed | left; reflexivity
        | cbn; lia | reflexivity].
    + intro H.
      apply (ParseVariableList_loop_nonempty _ _ _ _) in H;
        cbn [iVarCurrent iVarBegin vecVariableStrings]; [|lia|left; lia].
      congruence.
  - intros (Hf & ->). destruct fuel as [|fuel]; [congruence | reflexivity].
Qed.

(** "No variables specified" is thrown exactly when both data files are
    given and the list of variables is the empty string. *)
Theorem no_variables_specified_iff (fuel : nat)
  (strInputData strOutputData strVariables : string) :
  check_command_line fuel strInputData strOutputData strVariables
  = Some (inl NoVariablesSpecified)
  <-> fuel <> 0 /\ strInputData <> "" /\ strOutputData <> ""
      /\ strVariables = "".
Proof.
  unfold check_command_line.
  destruct (String.eqb_spec strInputData "") as [Hi | Hi];
    destruct (String.eqb_spec strOutputData "") as [Ho | Ho];
    cbn [negb andb].
  - destruct (ParseVariableList fuel strVariables);
      (split; [discriminate | intros (_ & H & _); contradiction]).
  - split; [discriminate | intros (_ & H & _); contradiction].
  - split; [discriminate | intros (_ & _ & H & _); contradiction].
  - destruct (ParseVariableList fuel strVariables) as [v |] eqn:E.
    + destruct v as [|name v]; cbn [List.length Nat.eqb].
      * apply ParseVariableList_nil in E. destruct E as (Hf & Hs).
        split; [intros _ | reflexivity]. auto.
      * split; [discriminate|]. intros (Hf & _ & _ & Hs).
        assert (Hnil : ParseVariableList fuel strVariables = Some [])
          by (apply ParseVariableList_nil; split; assumption).
        congruence.
    + split; [discriminate|]. intros (Hf & _ & _ & Hs).
      assert (Hnil : ParseVariableList fuel strVariables = Some [])
        by (apply ParseVariableList_nil; split; assumption).
      congruence.
Qed.

End CommandLineFacts.

(** ** The driver *)

Module DriverFacts.

Import Driver.
Local Open Scope string_scope.
Local Open Scope Z_scope.

(** *** Properties of [ParseVariableList] *)

Example ParseVariableList_two_names :
  ParseVariableList 10 "T,Uv" = Some ["T"; "Uv"].
Proof. reflexivity. Qed.

Example ParseVariableList_trailing_comma :
  ParseVariableList 10 "T," = Some ["T"].
Proof. reflexivity. Qed.

(** A state in which the current character is a delimiter inside the
    string and no character has been read since the last token is
    reproduced by the iteration: the [continue] skips [iVarCurrent++]. *)
Lemma ParseVariableList_iter_stuck (s : string) (st : ParseState) :
  at_delimiter s (iVarCurrent st) = true ->
  iVarCurrent st = iVarBegin st ->
  (iVarCurrent st < String.length s)%nat ->
  ParseVariableList_iter s st = inl st.
Proof.
  intros Hd Heq Hlt. unfold ParseVariableList_iter.
  rewrite Hd. rewrite <- Heq, Nat.eqb_refl.
  destruct (Nat.leb_spec (String.length s) (iVarCurrent st)); [lia | reflexivity].
Qed.

Lemma ParseVariableList_loop_stuck (s : string) (st : ParseState) :
  ParseVariableList_iter s st = inl st ->
  forall fuel, ParseVariableList_loop fuel s st = None.
Proof.
  intros Hst fuel. induction fuel as [|fuel IH]; simpl.
  - reflexivity.
  - rewrite Hst. exact IH.
Qed.

(** C10 (the code does not do what the claim says): on the input [","] the
    loop of [ParseVariableList] never reaches its [break]: whatever the
    number of iterations allowed, no result is returned. *)
Theorem ParseVariableList_comma_diverges :
  forall fuel, ParseVariableList fuel "," = None.
Proof.
  intro fuel. unfold ParseVariableList.
  apply ParseVariableList_loop_stuck.
  apply ParseVariableList_iter_stuck; simpl; [reflexivity | reflexivity | lia].
Qed.

(** The same happens after a first name when two delimiters follow each
    other, as in ["T, U"]. *)
Lemma ParseVariableList_comma_space_diverges :
  forall fuel, ParseVariableList fuel "T, U" = None.
Proof.
  intro fuel. unfold ParseVariableList.
  destruct fuel as [|fuel]; [reflexivity|]. simpl.
  destruct fuel as [|fuel]; [reflexivity|]. simpl.
  apply ParseVariableList_loop_stuck.
  apply ParseVariableList_iter_stuck; simpl; [reflexivity | reflexivity | lia].
Qed.

(** *** Properties of the orientation check *)

Lemma ixFirstFaceMax_fold_ge (l : list Z) (m0 : Z) :
  m0 <= fold_left (fun m x => if x + 1 >? m then x + 1 else m) l m0.
Proof.
  revert m0. induction l as [|a l IH]; intro m0; simpl.
  - lia.
  - destruct (Z.gtb_spec (a + 1) m0); specialize (IH (a + 1)) as H1;
      specialize (IH m0) as H2; lia.
Qed.

Lemma ixFirstFaceMax_fold_upper (l : list Z) (m0 : Z) :
  forall x, In x l ->
  x + 1 <= fold_left (fun m x => if x + 1 >? m then x + 1 else m) l m0.
Proof.
  revert m0. induction l as [|a l IH]; intros m0 x Hin; simpl in *.
  - contradiction.
  - destruct Hin as [-> | Hin].
    + destruct (Z.gtb_spec (x + 1) m0).
      * apply ixFirstFaceMax_fold_ge.
      * pose proof (ixFirstFaceMax_fold_ge l m0). lia.
    + apply IH. exact Hin.
Qed.

Lemma ixFirstFaceMax_fold_attained (l : list Z) (m0 : Z) :
  let r := fold_left (fun m x => if x + 1 >? m then x + 1 else m) l m0 in
  r = m0 \/ In (r - 1) l.
Proof.
  revert m0. induction l as [|a l IH]; intro m0; simpl.
  - left. reflexivity.
  - destruct (Z.gtb_spec (a + 1) m0).
    + destruct (IH (a + 1)) as [H1 | H1].
      * right. left. lia.
      * right. right. exact H1.
    + destruct (IH m0) as [H1 | H1].
      * left. exact H1.
      * right. right. exact H1.
Qed.

(** C9: for an overlap mesh with at least one face whose first-face indices
    are 0-based [int] indices, [ixFirstFaceMax] is 1 plus the maximum of
    [vecFirstFaceIx]; when it is the number of input faces the provenance
    arrays are kept, otherwise when it is the number of output faces they
    are swapped, otherwise the run fails with the invalid-overlap-mesh
    error. *)
Theorem verify_overlap_order_spec
  (nInputFaces nOutputFaces : nat) (meshOverlap : OverlapIx) :
  vecFirstFaceIx meshOverlap <> [] ->
  Forall (fun x => 0 <= x < INT_MAX) (vecFirstFaceIx meshOverlap) ->
  exists mx,
    In mx (vecFirstFaceIx meshOverlap) /\
    (forall x, In x (vecFirstFaceIx meshOverlap) -> x <= mx) /\
    ixFirstFaceMax (vecFirstFaceIx meshOverlap) = 1 + mx /\
    (1 + mx = Z.of_nat nInputFaces ->
       verify_overlap_order nInputFaces nOutputFaces meshOverlap
       = PrimaryCorrespondence meshOverlap) /\
    (1 + mx <> Z.of_nat nInputFaces -> 1 + mx = Z.of_nat nOutputFaces ->
       verify_overlap_order nInputFaces nOutputFaces meshOverlap
       = ReverseCorrespondence
           (mkOverlapIx (vecSecondFaceIx meshOverlap) (vecFirstFaceIx meshOverlap))) /\
    (1 + mx <> Z.of_nat nInputFaces -> 1 + mx <> Z.of_nat nOutputFaces ->
       verify_overlap_order nInputFaces nOutputFaces meshOverlap
       = InvalidOverlapMesh (1 + mx)).
Proof.
  intros Hne Hall.
  set (l := vecFirstFaceIx meshOverlap) in *.
  assert (Hin : In (ixFirstFaceMax l - 1) l).
  { destruct (ixFirstFaceMax_fold_attained l (-1)) as [H | H]; [|exact H].
    exfalso. destruct l as [|a l']; [congruence|].
    pose proof (ixFirstFaceMax_fold_upper (a :: l') (-1) a (or_introl eq_refl)) as Hu.
    rewrite Forall_forall in Hall. specialize (Hall a (or_introl eq_refl)).
    simpl in H, Hu. lia. }
  exists (ixFirstFaceMax l - 1).
  assert (Hrange : 0 <= ixFirstFaceMax l - 1 < INT_MAX).
  { rewrite Forall_forall in Hall. apply Hall. exact Hin. }
  assert (Hconv : size_t_of_int (ixFirstFaceMax l) = ixFirstFaceMax l).
  { unfold size_t_of_int. apply Z.mod_small. unfold INT_MAX in Hrange. lia. }
  split; [exact Hin|].
  split.
  { intros x Hx. pose proof (ixFirstFaceMax_fold_upper l (-1) x Hx) as Hu.
    unfold ixFirstFaceMax. lia. }
  split; [lia|].
  replace (1 + (ixFirstFaceMax l - 1)) with (ixFirstFaceMax l) by lia.
  unfold verify_overlap_order. fold l. rewrite Hconv.
  repeat split.
  - intros ->. rewrite Z.eqb_refl. reflexivity.
  - intros Hn1 Hn2.
    destruct (Z.eqb_spec (ixFirstFaceMax l) (Z.of_nat nInputFaces)); [contradiction|].
    rewrite Hn2, Z.eqb_refl. reflexivity.
  - intros Hn1 Hn2.
    destruct (Z.eqb_spec (ixFirstFaceMax l) (Z.of_nat nInputFaces)); [contradiction|].
    destruct (Z.eqb_spec (ixFirstFaceMax l) (Z.of_nat nOutputFaces)); [contradiction|].
    reflexivity.
Qed.

Lemma verify_overlap_order_spec_witness :
  exists mx,
    In mx [0; 2; 1] /\
    (forall x, In x [0; 2; 1] -> x <= mx) /\
    ixFirstFaceMax [0; 2; 1] = 1 + mx /\
    verify_overlap_order 4 3 (mkOverlapIx [0; 2; 1] [3; 0; 1])
    = ReverseCorrespondence (mkOverlapIx [3; 0; 1] [0; 2; 1]).
Proof.
  assert (Hne : vecFirstFaceIx (mkOverlapIx [0; 2; 1] [3; 0; 1]) <> [])
    by (simpl; discriminate).
  assert (Hall : Forall (fun x => 0 <= x < INT_MAX)
                   (vecFirstFaceIx (mkOverlapIx [0; 2; 1] [3; 0; 1])))
    by (simpl; unfold INT_MAX; repeat constructor; lia).
  destruct (verify_overlap_order_spec 4 3 _ Hne Hall)
    as (mx & H1 & H2 & H3 & _ & H5 & _).
  exists mx. simpl in H1, H2, H3, H5.
  split; [exact H1|]. split; [exact H2|]. split; [exact H3|].
  change (ixFirstFaceMax [0; 2; 1]) with 3 in H3.
  apply H5; lia.
Defined.

(** With no overlap face at all [ixFirstFaceMax] stays [-1], which as a
    [size_t] is no face count: the run fails. *)
Lemma verify_overlap_order_empty (nInputFaces nOutputFaces : nat) :
  (Z.of_nat nInputFaces < 2 ^ 64 - 1) -> (Z.of_nat nOutputFaces < 2 ^ 64 - 1) ->
  verify_overlap_order nInputFaces nOutputFaces (mkOverlapIx [] [])
  = InvalidOverlapMesh (-1).
Proof.
  intros H1 H2. unfold verify_overlap_order.
  change (ixFirstFaceMax (vecFirstFaceIx (mkOverlapIx [] []))) with (-1).
  replace (size_t_of_int (-1)) with (2 ^ 64 - 1) by reflexivity.
  destruct (Z.eqb_spec (2 ^ 64 - 1) (Z.of_nat nInputFaces)); [lia|].
  destruct (Z.eqb_spec (2 ^ 64 - 1) (Z.of_nat nOutputFaces)); [lia|].
  reflexivity.
Qed.

Lemma verify_overlap_order_empty_witness :
  verify_overlap_order 4 3 (mkOverlapIx [] []) = InvalidOverlapMesh (-1).
Proof.
  apply (verify_overlap_order_empty 4 3); simpl; lia.
Defined.

End DriverFacts.
